(** * Decision tree induction (utils/decision_tree.py): model and properties

    A shallow embedding of the [DecisionTree] class: the entropy and
    information-gain calculator, the splitter, the eligibility bookkeeping
    and the recursive node builder, followed by the properties proved about
    them.

    Modelling conventions.

    - A pandas frame [X] and its row-aligned label series [Y] are one list
      of samples; every row filter of the source ([X[mask]], [Y[mask]])
      is a [filter] over that list.  The column index [X.columns] is a
      separate list of names.
    - A cell is read through [cat] when its column is treated as
      categorical and through [num] when it is treated as numerical;
      [None] is a missing value (NaN), which compares false with
      everything, itself included.
    - Python floats are modelled as real numbers.  [math.log2] outside its
      domain and a numpy division by zero are reported through the result
      type instead of being given a value.
    - [set(...)] is modelled by [nodup]: the iteration order of a Python
      set is unspecified, the model fixes one.
    - Exceptions are a constructor of the result type; the recursion of
      [_generate_node] is bounded by a fuel argument. *)

From Stdlib Require Import Reals Lra Lia List String ZArith QArith Qround Bool Arith
  Permutation Sorted Ascii.
From Stdlib Require DecimalString DecimalNat DecimalFacts.
Import ListNotations.

Close Scope Q_scope.
Open Scope nat_scope.

(** ** Results of fallible computations *)

Inductive exn : Type :=
| ValueError          (* list.remove(x) with x absent, int(nan), truth value of a Series *)
| TypeError           (* comparison with None, subscript of a float *)
| UnboundLocalError   (* _split on a name in neither feature list *)
| MathDomainError     (* math.log2 of a non-positive number *)
| NumpyZeroDivide.    (* numpy scalar division by zero: a warning and nan/inf *)

Inductive res (A : Type) : Type :=
| Ok (a : A)
| Raise (e : exn)
| OutOfFuel.

Arguments Ok {A} a.
Arguments Raise {A} e.
Arguments OutOfFuel {A}.

Definition bind {A B : Type} (m : res A) (k : A -> res B) : res B :=
  match m with
  | Ok a => k a
  | Raise e => Raise e
  | OutOfFuel => OutOfFuel
  end.

Notation "x <- m ;; k" := (bind m (fun x => k))
  (at level 61, m at next level, right associativity).
Notation "' p <- m ;; k" := (bind m (fun x => match x with p => k end))
  (at level 61, p pattern, m at next level, right associativity).

(** ** Numbers *)

Definition log2 (x : R) : R := (ln x / ln 2)%R.

Definition Rltb (a b : R) : bool := if Rlt_dec a b then true else false.

(** [math.log2(x)]: a ValueError (math domain error) unless [0 < x]. *)
Definition math_log2 (x : R) : res R :=
  if Rlt_dec 0 x then Ok (log2 x) else Raise MathDomainError.

(** [m / n] for a numpy integer count [m] and a row count [n]. *)
Definition np_div (m n : nat) : res R :=
  if Nat.eqb n 0 then Raise NumpyZeroDivide else Ok (INR m / INR n)%R.

(** [int(q)]: truncation toward zero. *)
Definition py_int (q : Q) : Z := Z.quot (Qnum q) (Zpos (Qden q)).

(** [range(k)]. *)
Definition py_range (k : Z) : list Z := map Z.of_nat (seq 0 (Z.to_nat k)).

(** ** Frames *)

Record sample : Type := mkSample {
  cat : string -> option string;   (* the cell of a column read as a symbol *)
  num : string -> option Q;        (* the cell of a column read as a number *)
  target : string                  (* the label of the row in Y *)
}.

Definition dataset : Type := list sample.

(** [X.shape[0]] *)
Definition shape0 (X : dataset) : nat := List.length X.

(** [(mask).sum()] *)
Definition count (p : sample -> bool) (X : dataset) : nat :=
  List.length (filter p X).

(** [cell == v]; a missing value equals nothing. *)
Definition cell_eqb (c v : option string) : bool :=
  match c, v with
  | Some a, Some b => String.eqb a b
  | _, _ => false
  end.

Definition cell_dec (a b : option string) : {a = b} + {a <> b}.
Proof. decide equality. apply string_dec. Defined.

(** [set(X[name].tolist())] *)
Definition value_set (X : dataset) (name : string) : list (option string) :=
  nodup cell_dec (map (fun s => cat s name) X).

(** [X[name] == v], [Y == c], [X[name] < t], [X[name] >= t] as row masks. *)
Definition has_value (name : string) (v : option string) (s : sample) : bool :=
  cell_eqb (cat s name) v.

Definition has_class (c : string) (s : sample) : bool := String.eqb (target s) c.

Definition Qltb (a b : Q) : bool := negb (Qle_bool b a).

Definition is_less (name : string) (t : Z) (s : sample) : bool :=
  match num s name with
  | Some q => Qltb q (inject_Z t)
  | None => false
  end.

Definition is_more (name : string) (t : Z) (s : sample) : bool :=
  match num s name with
  | Some q => Qle_bool (inject_Z t) q
  | None => false
  end.

(** [X[name].max()], missing values skipped; [None] is the nan pandas
    returns when no value is left. *)
Definition Qmax (a b : Q) : Q := if Qle_bool a b then b else a.

Fixpoint col_max (X : dataset) (name : string) : option Q :=
  match X with
  | [] => None
  | s :: X' =>
      match num s name, col_max X' name with
      | Some q, Some m => Some (Qmax q m)
      | Some q, None => Some q
      | None, r => r
      end
  end.

(** ** Entropy (lines 235-285) *)

(** The pair [m/n], [math.log2(m/n)] that every entropy term is built from. *)
Definition ratio_log2 (m n : nat) : res (R * R) :=
  p <- np_div m n ;;
  l <- math_log2 p ;;
  Ok (p, l).

Fixpoint categorical_entropy_loop (X : dataset) (name : string) (n : nat)
    (values : list (option string)) (entropy : R) : res R :=
  match values with
  | [] => Ok entropy
  | feature_value :: rest =>
      let m_i := count (has_value name feature_value) X in
      if negb (Nat.eqb m_i 0) then
        '(p, l) <- ratio_log2 m_i n ;;
        categorical_entropy_loop X name n rest (entropy - p * l)%R
      else categorical_entropy_loop X name n rest entropy
  end.

Definition _categorical_feature_entropy (X : dataset) (name : string) : res R :=
  let n := shape0 X in
  categorical_entropy_loop X name n (value_set X name) 0%R.

Definition _numerical_feature_entropy (X : dataset) (name : string) (threshold : Z)
    : res R :=
  let n := shape0 X in
  let less := count (is_less name threshold) X in
  let more := count (is_more name threshold) X in
  if Nat.eqb less 0 && Nat.eqb more 0 then Ok 0%R
  else if Nat.eqb less 0 then
    '(pm, lm) <- ratio_log2 more n ;; Ok (- pm * lm)%R
  else if Nat.eqb more 0 then
    '(pl, ll) <- ratio_log2 less n ;; Ok (- pl * ll)%R
  else
    '(pl, ll) <- ratio_log2 less n ;;
    '(pm, lm) <- ratio_log2 more n ;;
    Ok (- pl * ll - pm * lm)%R.

(** ** The tree object *)

(** A gain as [_generate_node] sees it: the scalar of a categorical feature,
    the [(score, threshold)] tuple of a numerical one, [None] for a name in
    neither feature list.  [GInt] is a Python [int] (a configured
    [min_impurity_decrease] such as [0], or the gain [0 - 0] when no float
    entered the computation): the [isinstance(_, float)] tests reject it.
    [GNaN] is the float nan, which loses every comparison. *)
Inductive gain_value : Type :=
| GInt (z : Z)
| GFloat (g : R)
| GNaN
| GPair (g : R) (threshold : option Z)
| GNone.

(** A value of the [special_cases] dict and an element of
    [available_feature_names]: a name, or a list of names kept as one
    object. *)
Inductive names : Type :=
| Name (s : string)
| NameList (l : list string).

Definition registry : Type := list (string * names).

(** The incoming edge of a node: [None] for the root, the value of a
    categorical branch, or the strings [f'< {t}'] and [f'>= {t}']. *)
Inductive edge : Type :=
| NoEdge
| ByValue (v : option string)
| Less (t : Z)
| AtLeast (t : Z).

#[local] Unset Elimination Schemes.

Inductive Node : Type := mkNode {
  split_feature : option string;
  feature_value : edge;
  samples : nat;
  distribution : list nat;
  label : option string;
  childs : list Node
}.

#[local] Set Elimination Schemes.

Record DecisionTree : Type := mkDecisionTree {
  _min_samples_split : Z;
  _min_samples_leaf : Z;
  _min_impurity_decrease : gain_value;
  feature_names : list string;
  class_names : list string;
  categorical_feature_names : list string;
  numerical_feature_names : list string
}.

(** [DecisionTree()] with the defaults of [__init__]; the lists are set by
    [fit]. *)
Definition default_tree : DecisionTree :=
  mkDecisionTree 2 1 (GFloat (5 / 100)) [] [] [] [].

(** ** Python containers *)

(** [name in names] *)
Definition mem (name : string) (l : list string) : bool :=
  existsb (String.eqb name) l.

Definition names_eqb (a b : names) : bool :=
  match a, b with
  | Name x, Name y => String.eqb x y
  | NameList x, NameList y => if list_eq_dec string_dec x y then true else false
  | _, _ => false
  end.

(** [l.remove(x)]: drops the first element equal to [x], ValueError when
    there is none. *)
Fixpoint list_remove (x : names) (l : list names) : res (list names) :=
  match l with
  | [] => Raise ValueError
  | y :: l' =>
      if names_eqb y x then Ok l'
      else r <- list_remove x l' ;; Ok (y :: r)
  end.

(** [k in d.keys()], [d[k]], [d.pop(k)] *)
Fixpoint dict_get (k : string) (d : registry) : option names :=
  match d with
  | [] => None
  | (k', v) :: d' => if String.eqb k' k then Some v else dict_get k d'
  end.

Definition dict_pop (k : string) (d : registry) : registry :=
  filter (fun kv => negb (String.eqb (fst kv) k)) d.

(** [sorted(list(set(Y.tolist())))] *)
Fixpoint insert_sorted (c : string) (l : list string) : list string :=
  match l with
  | [] => [c]
  | d :: l' => if String.leb c d then c :: l else d :: insert_sorted c l'
  end.

Definition sorted (l : list string) : list string :=
  fold_right insert_sorted [] l.

Definition sorted_set (l : list string) : list string :=
  sorted (nodup string_dec l).

(** The truth value of [best_feature]: [None] and the empty string are
    false. *)
Definition truthy (f : option string) : bool :=
  match f with
  | Some s => negb (String.eqb s "")
  | None => false
  end.

Section Methods.

Variable self : DecisionTree.

(** ** Information gain (lines 174-233) *)

(** The loop [for class_name in self.class_names: b += (A_i/A) * H(x)]
    shared by both gains; [H] is the entropy applied to the rows of one
    class. *)
Fixpoint class_loop (H : dataset -> res R) (X : dataset) (classes : list string)
    (b : R) : res R :=
  match classes with
  | [] => Ok b
  | class_name :: rest =>
      let A_i := count (has_class class_name) X in
      let A := shape0 X in
      let x := filter (has_class class_name) X in
      r <- np_div A_i A ;;
      h <- H x ;;
      class_loop H X rest (b + r * h)%R
  end.

Definition _categorical_information_gain (X : dataset) (name : string) : res R :=
  a <- _categorical_feature_entropy X name ;;
  b <- class_loop (fun x => _categorical_feature_entropy x name) X
         (class_names self) 0%R ;;
  Ok (a - b)%R.

(** The gain of one threshold: the body of the loop of
    [_numerical_information_gain]. *)
Definition threshold_gain (X : dataset) (name : string) (threshold : Z) : res R :=
  a <- _numerical_feature_entropy X name threshold ;;
  b <- class_loop (fun x => _numerical_feature_entropy x name threshold) X
         (class_names self) 0%R ;;
  Ok (a - b)%R.

Fixpoint threshold_loop (X : dataset) (name : string) (thresholds : list Z)
    (best_gain : R) (best_threshold : option Z) : res (R * option Z) :=
  match thresholds with
  | [] => Ok (best_gain, best_threshold)
  | threshold :: rest =>
      gain <- threshold_gain X name threshold ;;
      if Rltb best_gain gain
      then threshold_loop X name rest gain (Some threshold)
      else threshold_loop X name rest best_gain best_threshold
  end.

(** [int(nan)] is a ValueError: the column has no value to take the
    maximum of. *)
Definition _numerical_information_gain (X : dataset) (name : string)
    : res (R * option Z) :=
  match col_max X name with
  | None => Raise ValueError
  | Some m => threshold_loop X name (py_range (py_int m)) 0%R None
  end.

(** The categorical gain [a - b] is a Python [int] when neither [a] nor [b]
    met a float: no value of the column has a row and there is no class. *)
Definition gain_is_int (X : dataset) (name : string) : bool :=
  forallb (fun v => Nat.eqb (count (has_value name v) X) 0) (value_set X name)
  && match class_names self with [] => true | _ => false end.

(** [X[names]] for a list of names is a frame, whose [isnull().any()] is a
    Series; its truth value is a ValueError.  The message printed for a
    column with missing values is not modelled. *)
Definition _information_gain (X : dataset) (feature_name : names)
    : res gain_value :=
  match feature_name with
  | NameList _ => Raise ValueError
  | Name f =>
      if mem f (categorical_feature_names self) then
        match _categorical_information_gain X f with
        | Ok g => Ok (if gain_is_int X f then GInt 0 else GFloat g)
        | Raise NumpyZeroDivide => Ok GNaN
        | Raise e => Raise e
        | OutOfFuel => OutOfFuel
        end
      else if mem f (numerical_feature_names self) then
        '(g, t) <- _numerical_information_gain X f ;; Ok (GPair g t)
      else Ok GNone
  end.

(** ** Splitting (lines 128-172) *)

Definition _categorical_split (X : dataset) (name : string)
    : list (dataset * edge) :=
  map (fun v => (filter (has_value name v) X, ByValue v)) (value_set X name).

Definition _numerical_split (X : dataset) (name : string) (threshold : Z)
    : list (dataset * edge) :=
  [ (filter (is_less name threshold) X, Less threshold);
    (filter (is_more name threshold) X, AtLeast threshold) ].

Definition _split (X : dataset) (name : string) (threshold : gain_value)
    : res (list (dataset * edge)) :=
  if mem name (categorical_feature_names self) then Ok (_categorical_split X name)
  else if mem name (numerical_feature_names self) then
    match threshold with
    | GPair _ (Some t) => Ok (_numerical_split X name t)
    | _ => Raise TypeError
    end
  else Raise UnboundLocalError.

(** ** The node builder (lines 55-126) *)

(** The four [isinstance] cases of lines 75-90: both sides must be a float
    or a tuple, and the scores are compared strictly. *)
Definition better (best_gain current_gain : gain_value) : bool :=
  match best_gain, current_gain with
  | GFloat b, GFloat c => Rltb b c
  | GPair b _, GFloat c => Rltb b c
  | GFloat b, GPair c _ => Rltb b c
  | GPair b _, GPair c _ => Rltb b c
  | _, _ => false
  end.

Definition name_of (n : names) : option string :=
  match n with
  | Name s => Some s
  | NameList _ => None
  end.

Fixpoint best_feature_loop (X : dataset) (available : list names)
    (best_gain : gain_value) (best_feature : option string)
    : res (gain_value * option string) :=
  match available with
  | [] => Ok (best_gain, best_feature)
  | feature_name :: rest =>
      current_gain <- _information_gain X feature_name ;;
      if better best_gain current_gain
      then best_feature_loop X rest current_gain (name_of feature_name)
      else best_feature_loop X rest best_gain best_feature
  end.

(** Lines 71-90: the search starts from the configured threshold with no
    feature selected. *)
Definition select_best (X : dataset) (available : list names)
    : res (gain_value * option string) :=
  best_feature_loop X available (_min_impurity_decrease self) None.

(** Lines 92-101: the class counts in the order of [self.class_names] and
    the first class with the largest count. *)
Fixpoint distribution_loop (X : dataset) (classes : list string)
    (distribution : list nat) (label : option string)
    (max_samples_per_class : Z) : list nat * option string :=
  match classes with
  | [] => (distribution, label)
  | class_name :: rest =>
      let samples_per_class := count (has_class class_name) X in
      if (max_samples_per_class <? Z.of_nat samples_per_class)%Z
      then distribution_loop X rest (distribution ++ [samples_per_class])
             (Some class_name) (Z.of_nat samples_per_class)
      else distribution_loop X rest (distribution ++ [samples_per_class])
             label max_samples_per_class
  end.

(** Lines 105-112: the eligible list handed to the children and the
    registry after the choice of [best_feature]. *)
Definition update_eligibility (best_feature : string)
    (available : list names) (special_cases : registry)
    : res (list names * registry) :=
  available1 <- (if mem best_feature (categorical_feature_names self)
                 then list_remove (Name best_feature) available
                 else Ok available) ;;
  match special_cases with
  | [] => Ok (available1, special_cases)
  | _ :: _ =>
      match dict_get best_feature special_cases with
      | Some dependent =>
          Ok (available1 ++ [dependent], dict_pop best_feature special_cases)
      | None => Ok (available1, special_cases)
      end
  end.

(** Lines 118-122: one child per part, built left to right; the registry
    is one shared object, so each child starts from the registry its elder
    siblings left.  (An empty registry is passed as the default [None];
    both are the empty registry here.) *)
Fixpoint childs_loop
    (build : dataset -> edge -> list names -> registry -> res (Node * registry))
    (parts : list (dataset * edge)) (available : list names)
    (special_cases : registry) : res (list Node * registry) :=
  match parts with
  | [] => Ok ([], special_cases)
  | (x, fv) :: rest =>
      '(child, special_cases1) <- build x fv available special_cases ;;
      '(childs, special_cases2) <- childs_loop build rest available special_cases1 ;;
      Ok (child :: childs, special_cases2)
  end.

Fixpoint _generate_node (fuel : nat) (X : dataset) (feature_value : edge)
    (available_feature_names : list names) (special_cases : registry)
    {struct fuel} : res (Node * registry) :=
  match fuel with
  | O => OutOfFuel
  | S fuel' =>
      '(best_gain, best_feature) <- select_best X available_feature_names ;;
      let samples := shape0 X in
      let '(distribution, label) :=
         distribution_loop X (class_names self) [] None (-1)%Z in
      '(childs, special_cases') <-
         match best_feature with
         | Some best =>
             if truthy best_feature then
               '(available, special_cases1) <-
                  update_eligibility best available_feature_names special_cases ;;
               let num_samples := shape0 X in
               if (_min_samples_split self <=? Z.of_nat num_samples)%Z then
                 parts <- _split X best best_gain ;;
                 childs_loop (_generate_node fuel') parts available special_cases1
               else Ok ([], special_cases1)
             else Ok ([], special_cases)
         | None => Ok ([], special_cases)
         end ;;
      Ok (mkNode best_feature feature_value samples distribution label childs,
          special_cases')
  end.

End Methods.

(** ** fit (lines 27-53) *)

Fixpoint remove_each (l : list string) (available : list names)
    : res (list names) :=
  match l with
  | [] => Ok available
  | feature_name :: rest =>
      a <- list_remove (Name feature_name) available ;;
      remove_each rest a
  end.

(** Lines 45-51: every dependent listed in [special_cases] leaves the
    initial eligible list. *)
Fixpoint remove_dependents (values : list names) (available : list names)
    : res (list names) :=
  match values with
  | [] => Ok available
  | Name value :: rest =>
      a <- list_remove (Name value) available ;;
      remove_dependents rest a
  | NameList value :: rest =>
      a <- remove_each value available ;;
      remove_dependents rest a
  end.

(** [fit] returns the object with its attributes set, [self.tree], and the
    state in which it leaves the [special_cases] object of the caller. *)
Definition fit (fuel : nat) (self : DecisionTree) (X_columns : list string)
    (XY : dataset) (categorical numerical : list string)
    (special_cases : registry) : res (DecisionTree * Node * registry) :=
  let self1 :=
    mkDecisionTree (_min_samples_split self) (_min_samples_leaf self)
      (_min_impurity_decrease self)
      X_columns (sorted_set (map target XY)) categorical numerical in
  let available_feature_names := map Name (feature_names self1) in
  available <- remove_dependents (map snd special_cases) available_feature_names ;;
  '(tree, special_cases1) <-
     _generate_node self1 fuel XY NoEdge available special_cases ;;
  Ok (self1, tree, special_cases1).


(** ** Vocabulary of the properties *)

Definition Rsum (l : list R) : R := fold_right Rplus 0%R l.

(** The gain formula of the specification, for an entropy [H]:
    [H(X) - sum over the classes c of (|rows of c| / n) * H(rows of c)]. *)
Definition spec_gain (H : dataset -> R) (classes : list string) (X : dataset) : R :=
  (H X - Rsum (map (fun c => INR (count (has_class c) X) / INR (shape0 X)
                             * H (filter (has_class c) X)) classes))%R.

(** The score of a gain: the scalar itself, or the first component of the
    pair.  A Python [int], [None] and nan take no part in a comparison. *)
Definition score (g : gain_value) : option R :=
  match g with
  | GFloat s => Some s
  | GPair s _ => Some s
  | _ => None
  end.

(** The integer thresholds from 0 through floor(m) - 1. *)
Definition spec_threshold (m : Q) (t : Z) : Prop := (0 <= t <= Qfloor m - 1)%Z.

(** The number returned by a computation that does not fail. *)
Definition value_of (r : res R) : R :=
  match r with
  | Ok h => h
  | _ => 0%R
  end.

(** The nodes of a tree, the features it splits on, and the features met
    along each root-to-leaf path. *)
Fixpoint nodes (n : Node) : list Node :=
  match n with
  | mkNode _ _ _ _ _ cs => n :: flat_map nodes cs
  end.

Definition own_split (n : Node) : list string :=
  match split_feature n with
  | Some f => [f]
  | None => []
  end.

Fixpoint splits (n : Node) : list string :=
  match n with
  | mkNode sf _ _ _ _ cs =>
      match sf with Some f => [f] | None => [] end ++ flat_map splits cs
  end.

Fixpoint paths (n : Node) : list (list string) :=
  match n with
  | mkNode sf _ _ _ _ cs =>
      let here := match sf with Some f => [f] | None => [] end in
      match cs with
      | [] => [here]
      | _ :: _ => map (app here) (flat_map paths cs)
      end
  end.

(** The split features that consumed their registry entry: the ones
    [if best_feature:] lets through. *)
Definition consumed (n : Node) : list string :=
  filter (fun f => negb (String.eqb f "")) (splits n).

(** The names in an eligible list, and the names a registry still holds
    back. *)
Fixpoint names_in (l : list names) : list string :=
  match l with
  | [] => []
  | Name s :: l' => s :: names_in l'
  | NameList _ :: l' => names_in l'
  end.

Definition dependents (sc : registry) : list string := names_in (map snd sc).

(** The children built one after the other, each related to the call that
    built it by [R]. *)
Inductive childs_rel
    (R : dataset -> edge -> list names -> registry -> Node -> registry -> Prop)
    : list (dataset * edge) -> list names -> registry -> list Node -> registry -> Prop :=
| childs_nil available sc : childs_rel R [] available sc [] sc
| childs_cons x fv rest available sc child sc1 childs sc2 :
    R x fv available sc child sc1 ->
    childs_rel R rest available sc1 childs sc2 ->
    childs_rel R ((x, fv) :: rest) available sc (child :: childs) sc2.

(** No cell of a column that is used is missing. *)
Definition complete (categorical numerical : list string) (X : dataset) : Prop :=
  forall s, In s X ->
    (forall f, In f categorical -> cat s f <> None) /\
    (forall f, In f numerical -> num s f <> None).

(** A threshold that is not negative; a Python [int] never lets a feature
    win, whatever its sign. *)
Definition nonnegative (g : gain_value) : Prop :=
  match score g with
  | Some s => (0 <= s)%R
  | None => True
  end.

(** ** Sample data *)

Definition cells (l : list (string * string)) (name : string) : option string :=
  match find (fun kv => String.eqb (fst kv) name) l with
  | Some kv => Some (snd kv)
  | None => None
  end.

Definition numbers (l : list (string * Q)) (name : string) : option Q :=
  match find (fun kv => String.eqb (fst kv) name) l with
  | Some kv => Some (snd kv)
  | None => None
  end.

Definition no_numbers (name : string) : option Q := None.
Definition no_cells (name : string) : option string := None.

(** Two rows that column [a] separates; [b] and [c] are constant. *)
Definition row_x : sample :=
  mkSample (cells [("a", "x"); ("b", "u"); ("c", "w")]%string) no_numbers "p".

Definition row_y : sample :=
  mkSample (cells [("a", "y"); ("b", "u"); ("c", "w")]%string) no_numbers "q".

Definition two_rows : dataset := [row_x; row_y].

Definition abc : list string := ["a"; "b"; "c"]%string.

(** [b] waits for [a]. *)
Definition b_after_a : registry := [("a", Name "b")]%string.

(** [b] and [c] wait for [a]. *)
Definition bc_after_a : registry := [("a", NameList ["b"; "c"])]%string.

(** The attributes [fit] sets on [default_tree] for [two_rows]. *)
Definition abc_tree : DecisionTree :=
  mkDecisionTree 2 1 (GFloat (5 / 100)) abc ["p"; "q"]%string abc [].

(** The same tree with [min_samples_split = 3]. *)
Definition abc_tree3 : DecisionTree :=
  mkDecisionTree 3 1 (GFloat (5 / 100)) abc ["p"; "q"]%string abc [].

(** Two rows, the second with a missing value in column [a]. *)
Definition row_ax : sample := mkSample (cells [("a", "x")]%string) no_numbers "p".

Definition row_missing : sample := mkSample no_cells no_numbers "q".

Definition with_missing : dataset := [row_ax; row_missing].

Definition a_tree : DecisionTree :=
  mkDecisionTree 2 1 (GFloat (5 / 100)) ["a"]%string ["p"; "q"]%string ["a"]%string [].

(** One row whose numerical column [n] is 1. *)
Definition row_n1 : sample := mkSample no_cells (numbers [("n"%string, 1%Q)]) "p".

Definition one_row : dataset := [row_n1].

Definition n_tree : DecisionTree :=
  mkDecisionTree 2 1 (GFloat (5 / 100)) ["n"]%string ["p"]%string [] ["n"]%string.

(** ** The claims that the code does not satisfy, as they are stated *)

(** C2 as stated: [fit] leaves the caller's mapping as it found it. *)
Definition registry_untouched (fuel : nat) (self : DecisionTree)
    (X_columns : list string) (XY : dataset) (categorical numerical : list string)
    (special_cases : registry) : Prop :=
  forall self1 tree special_cases1,
    fit fuel self X_columns XY categorical numerical special_cases
      = Ok (self1, tree, special_cases1) ->
    special_cases1 = special_cases.

(** C4 as stated: the pair returned holds the largest of the gains of the
    thresholds and a threshold that has this gain. *)
Definition scan_attains_maximum (self : DecisionTree) (X : dataset) (F : string)
    : Prop :=
  X <> [] ->
  exists g t,
    _numerical_information_gain self X F = Ok (g, Some t) /\
    threshold_gain self X F t = Ok g /\
    forall m t', col_max X F = Some m -> spec_threshold m t' ->
      exists gt, threshold_gain self X F t' = Ok gt /\ (gt <= g)%R.

(** C10 as stated: with a non-negative threshold and a non-empty training
    set every node of the fitted tree holds at least one row. *)
Definition no_empty_node (fuel : nat) (self : DecisionTree)
    (X_columns : list string) (XY : dataset) (categorical numerical : list string)
    (special_cases : registry) : Prop :=
  nonnegative (_min_impurity_decrease self) ->
  XY <> [] ->
  forall self1 tree special_cases1,
    fit fuel self X_columns XY categorical numerical special_cases
      = Ok (self1, tree, special_cases1) ->
    Forall (fun n => 1 <= samples n) (nodes tree).

(** The registry without the entries whose key is in [used]. *)
Definition remaining (used : list string) (sc : registry) : registry :=
  filter (fun kv => negb (mem (fst kv) used)) sc.

(** The trees [fit] builds from the sample data. *)
Definition two_rows_tree : Node :=
  mkNode (Some "a"%string) NoEdge 2 [1; 1] (Some "p"%string)
    [ mkNode None (ByValue (Some "x"%string)) 1 [1; 0] (Some "p"%string) [];
      mkNode None (ByValue (Some "y"%string)) 1 [0; 1] (Some "q"%string) [] ].

Definition with_missing_tree : Node :=
  mkNode (Some "a"%string) NoEdge 2 [1; 1] (Some "p"%string)
    [ mkNode None (ByValue (Some "x"%string)) 1 [1; 0] (Some "p"%string) [];
      mkNode None (ByValue None) 0 [0; 0] (Some "p"%string) [] ].

(** Induction over a tree and the trees below it. *)
Fixpoint Node_induction (P : Node -> Prop)
    (step : forall sf fv n d l cs, Forall P cs -> P (mkNode sf fv n d l cs))
    (node : Node) : P node :=
  match node with
  | mkNode sf fv n d l cs =>
      step sf fv n d l cs
        ((fix all (cs : list Node) : Forall P cs :=
            match cs with
            | [] => Forall_nil P
            | c :: cs' => Forall_cons c (Node_induction P step c) (all cs')
            end) cs)
  end.

(** The names that can still become a split below a call: the names of its
    eligible list and the names its registry holds back. *)
Definition within_reach (available : list names) (sc : registry) : list string :=
  names_in available ++ dependents sc.

(** [handed_down self a sc a' sc']: a call that receives the eligible list
    [a] and the registry [sc] can lead to a call, itself or a descendant,
    that receives [a'] and [sc'].  A call receives what its parent computed
    with [update_eligibility] for a feature of its own list, with a
    registry from which calls built earlier may have taken the keys
    [used]. *)
Inductive handed_down (self : DecisionTree)
    : list names -> registry -> list names -> registry -> Prop :=
| handed_here a sc : handed_down self a sc a sc
| handed_after a sc a' sc' used :
    handed_down self a sc a' sc' ->
    handed_down self a sc a' (remaining used sc')
| handed_below a sc a' sc' best a'' sc'' :
    handed_down self a sc a' sc' ->
    In (Name best) a' ->
    update_eligibility self best a' sc' = Ok (a'', sc'') ->
    handed_down self a sc a'' sc''.

Definition occ (l : list string) (x : string) : nat := count_occ string_dec l x.

(** No categorical feature is met twice on a root-to-leaf path. *)
Definition once_per_path (categorical : list string) (node : Node) : Prop :=
  forall p, In p (paths node) ->
  forall f, In f categorical -> count_occ string_dec p f <= 1.

(** ** Termination measure *)

(** A bound on the depth of the calls below a call on [X] with the
    eligible list [available] and the registry [sc], when no subset has
    more than [N] rows: a categorical split shortens the eligible list or
    the registry, a numerical split shortens the subset. *)
Definition call_weight (available : list names) (sc : registry) : nat :=
  List.length available + 2 * List.length sc.

Definition call_measure (N : nat) (X : dataset) (available : list names)
    (sc : registry) : nat :=
  call_weight available sc * S N + List.length X.

(** Fuel that is enough for [fit] on given inputs. *)
Definition fit_fuel (X_columns : list string) (XY : dataset)
    (special_cases : registry) : nat :=
  S (call_measure (List.length XY) XY (map Name X_columns) special_cases).



(** [X[name].notnull()] as a row mask. *)
Definition has_cell (name : string) (s : sample) : bool :=
  match cat s name with
  | Some _ => true
  | None => false
  end.

(** The total number of rows in the parts of a split. *)
Definition parts_size (parts : list (dataset * edge)) : nat :=
  list_sum (map (fun p => List.length (fst p)) parts).

(** The shape of a node of a fitted tree: its children hold at most its
    rows; a node with children splits on a feature with a non-empty name,
    either a categorical one, with one child per value and no value twice,
    or a numerical one, with the two children [< t] and [>= t] of one
    threshold [t >= 0]. *)
Definition well_shaped (self : DecisionTree) (n : Node) : Prop :=
  list_sum (map samples (childs n)) <= samples n /\
  (childs n = [] \/
   exists f,
     split_feature n = Some f /\ f <> ""%string /\
     ((In f (categorical_feature_names self) /\
       exists values,
         NoDup values /\ map feature_value (childs n) = map ByValue values) \/
      (~ In f (categorical_feature_names self) /\
       In f (numerical_feature_names self) /\
       exists t,
         (0 <= t)%Z /\ map feature_value (childs n) = [Less t; AtLeast t]))).

(** The label of a node is the class at the first position of the largest
    entry of its distribution, which has one entry per class. *)
Definition majority_label (classes : list string) (n : Node) : Prop :=
  List.length (distribution n) = List.length classes /\
  match label n with
  | None => classes = []
  | Some c =>
      exists i,
        nth_error classes i = Some c /\
        (forall j m, nth_error (distribution n) j = Some m ->
                     m <= nth i (distribution n) 0) /\
        (forall j m, j < i -> nth_error (distribution n) j = Some m ->
                     m < nth i (distribution n) 0)
  end.

(** On every root-to-leaf path, [k] is met before any occurrence of [v]. *)
Definition prerequisite_first (k v : string) (node : Node) : Prop :=
  forall p, In p (paths node) ->
  forall pre post, p = pre ++ v :: post -> In k pre.

(** [v] is not eligible and only the key [k] can make it eligible. *)
Definition locked_by (k v : string) (available : list names) (sc : registry) : Prop :=
  ~ In v (names_in available) /\
  forall k', In (k', Name v) sc -> k' = k.

(** The entropy formula of the docstring of
    [_categorical_feature_entropy]: minus the sum, over the values that
    have a row, of [(m_i/n) * log2(m_i/n)]. *)
Definition entropy_term (m n : nat) : R :=
  (INR m / INR n * log2 (INR m / INR n))%R.

Definition spec_categorical_entropy (X : dataset) (F : string) : R :=
  (- Rsum (map (fun v => entropy_term (count (has_value F v) X) (shape0 X))
             (filter (fun v => negb (Nat.eqb (count (has_value F v) X) 0))
                (value_set X F))))%R.

(** A column in which all rows of [X] agree: on one cell, missing or not,
    when it is read as categorical, on one number when it is read as
    numerical. *)
Definition constant_column (self : DecisionTree) (X : dataset) (f : string) : Prop :=
  (In f (categorical_feature_names self) /\
   exists v, forall s, In s X -> cat s f = v) \/
  (~ In f (categorical_feature_names self) /\
   exists q, forall s, In s X -> exists q', num s f = Some q' /\ (q' == q)%Q).

(** The same object with another [min_samples_leaf]. *)
Definition with_min_samples_leaf (m : Z) (self : DecisionTree) : DecisionTree :=
  mkDecisionTree (_min_samples_split self) m (_min_impurity_decrease self)
    (feature_names self) (class_names self) (categorical_feature_names self)
    (numerical_feature_names self).

(** ** Rendering (lines 287-341)

    The graph is the list of the statements that the calls of
    [graph.node] and [graph.edge] add to the [Digraph], in their order.
    The label of an edge is kept as the [feature_value] it is printed
    from.  [repr_int64] is the text of a numpy integer inside a list,
    which depends on the numpy version.  Writing the graph to a file
    ([kwargs]) is not modelled. *)

Definition decimal (n : nat) : string :=
  DecimalString.NilZero.string_of_uint (Nat.to_uint n).

Definition newline : string := String (ascii_of_nat 10) EmptyString.

(** [sep.join(l)] and [str(l)] for a list. *)
Fixpoint join (sep : string) (l : list string) : string :=
  match l with
  | [] => EmptyString
  | [x] => x
  | x :: l' => String.append x (String.append sep (join sep l'))
  end.

Definition str_list (repr_int64 : nat -> string) (l : list nat) : string :=
  String.append "[" (String.append (join ", " (map repr_int64 l)) "]").

Definition str_label (l : option string) : string :=
  match l with
  | Some c => c
  | None => "None"%string
  end.

Record display : Type := mkDisplay {
  rounded : bool;
  show_num_samples : bool;
  show_distribution : bool;
  show_label : bool
}.

Inductive statement : Type :=
| NodeStmt (name : string) (text : string)
| EdgeStmt (tail head : string) (text : edge).

Record Digraph : Type := mkDigraph {
  node_attr : list (string * string);
  body : list statement
}.

(** [f'node{count}'] *)
Definition node_name (count : nat) : string := String.append "node" (decimal count).

(** Lines 326-334. *)
Definition node_content (repr_int64 : nat -> string) (d : display) (node : Node)
    : string :=
  let c0 := EmptyString in
  let c1 :=
    match split_feature node with
    | Some f =>
        if truthy (split_feature node)
        then String.append c0 (String.append f newline) else c0
    | None => c0
    end in
  let c2 :=
    if show_num_samples d
    then String.append c1
           (String.append "samples = " (String.append (decimal (samples node)) newline))
    else c1 in
  let c3 :=
    if show_distribution d
    then String.append c2
           (String.append "distribution: "
              (String.append (str_list repr_int64 (distribution node)) newline))
    else c2 in
  if show_label d
  then String.append c3 (String.append "label = " (str_label (label node)))
  else c3.

(** Lines 322-341.  The state is the counter of the [_counter] wrapper,
    one for all trees, and the body of the graph; the wrapper counts the
    call before the body of [_add_node] reads the counter. *)
Fixpoint _add_node (repr_int64 : nat -> string) (d : display) (node : Node)
    (parent_name : option string) (st : nat * list statement) {struct node}
    : nat * list statement :=
  match node with
  | mkNode sf fv n dist lab cs =>
      let count := S (fst st) in
      let name := node_name count in
      let body1 := snd st ++ [NodeStmt name (node_content repr_int64 d node)] in
      let body2 :=
        match parent_name with
        | Some p => if truthy parent_name then body1 ++ [EdgeStmt p name fv] else body1
        | None => body1
        end in
      fold_left (fun st' child => _add_node repr_int64 d child (Some name) st')
        cs (count, body2)
  end.

(** The attributes [tree] and [graph] of the object: absent until [fit]
    and [_create_graph] set them. *)
Record Instance : Type := mkInstance {
  self_tree : option Node;
  self_graph : option Digraph
}.

Inductive rendered : Type :=
| Graph (g : Digraph)
| AttributeError.

(** Lines 313-320: the empty graph is stored before [self.tree] is read. *)
Definition _create_graph (repr_int64 : nat -> string) (d : display)
    (self : Instance) (count : nat) : Instance * nat * rendered :=
  let attr :=
    if rounded d
    then [("shape", "box"); ("style", "rounded")]%string
    else [("shape", "box")]%string in
  match self_tree self with
  | None => (mkInstance None (Some (mkDigraph attr [])), count, AttributeError)
  | Some t =>
      let '(count', stmts) := _add_node repr_int64 d t None (count, []) in
      let g := mkDigraph attr stmts in
      (mkInstance (Some t) (Some g), count', Graph g)
  end.

(** Lines 287-311. *)
Definition render (repr_int64 : nat -> string) (d : display) (self : Instance)
    (count : nat) : Instance * nat * rendered :=
  match self_graph self with
  | Some g => (self, count, Graph g)
  | None => _create_graph repr_int64 d self count
  end.

(** [fit] on an object: [self.tree] is set, a graph made before stays. *)
Definition set_tree (t : Node) (self : Instance) : Instance :=
  mkInstance (Some t) (self_graph self).

(** The parts of a graph body. *)
Definition node_names (stmts : list statement) : list string :=
  flat_map (fun s => match s with NodeStmt n _ => [n] | EdgeStmt _ _ _ => [] end) stmts.

Definition node_texts (stmts : list statement) : list string :=
  flat_map (fun s => match s with NodeStmt _ t => [t] | EdgeStmt _ _ _ => [] end) stmts.

Definition edge_heads (stmts : list statement) : list string :=
  flat_map (fun s => match s with NodeStmt _ _ => [] | EdgeStmt _ h _ => [h] end) stmts.

Definition edge_texts (stmts : list statement) : list edge :=
  flat_map (fun s => match s with NodeStmt _ _ => [] | EdgeStmt _ _ t => [t] end) stmts.

(** An edge of the graph goes from a node numbered [i] to a node numbered
    [j], with [lo < i < j]. *)
Definition edge_goes_down (lo : nat) (s : statement) : Prop :=
  match s with
  | NodeStmt _ _ => True
  | EdgeStmt t h _ => exists i j, t = node_name i /\ h = node_name j /\ lo < i < j
  end.

(** What one call of [_add_node] does to the counter and to the body. *)
Definition adds (repr_int64 : nat -> string) (d : display) (node : Node) : Prop :=
  forall parent c stmts0,
  exists stmts,
    _add_node repr_int64 d node parent (c, stmts0)
    = (c + List.length (nodes node), stmts0 ++ stmts) /\
    node_names stmts = map node_name (seq (S c) (List.length (nodes node))) /\
    node_texts stmts = map (node_content repr_int64 d) (nodes node) /\
    edge_heads stmts
    = (if truthy parent then [node_name (S c)] else [])
      ++ map node_name (seq (S (S c)) (List.length (nodes node) - 1)) /\
    edge_texts stmts
    = (if truthy parent then [feature_value node] else [])
      ++ map feature_value (tl (nodes node)) /\
    (forall t h e, In (EdgeStmt t h e) stmts ->
       (Some t = parent /\ h = node_name (S c)) \/
       (exists i j, t = node_name i /\ h = node_name j /\ c < i < j)).


(** An object on which [fit] has set [tree] and [render] was not called,
    an object on which neither was called, and the default arguments of
    [render]. *)
Definition fitted (t : Node) : Instance := mkInstance (Some t) None.

Definition unfitted : Instance := mkInstance None None.

Definition default_display : display := mkDisplay false false false false.

(** A node without children and without split feature. *)
Definition is_leaf (node : Node) : Prop :=
  split_feature node = None /\ childs node = [].
(** * Properties *)

(** ** Real-number facts used throughout *)

Lemma ln2_pos : (0 < ln 2)%R.
Proof. rewrite <- ln_1. apply ln_increasing; lra. Qed.

Lemma log2_1 : log2 1 = 0%R.
Proof. unfold log2. rewrite ln_1. unfold Rdiv. ring. Qed.

Lemma log2_half : log2 (/ 2) = (- 1)%R.
Proof.
  unfold log2. rewrite ln_Rinv by lra.
  pose proof ln2_pos. field. lra.
Qed.

Lemma Rltb_true (a b : R) : (a < b)%R -> Rltb a b = true.
Proof. intros H. unfold Rltb. destruct (Rlt_dec a b); [reflexivity | contradiction]. Qed.

Lemma Rltb_false (a b : R) : (b <= a)%R -> Rltb a b = false.
Proof. intros H. unfold Rltb. destruct (Rlt_dec a b); [lra | reflexivity]. Qed.

Lemma Rltb_true_iff (a b : R) : Rltb a b = true <-> (a < b)%R.
Proof.
  unfold Rltb. destruct (Rlt_dec a b); split; intros; try assumption;
    try reflexivity; try discriminate; contradiction.
Qed.

Lemma Rltb_false_iff (a b : R) : Rltb a b = false <-> (b <= a)%R.
Proof.
  unfold Rltb. destruct (Rlt_dec a b); split; intros; try reflexivity;
    try discriminate; lra.
Qed.

Lemma INR_ratio_pos (m n : nat) : m <> 0 -> n <> 0 -> (0 < INR m / INR n)%R.
Proof.
  intros Hm Hn. apply Rdiv_lt_0_compat; apply lt_0_INR; lia.
Qed.

Lemma INR_ratio_same (n : nat) : n <> 0 -> (INR n / INR n)%R = 1%R.
Proof. intros Hn. field. apply not_0_INR. exact Hn. Qed.

(** ** Counting rows *)

Lemma count_le (p : sample -> bool) (X : dataset) : count p X <= shape0 X.
Proof. unfold count, shape0. apply filter_length_le. Qed.

Lemma count_nil (p : sample -> bool) : count p [] = 0.
Proof. reflexivity. Qed.

Lemma count_filter_le (p q : sample -> bool) (X : dataset) :
  count p (filter q X) <= count p X.
Proof.
  unfold count. induction X as [|s X IH]; simpl; [lia|].
  destruct (q s); simpl; destruct (p s); simpl; lia.
Qed.

(** ** The guarded entropy terms *)

Lemma np_div_ok (m n : nat) : n <> 0 -> np_div m n = Ok (INR m / INR n)%R.
Proof.
  intros Hn. unfold np_div. destruct (Nat.eqb_spec n 0); [contradiction | reflexivity].
Qed.

Lemma math_log2_ok (x : R) : (0 < x)%R -> math_log2 x = Ok (log2 x).
Proof.
  intros Hx. unfold math_log2. destruct (Rlt_dec 0 x); [reflexivity | contradiction].
Qed.

Lemma ratio_log2_ok (m n : nat) :
  m <> 0 -> n <> 0 ->
  ratio_log2 m n = Ok ((INR m / INR n)%R, log2 (INR m / INR n)).
Proof.
  intros Hm Hn. unfold ratio_log2. rewrite np_div_ok by exact Hn. simpl.
  rewrite math_log2_ok by (apply INR_ratio_pos; assumption). reflexivity.
Qed.

(** A term is computed without a fault exactly when the count and the size
    are both non-zero: the guards of the source are needed. *)
Lemma ratio_log2_defined (m n : nat) :
  (exists pl, ratio_log2 m n = Ok pl) <-> (m <> 0 /\ n <> 0).
Proof.
  split.
  - intros [pl H]. unfold ratio_log2, np_div in H.
    destruct (Nat.eqb_spec n 0) as [->|Hn]; [discriminate|].
    simpl in H. unfold math_log2 in H.
    destruct (Rlt_dec 0 (INR m / INR n)) as [Hpos|]; [|discriminate].
    split; [|exact Hn]. intros ->. simpl in Hpos. unfold Rdiv in Hpos.
    rewrite Rmult_0_l in Hpos. lra.
  - intros [Hm Hn]. eexists. apply ratio_log2_ok; assumption.
Qed.

Lemma categorical_entropy_loop_total (X : dataset) (name : string)
    (values : list (option string)) (entropy : R) :
  exists h, categorical_entropy_loop X name (shape0 X) values entropy = Ok h.
Proof.
  revert entropy. induction values as [|v values IH]; intros entropy; simpl.
  - eexists; reflexivity.
  - destruct (Nat.eqb_spec (count (has_value name v) X) 0) as [Hz|Hnz]; simpl.
    + apply IH.
    + pose proof (count_le (has_value name v) X) as Hle.
      rewrite ratio_log2_ok by lia. simpl. apply IH.
Qed.

Lemma numerical_entropy_total (X : dataset) (name : string) (t : Z) :
  exists h, _numerical_feature_entropy X name t = Ok h.
Proof.
  unfold _numerical_feature_entropy.
  pose proof (count_le (is_less name t) X) as Hl.
  pose proof (count_le (is_more name t) X) as Hm.
  destruct (Nat.eqb_spec (count (is_less name t) X) 0) as [Hl0|Hl0];
    destruct (Nat.eqb_spec (count (is_more name t) X) 0) as [Hm0|Hm0]; simpl.
  - eexists; reflexivity.
  - rewrite ratio_log2_ok by lia. simpl. eexists; reflexivity.
  - rewrite ratio_log2_ok by lia. simpl. eexists; reflexivity.
  - rewrite !ratio_log2_ok by lia. simpl. eexists; reflexivity.
Qed.

(** C9. Both entropy functions return a number on every input, the empty
    subset and every threshold included: no logarithm is taken of a
    non-positive argument and no division by a zero size happens (either
    would be reported instead of a number, and a term is computed exactly
    when its count and the size are non-zero), and the entropy of the
    empty subset is 0. *)
Theorem C9_entropy_total :
  (forall X name, exists h, _categorical_feature_entropy X name = Ok h) /\
  (forall X name t, exists h, _numerical_feature_entropy X name t = Ok h) /\
  (forall m n, (exists pl, ratio_log2 m n = Ok pl) <-> (m <> 0 /\ n <> 0)) /\
  (forall name, _categorical_feature_entropy [] name = Ok 0%R) /\
  (forall name t, _numerical_feature_entropy [] name t = Ok 0%R).
Proof.
  split; [|split; [|split; [|split]]].
  - intros X name. apply categorical_entropy_loop_total.
  - intros X name t. apply numerical_entropy_total.
  - apply ratio_log2_defined.
  - reflexivity.
  - reflexivity.
Qed.

(** ** The gain formula *)

Lemma class_loop_sum (Hf : dataset -> res R) (H : dataset -> R) (X : dataset)
    (classes : list string) (b : R) :
  X <> [] ->
  (forall x, Hf x = Ok (H x)) ->
  class_loop Hf X classes b =
  Ok (b + Rsum (map (fun c => INR (count (has_class c) X) / INR (shape0 X)
                              * H (filter (has_class c) X)) classes))%R.
Proof.
  intros HX HH. revert b. induction classes as [|c classes IH]; intros b; simpl.
  - f_equal. ring.
  - rewrite np_div_ok by (destruct X; [contradiction | discriminate]).
    simpl. rewrite HH. simpl. rewrite IH. f_equal. ring.
Qed.

Lemma categorical_entropy_value (X : dataset) (name : string) :
  _categorical_feature_entropy X name =
  Ok (value_of (_categorical_feature_entropy X name)).
Proof.
  destruct (categorical_entropy_loop_total X name (value_set X name) 0) as [h Hh].
  unfold _categorical_feature_entropy. rewrite Hh. reflexivity.
Qed.

Lemma numerical_entropy_value (X : dataset) (name : string) (t : Z) :
  _numerical_feature_entropy X name t =
  Ok (value_of (_numerical_feature_entropy X name t)).
Proof.
  destruct (numerical_entropy_total X name t) as [h Hh]. rewrite Hh. reflexivity.
Qed.

(** C3. On a non-empty subset the categorical information gain of F is the
    categorical entropy of the subset minus the sum, over the classes of
    [class_names], of (rows of the class / size) times the categorical
    entropy of the rows of the class. *)
Theorem C3_categorical_gain_formula (self : DecisionTree) (X : dataset) (F : string) :
  X <> [] ->
  exists H : dataset -> R,
    (forall x, _categorical_feature_entropy x F = Ok (H x)) /\
    _categorical_information_gain self X F = Ok (spec_gain H (class_names self) X).
Proof.
  intros HX.
  exists (fun x => value_of (_categorical_feature_entropy x F)). split.
  - intros x. apply categorical_entropy_value.
  - unfold _categorical_information_gain, spec_gain.
    rewrite (categorical_entropy_value X F) at 1. simpl.
    rewrite (class_loop_sum _ (fun x => value_of (_categorical_feature_entropy x F)))
      by (try assumption; intros x; apply categorical_entropy_value).
    simpl. f_equal. ring.
Qed.

(** The same formula gives the gain of one threshold of a numerical
    feature. *)
Lemma threshold_gain_formula (self : DecisionTree) (X : dataset) (F : string) (t : Z) :
  X <> [] ->
  threshold_gain self X F t =
  Ok (spec_gain (fun x => value_of (_numerical_feature_entropy x F t))
        (class_names self) X).
Proof.
  intros HX. unfold threshold_gain, spec_gain.
  rewrite (numerical_entropy_value X F t) at 1. simpl.
  rewrite (class_loop_sum _ (fun x => value_of (_numerical_feature_entropy x F t)))
    by (try assumption; intros x; apply numerical_entropy_value).
  simpl. f_equal. ring.
Qed.

(** ** The threshold scan *)

Lemma py_range_In (k t : Z) : In t (py_range k) <-> (0 <= t < k)%Z.
Proof.
  unfold py_range. rewrite in_map_iff. split.
  - intros [i [<- Hi]]. apply in_seq in Hi. lia.
  - intros Ht. exists (Z.to_nat t). split; [lia|]. apply in_seq. lia.
Qed.

Lemma seq_split_below (n start : nat) (t : Z) (pre post : list Z) :
  map Z.of_nat (seq start n) = pre ++ t :: post ->
  forall t', (Z.of_nat start <= t' < t)%Z -> In t' pre.
Proof.
  revert pre start. induction n as [|n IH]; intros pre start H t' Ht'.
  - destruct pre; discriminate.
  - simpl in H. destruct pre as [|p pre]; simpl in H.
    + injection H as <- _. lia.
    + injection H as <- H. destruct (Z.eq_dec t' (Z.of_nat start)) as [->|Hne].
      * left. reflexivity.
      * right. apply (IH pre (S start) H). lia.
Qed.

Lemma py_range_split (k t : Z) (pre post : list Z) :
  py_range k = pre ++ t :: post ->
  forall t', (0 <= t' < t)%Z -> In t' pre.
Proof.
  unfold py_range. intros H t' Ht'. apply (seq_split_below _ _ _ _ _ H). simpl. lia.
Qed.

Lemma py_int_thresholds (m : Q) (t : Z) :
  In t (py_range (py_int m)) <-> spec_threshold m t.
Proof.
  rewrite py_range_In. unfold spec_threshold, py_int. destruct m as [a b]. simpl.
  destruct (Z_lt_le_dec a 0) as [Hneg|Hpos].
  - assert (a / Z.pos b < 0)%Z by (apply Z.div_lt_upper_bound; lia).
    assert (a ÷ Z.pos b <= 0)%Z.
    { replace a with (- (- a))%Z by lia. rewrite Z.quot_opp_l by lia.
      pose proof (Z.quot_pos (- a) (Z.pos b)). lia. }
    lia.
  - rewrite Z.quot_div_nonneg by lia. lia.
Qed.

Lemma col_max_nonempty (X : dataset) (name : string) (m : Q) :
  col_max X name = Some m -> X <> [].
Proof. destruct X; [discriminate | intros _; discriminate]. Qed.

Lemma threshold_gain_value (self : DecisionTree) (X : dataset) (F : string) (t : Z) :
  X <> [] ->
  threshold_gain self X F t = Ok (value_of (threshold_gain self X F t)).
Proof. intros HX. rewrite (threshold_gain_formula self X F t HX). reflexivity. Qed.

(** The scan keeps the first threshold whose gain is strictly above
    everything before it, starting from the pair it is given. *)
Lemma threshold_loop_spec (self : DecisionTree) (X : dataset) (F : string)
    (ts : list Z) (g0 : R) (th0 : option Z) :
  X <> [] ->
  exists g th,
    threshold_loop self X F ts g0 th0 = Ok (g, th) /\
    (g0 <= g)%R /\
    (forall t, In t ts -> (value_of (threshold_gain self X F t) <= g)%R) /\
    ((g = g0 /\ th = th0) \/
     (exists pre t post,
        ts = pre ++ t :: post /\ th = Some t /\
        value_of (threshold_gain self X F t) = g /\ (g0 < g)%R /\
        forall t', In t' pre -> (value_of (threshold_gain self X F t') < g)%R)).
Proof.
  intros HX. revert g0 th0. induction ts as [|t ts IH]; intros g0 th0; simpl.
  - exists g0, th0. split; [reflexivity|]. split; [lra|]. split; [contradiction|].
    left. split; reflexivity.
  - rewrite (threshold_gain_value self X F t HX). simpl.
    set (gt := value_of (threshold_gain self X F t)).
    destruct (Rltb g0 gt) eqn:Hlt.
    + apply Rltb_true_iff in Hlt.
      destruct (IH gt (Some t)) as (g & th & Hrun & Hge & Hall & Hcase).
      exists g, th. split; [exact Hrun|]. split; [lra|]. split.
      * intros t' [<-|Hin]; [exact Hge | apply Hall; exact Hin].
      * right. destruct Hcase as [[-> ->] | (pre & t1 & post & -> & -> & Hv & Hgt & Hpre)].
        -- exists [], t, ts. repeat split; try reflexivity; try assumption.
           intros t' [].
        -- exists (t :: pre), t1, post. repeat split; try reflexivity; try assumption.
           ++ lra.
           ++ intros t' [<-|Hin]; [exact Hgt | apply Hpre; exact Hin].
    + apply Rltb_false_iff in Hlt.
      destruct (IH g0 th0) as (g & th & Hrun & Hge & Hall & Hcase).
      exists g, th. split; [exact Hrun|]. split; [exact Hge|]. split.
      * intros t' [<-|Hin]; [fold gt; lra | apply Hall; exact Hin].
      * destruct Hcase as [[-> ->] | (pre & t1 & post & -> & -> & Hv & Hgt & Hpre)].
        -- left. split; reflexivity.
        -- right. exists (t :: pre), t1, post.
           repeat split; try reflexivity; try assumption.
           intros t' [<-|Hin]; [fold gt; lra | apply Hpre; exact Hin].
Qed.

(** C4, as the code has it.  When the column has a value, the scan
    computes the gain of every integer threshold from 0 through
    floor(max) - 1 and returns a pair [(g, th)] in which [g] is the largest
    of 0 and these gains.  When some gain is strictly positive, [th] is the
    smallest threshold whose gain is [g], the maximum; otherwise [g] is 0
    and there is no threshold. *)
Theorem C4_numerical_gain_scan (self : DecisionTree) (X : dataset) (F : string) (m : Q) :
  col_max X F = Some m ->
  exists g th,
    _numerical_information_gain self X F = Ok (g, th) /\
    (forall t, spec_threshold m t ->
       exists gt, threshold_gain self X F t = Ok gt /\ (gt <= g)%R) /\
    match th with
    | Some t =>
        spec_threshold m t /\ threshold_gain self X F t = Ok g /\ (0 < g)%R /\
        (forall t', (0 <= t' < t)%Z ->
           exists gt, threshold_gain self X F t' = Ok gt /\ (gt < g)%R)
    | None => g = 0%R
    end.
Proof.
  intros Hmax. assert (HX : X <> []) by (eapply col_max_nonempty; eassumption).
  unfold _numerical_information_gain. rewrite Hmax.
  destruct (threshold_loop_spec self X F (py_range (py_int m)) 0%R None HX)
    as (g & th & Hrun & Hge & Hall & Hcase).
  exists g, th. split; [exact Hrun|]. split.
  - intros t Ht. apply py_int_thresholds in Ht.
    exists (value_of (threshold_gain self X F t)). split.
    + apply threshold_gain_value. exact HX.
    + apply Hall. exact Ht.
  - destruct Hcase as [[-> ->] | (pre & t & post & Hsplit & -> & Hv & Hgt & Hpre)].
    + reflexivity.
    + split; [|split; [|split]].
      * apply py_int_thresholds. rewrite Hsplit. apply in_or_app. right. left.
        reflexivity.
      * rewrite <- Hv. apply threshold_gain_value. exact HX.
      * exact Hgt.
      * intros t' Ht'. exists (value_of (threshold_gain self X F t')). split.
        -- apply threshold_gain_value. exact HX.
        -- apply Hpre. apply (py_range_split _ _ _ _ Hsplit). exact Ht'.
Qed.

(** ** The choice of the best feature *)

Lemma better_spec (bg cur : gain_value) :
  better bg cur = true <->
  exists b c, score bg = Some b /\ score cur = Some c /\ (b < c)%R.
Proof.
  split.
  - destruct bg as [z|b| |b tb|]; destruct cur as [z'|c| |c tc|]; simpl;
      try discriminate; intros H; apply Rltb_true_iff in H;
      exists b, c; repeat split; assumption.
  - intros (b & c & Hb & Hc & Hlt).
    destruct bg as [z|b'| |b' tb|]; try discriminate;
      destruct cur as [z'|c'| |c' tc|]; try discriminate;
      simpl in *; injection Hb as ->; injection Hc as ->;
      apply Rltb_true; exact Hlt.
Qed.

Lemma better_false_le (bg cur : gain_value) (b c : R) :
  better bg cur = false -> score bg = Some b -> score cur = Some c -> (c <= b)%R.
Proof.
  intros Hf Hb Hc. destruct (Rle_dec c b) as [Hle|Hnle]; [exact Hle|].
  assert (Ht : better bg cur = true).
  { apply better_spec. exists b, c. repeat split; try assumption. lra. }
  rewrite Ht in Hf. discriminate.
Qed.

Lemma better_no_score (bg cur : gain_value) : score bg = None -> better bg cur = false.
Proof. destruct bg; simpl; try discriminate; reflexivity. Qed.

Lemma best_feature_loop_no_score (self : DecisionTree) (X : dataset)
    (available : list names) (bg0 bg : gain_value) (bf0 bf : option string) :
  score bg0 = None ->
  best_feature_loop self X available bg0 bf0 = Ok (bg, bf) ->
  bg = bg0 /\ bf = bf0.
Proof.
  intros Hs. revert bf0. induction available as [|it rest IH]; intros bf0 H; simpl in H.
  - injection H as <- <-. split; reflexivity.
  - destruct (_information_gain self X it) as [gi|e|]; simpl in H; try discriminate.
    rewrite (better_no_score bg0 gi Hs) in H. apply IH in H. exact H.
Qed.

(** The loop keeps the first feature that reaches the largest score, and
    only features scoring strictly above the score it started from. *)
Lemma best_feature_loop_spec (self : DecisionTree) (X : dataset)
    (available : list names) (bg0 bg : gain_value) (bf0 bf : option string) (b0 : R) :
  score bg0 = Some b0 ->
  best_feature_loop self X available bg0 bf0 = Ok (bg, bf) ->
  exists sb,
    score bg = Some sb /\ (b0 <= sb)%R /\
    (forall it gi si, In it available -> _information_gain self X it = Ok gi ->
                      score gi = Some si -> (si <= sb)%R) /\
    ((bg = bg0 /\ bf = bf0) \/
     (exists pre f post,
        available = pre ++ Name f :: post /\ bf = Some f /\
        _information_gain self X (Name f) = Ok bg /\ (b0 < sb)%R /\
        forall it gi si, In it pre -> _information_gain self X it = Ok gi ->
                         score gi = Some si -> (si < sb)%R)).
Proof.
  revert bg0 bf0 b0. induction available as [|it rest IH]; intros bg0 bf0 b0 Hs H;
    simpl in H.
  - injection H as <- <-. exists b0. split; [exact Hs|]. split; [lra|].
    split; [intros ? ? ? []|]. left. split; reflexivity.
  - destruct (_information_gain self X it) as [gi|e|] eqn:Hgi; simpl in H;
      try discriminate.
    destruct (better bg0 gi) eqn:Hb.
    + apply better_spec in Hb. destruct Hb as (b & c & Hb0 & Hc & Hlt).
      rewrite Hs in Hb0. injection Hb0 as <-.
      destruct (IH _ _ _ Hc H) as (sb & Hsb & Hge & Hall & Hcase).
      assert (Hname : exists f, it = Name f).
      { destruct it as [f|l]; [exists f; reflexivity | discriminate]. }
      destruct Hname as [f ->].
      exists sb. split; [exact Hsb|]. split; [lra|]. split.
      * intros it' gi' si' [<-|Hin] Hg' Hs'.
        -- rewrite Hgi in Hg'. injection Hg' as <-. rewrite Hc in Hs'.
           injection Hs' as <-. exact Hge.
        -- eapply Hall; eassumption.
      * right.
        destruct Hcase as [[-> ->] | (pre & f1 & post & -> & -> & Hg1 & Hgt & Hpre)].
        -- exists [], f, rest. rewrite Hc in Hsb. injection Hsb as <-.
           repeat split; try reflexivity; try assumption. intros ? ? ? [].
        -- exists (Name f :: pre), f1, post.
           repeat split; try reflexivity; try assumption; try lra.
           intros it' gi' si' [<-|Hin] Hg' Hs'.
           ++ rewrite Hgi in Hg'. injection Hg' as <-. rewrite Hc in Hs'.
              injection Hs' as <-. exact Hgt.
           ++ eapply Hpre; eassumption.
    + destruct (IH _ _ _ Hs H) as (sb & Hsb & Hge & Hall & Hcase).
      exists sb. split; [exact Hsb|]. split; [exact Hge|]. split.
      * intros it' gi' si' [<-|Hin] Hg' Hs'.
        -- rewrite Hgi in Hg'. injection Hg' as <-.
           pose proof (better_false_le _ _ _ _ Hb Hs Hs'). lra.
        -- eapply Hall; eassumption.
      * destruct Hcase as [[-> ->] | (pre & f1 & post & -> & -> & Hg1 & Hgt & Hpre)].
        -- left. split; reflexivity.
        -- right. exists (it :: pre), f1, post.
           repeat split; try reflexivity; try assumption.
           intros it' gi' si' [<-|Hin] Hg' Hs'.
           ++ rewrite Hgi in Hg'. injection Hg' as <-.
              pose proof (better_false_le _ _ _ _ Hb Hs Hs'). lra.
           ++ eapply Hpre; eassumption.
Qed.

(** What [select_best] returns: nothing, with the threshold untouched, or
    a feature of the list together with its own gain, which scores strictly
    above the threshold. *)
Lemma select_best_cases (self : DecisionTree) (X : dataset)
    (available : list names) (bg : gain_value) (bf : option string) :
  select_best self X available = Ok (bg, bf) ->
  (bf = None /\ bg = _min_impurity_decrease self) \/
  (exists f pre post s0 sg,
     bf = Some f /\ available = pre ++ Name f :: post /\
     _information_gain self X (Name f) = Ok bg /\
     score (_min_impurity_decrease self) = Some s0 /\ score bg = Some sg /\
     (s0 < sg)%R /\
     (forall it gi si, In it pre -> _information_gain self X it = Ok gi ->
                       score gi = Some si -> (si < sg)%R) /\
     (forall it gi si, In it post -> _information_gain self X it = Ok gi ->
                       score gi = Some si -> (si <= sg)%R)).
Proof.
  unfold select_best. intros H.
  destruct (score (_min_impurity_decrease self)) as [s0|] eqn:Hs.
  - destruct (best_feature_loop_spec _ _ _ _ _ _ _ _ Hs H) as (sb & Hsb & Hge & Hall & Hcase).
    destruct Hcase as [[-> ->] | (pre & f & post & -> & -> & Hg & Hgt & Hpre)].
    + left. split; reflexivity.
    + right. exists f, pre, post, s0, sb.
      repeat split; try reflexivity; try assumption.
      intros it gi si Hin. apply Hall. apply in_or_app. right. right. exact Hin.
  - apply (best_feature_loop_no_score _ _ _ _ _ _ _ Hs) in H. destruct H as [-> ->].
    left. split; reflexivity.
Qed.

(** C6. The search for the best feature starts from the configured
    [min_impurity_decrease] (0.05 by default) with no feature selected; a
    candidate replaces the current best exactly when both are scores and
    the candidate's score - the scalar of a categorical gain, the first
    component of a numerical pair - is strictly greater.  So the feature
    returned is the first of the list to reach the largest score: every
    earlier feature scores strictly less, every later one at most as
    much; and when none is returned, no feature beat the threshold. *)
Theorem C6_best_feature_selection (self : DecisionTree) (X : dataset)
    (available : list names) (g : gain_value) (bf : option string) :
  _min_impurity_decrease default_tree = GFloat (5 / 100) /\
  select_best self X available =
    best_feature_loop self X available (_min_impurity_decrease self) None /\
  (forall bg cur, better bg cur = true <->
     exists b c, score bg = Some b /\ score cur = Some c /\ (b < c)%R) /\
  (select_best self X available = Ok (g, bf) ->
   match bf with
   | None =>
       g = _min_impurity_decrease self /\
       forall it gi, In it available -> _information_gain self X it = Ok gi ->
                     better (_min_impurity_decrease self) gi = false
   | Some f =>
       exists pre post s0 sg,
         available = pre ++ Name f :: post /\
         _information_gain self X (Name f) = Ok g /\
         score (_min_impurity_decrease self) = Some s0 /\ score g = Some sg /\
         (s0 < sg)%R /\
         (forall it gi si, In it pre -> _information_gain self X it = Ok gi ->
                           score gi = Some si -> (si < sg)%R) /\
         (forall it gi si, In it post -> _information_gain self X it = Ok gi ->
                           score gi = Some si -> (si <= sg)%R)
   end).
Proof.
  split; [reflexivity|]. split; [reflexivity|]. split; [apply better_spec|].
  intros H. destruct bf as [f|].
  - destruct (select_best_cases _ _ _ _ _ H)
      as [[Hn _] | (f' & pre & post & s0 & sg & Hf & Hrest)]; [discriminate|].
    injection Hf as <-. exists pre, post, s0, sg. exact Hrest.
  - destruct (select_best_cases _ _ _ _ _ H)
      as [[_ ->] | (f' & pre & post & s0 & sg & Hf & _)]; [|discriminate].
    split; [reflexivity|]. intros it gi Hin Hgi.
    unfold select_best in H.
    destruct (score (_min_impurity_decrease self)) as [s0|] eqn:Hs.
    + destruct (best_feature_loop_spec _ _ _ _ _ _ _ _ Hs H) as (sb & Hsb & _ & Hall & _).
      rewrite Hs in Hsb. injection Hsb as <-.
      destruct (better (_min_impurity_decrease self) gi) eqn:Hb; [|reflexivity].
      apply better_spec in Hb. destruct Hb as (b & c & Hb0 & Hc & Hlt).
      rewrite Hs in Hb0. injection Hb0 as <-.
      pose proof (Hall _ _ _ Hin Hgi Hc). lra.
    + apply better_no_score. exact Hs.
Qed.

(** ** Reasoning about the node builder *)

Lemma childs_loop_rel
    (build : dataset -> edge -> list names -> registry -> res (Node * registry))
    (R : dataset -> edge -> list names -> registry -> Node -> registry -> Prop)
    (parts : list (dataset * edge)) (available : list names) :
  (forall x fv a s c s', build x fv a s = Ok (c, s') -> R x fv a s c s') ->
  forall sc childs sc',
    childs_loop build parts available sc = Ok (childs, sc') ->
    childs_rel R parts available sc childs sc'.
Proof.
  intros HR. induction parts as [|[x fv] rest IH]; intros sc childs sc' H; simpl in H.
  - injection H as <- <-. constructor.
  - destruct (build x fv available sc) as [[child sc1]| |] eqn:Hb; simpl in H;
      try discriminate.
    destruct (childs_loop build rest available sc1) as [[cs sc2]| |] eqn:Hl;
      simpl in H; try discriminate.
    injection H as <- <-. econstructor.
    + apply HR. exact Hb.
    + apply IH. exact Hl.
Qed.

(** A proof rule for [_generate_node]: a property [Q] of the calls whose
    arguments satisfy [I] holds once it is shown for a node without
    children and for a node whose children satisfy it. *)
Lemma generate_node_rule (self : DecisionTree)
    (I : dataset -> list names -> registry -> Prop)
    (Q : dataset -> edge -> list names -> registry -> Node -> registry -> Prop) :
  (forall X fv available sc bg bf d l,
     I X available sc ->
     select_best self X available = Ok (bg, bf) ->
     distribution_loop X (class_names self) [] None (-1)%Z = (d, l) ->
     truthy bf = false ->
     Q X fv available sc (mkNode bf fv (shape0 X) d l []) sc) ->
  (forall X fv available sc bg best d l available1 sc1,
     I X available sc ->
     select_best self X available = Ok (bg, Some best) ->
     distribution_loop X (class_names self) [] None (-1)%Z = (d, l) ->
     truthy (Some best) = true ->
     update_eligibility self best available sc = Ok (available1, sc1) ->
     (Z.of_nat (shape0 X) < _min_samples_split self)%Z ->
     Q X fv available sc (mkNode (Some best) fv (shape0 X) d l []) sc1) ->
  (forall X fv available sc bg best d l available1 sc1 parts childs sc2,
     I X available sc ->
     select_best self X available = Ok (bg, Some best) ->
     distribution_loop X (class_names self) [] None (-1)%Z = (d, l) ->
     truthy (Some best) = true ->
     update_eligibility self best available sc = Ok (available1, sc1) ->
     (_min_samples_split self <= Z.of_nat (shape0 X))%Z ->
     _split self X best bg = Ok parts ->
     childs_rel (fun x fv' a s c s' =>
                   (exists fuel', _generate_node self fuel' x fv' a s = Ok (c, s')) /\
                   (I x a s -> Q x fv' a s c s'))
       parts available1 sc1 childs sc2 ->
     Q X fv available sc (mkNode (Some best) fv (shape0 X) d l childs) sc2) ->
  forall fuel X fv available sc node sc',
    I X available sc ->
    _generate_node self fuel X fv available sc = Ok (node, sc') ->
    Q X fv available sc node sc'.
Proof.
  intros Hleaf Hsmall Hsplit. induction fuel as [|fuel IH];
    intros X fv available sc node sc' HI H; [discriminate|].
  simpl in H.
  destruct (select_best self X available) as [[bg bf]| |] eqn:Hsel; simpl in H;
    try discriminate.
  destruct (distribution_loop X (class_names self) [] None (-1)%Z) as [d l] eqn:Hd.
  destruct bf as [best|].
  - destruct (truthy (Some best)) eqn:Ht.
    + destruct (update_eligibility self best available sc) as [[available1 sc1]| |]
        eqn:Hup; simpl in H; try discriminate.
      destruct (Z.leb_spec (_min_samples_split self) (Z.of_nat (shape0 X))) as [Hm|Hm].
      * destruct (_split self X best bg) as [parts| |] eqn:Hsp; simpl in H;
          try discriminate.
        destruct (childs_loop (_generate_node self fuel) parts available1 sc1)
          as [[childs sc2]| |] eqn:Hl; simpl in H; try discriminate.
        injection H as <- <-.
        eapply Hsplit; try eassumption.
        eapply childs_loop_rel; [|exact Hl].
        intros x fv' a s c s' Hb. split; [exists fuel; exact Hb|].
        intros Hi. eapply IH; eassumption.
      * simpl in H. injection H as <- <-. eapply Hsmall; eassumption.
    + simpl in H. injection H as <- <-. eapply Hleaf; eassumption.
  - simpl in H. injection H as <- <-. eapply Hleaf; try eassumption. reflexivity.
Qed.

Lemma childs_rel_Forall
    (R : dataset -> edge -> list names -> registry -> Node -> registry -> Prop)
    (P : Node -> Prop) (parts : list (dataset * edge)) (available : list names)
    (sc : registry) (childs : list Node) (sc' : registry) :
  childs_rel R parts available sc childs sc' ->
  (forall x fv s c s', In (x, fv) parts -> R x fv available s c s' -> P c) ->
  Forall P childs.
Proof.
  intros H. induction H as [|x fv rest available sc child sc1 childs sc2 HR Hrest IH];
    intros HP.
  - constructor.
  - constructor.
    + eapply HP; [left; reflexivity | exact HR].
    + apply IH. intros x' fv' s c s' Hin. apply HP. right. exact Hin.
Qed.

Lemma nodes_mkNode (sf : option string) (fv : edge) (n : nat) (d : list nat)
    (l : option string) (cs : list Node) (P : Node -> Prop) :
  P (mkNode sf fv n d l cs) ->
  Forall (fun c => Forall P (nodes c)) cs ->
  Forall P (nodes (mkNode sf fv n d l cs)).
Proof.
  intros Hn Hcs. simpl. constructor; [exact Hn|].
  apply Forall_flat_map. exact Hcs.
Qed.

(** Every part the splitter returns is made of rows of the subset. *)
Lemma split_rows (self : DecisionTree) (X : dataset) (best : string)
    (bg : gain_value) (parts : list (dataset * edge)) :
  _split self X best bg = Ok parts ->
  forall x fv, In (x, fv) parts -> incl x X.
Proof.
  unfold _split. intros H x fv Hin.
  destruct (mem best (categorical_feature_names self)).
  - injection H as <-. unfold _categorical_split in Hin.
    apply in_map_iff in Hin. destruct Hin as [v [Hv _]]. injection Hv as <- _.
    intros s Hs. apply filter_In in Hs. apply Hs.
  - destruct (mem best (numerical_feature_names self)); [|discriminate].
    destruct bg as [| | |g [t|]|]; try discriminate. injection H as <-.
    destruct Hin as [Hv|[Hv|[]]]; injection Hv as <- _; intros s Hs;
      apply filter_In in Hs; apply Hs.
Qed.

(** ** Class counts *)

Lemma distribution_loop_fst (X : dataset) (classes : list string)
    (acc : list nat) (lab : option string) (mx : Z) :
  fst (distribution_loop X classes acc lab mx) =
  acc ++ map (fun c => count (has_class c) X) classes.
Proof.
  revert acc lab mx. induction classes as [|c classes IH]; intros acc lab mx; simpl.
  - rewrite app_nil_r. reflexivity.
  - destruct (mx <? Z.of_nat (count (has_class c) X))%Z; rewrite IH;
      rewrite <- app_assoc; reflexivity.
Qed.

Lemma indicator_sum (a : string) (classes : list string) :
  NoDup classes -> In a classes ->
  list_sum (map (fun c => if String.eqb a c then 1 else 0) classes) = 1.
Proof.
  intros Hnd. induction Hnd as [|c classes Hnotin Hnd IH]; intros Hin; [contradiction|].
  simpl. destruct (String.eqb_spec a c) as [->|Hne].
  - assert (Hz : list_sum (map (fun c0 => if String.eqb c c0 then 1 else 0) classes) = 0).
    { clear IH Hin Hnd. induction classes as [|d classes IHc]; [reflexivity|].
      simpl. destruct (String.eqb_spec c d) as [->|_].
      - exfalso. apply Hnotin. left. reflexivity.
      - apply IHc. intros Hc. apply Hnotin. right. exact Hc. }
    rewrite Hz. reflexivity.
  - destruct Hin as [->|Hin]; [contradiction|]. rewrite IH by exact Hin. reflexivity.
Qed.

Lemma count_cons_class (c : string) (s : sample) (X : dataset) :
  count (has_class c) (s :: X) =
  (if String.eqb (target s) c then 1 else 0) + count (has_class c) X.
Proof.
  unfold count, has_class. simpl. destruct (String.eqb (target s) c); reflexivity.
Qed.

Lemma class_counts_total (X : dataset) (classes : list string) :
  NoDup classes ->
  (forall s, In s X -> In (target s) classes) ->
  list_sum (map (fun c => count (has_class c) X) classes) = shape0 X.
Proof.
  intros Hnd. induction X as [|s X IH]; intros Hcov.
  - clear. induction classes as [|c classes IHc]; [reflexivity | exact IHc].
  - assert (Hs : In (target s) classes) by (apply Hcov; left; reflexivity).
    assert (HX : forall s0, In s0 X -> In (target s0) classes)
      by (intros s0 H0; apply Hcov; right; exact H0).
    specialize (IH HX).
    pose proof (indicator_sum (target s) classes Hnd Hs) as Hone.
    assert (Hadd : list_sum (map (fun c => count (has_class c) (s :: X)) classes) =
                   list_sum (map (fun c => if String.eqb (target s) c then 1 else 0)
                               classes)
                   + list_sum (map (fun c => count (has_class c) X) classes)).
    { clear. induction classes as [|c classes IHc]; [reflexivity|].
      simpl map. simpl list_sum. rewrite IHc. rewrite count_cons_class. lia. }
    rewrite Hadd, Hone, IH. reflexivity.
Qed.

Lemma insert_sorted_perm (c : string) (l : list string) :
  Permutation (insert_sorted c l) (c :: l).
Proof.
  induction l as [|d l IH]; simpl; [reflexivity|].
  destruct (String.leb c d); [reflexivity|].
  rewrite IH. apply perm_swap.
Qed.

Lemma sorted_perm (l : list string) : Permutation (sorted l) l.
Proof.
  induction l as [|c l IH]; simpl; [reflexivity|].
  rewrite insert_sorted_perm. constructor. exact IH.
Qed.

Lemma sorted_set_NoDup (l : list string) : NoDup (sorted_set l).
Proof.
  unfold sorted_set. eapply Permutation_NoDup.
  - symmetry. apply sorted_perm.
  - apply NoDup_nodup.
Qed.

Lemma sorted_set_In (l : list string) (c : string) : In c l -> In c (sorted_set l).
Proof.
  intros H. unfold sorted_set. eapply Permutation_in.
  - symmetry. apply sorted_perm.
  - apply nodup_In. exact H.
Qed.

Lemma distribution_sum (X : dataset) (classes : list string) (d : list nat)
    (l : option string) :
  NoDup classes ->
  (forall s, In s X -> In (target s) classes) ->
  distribution_loop X classes [] None (-1)%Z = (d, l) ->
  list_sum d = shape0 X.
Proof.
  intros Hnd Hcov H.
  pose proof (distribution_loop_fst X classes [] None (-1)%Z) as Hf.
  rewrite H in Hf. simpl in Hf. subst d. apply class_counts_total; assumption.
Qed.

(** In every node built from rows whose labels are all in [class_names],
    the class counts add up to the number of rows. *)
Lemma generate_node_sums (self : DecisionTree) :
  NoDup (class_names self) ->
  forall fuel X fv available sc node sc',
    (forall s, In s X -> In (target s) (class_names self)) ->
    _generate_node self fuel X fv available sc = Ok (node, sc') ->
    Forall (fun n => list_sum (distribution n) = samples n) (nodes node) /\
    samples node = shape0 X.
Proof.
  intros Hnd fuel X fv available sc node sc' HI H.
  revert fuel X fv available sc node sc' HI H.
  apply (generate_node_rule self
           (fun X _ _ => forall s, In s X -> In (target s) (class_names self))
           (fun X _ _ _ node _ =>
              Forall (fun n => list_sum (distribution n) = samples n) (nodes node) /\
              samples node = shape0 X)).
  - intros X fv available sc bg bf d l HI _ Hd _. split; [|reflexivity].
    apply nodes_mkNode; [|constructor]. simpl. eapply distribution_sum; eassumption.
  - intros X fv available sc bg best d l a1 sc1 HI _ Hd _ _ _. split; [|reflexivity].
    apply nodes_mkNode; [|constructor]. simpl. eapply distribution_sum; eassumption.
  - intros X fv available sc bg best d l a1 sc1 parts childs sc2 HI _ Hd _ _ _ Hsp Hrel.
    split; [|reflexivity]. apply nodes_mkNode.
    + simpl. eapply distribution_sum; eassumption.
    + eapply childs_rel_Forall; [exact Hrel|].
      intros x fv' s c s' Hin [_ HR]. apply HR.
      intros s0 Hs0. apply HI. eapply split_rows; eassumption.
Qed.

(** C5. In every node of the fitted tree the entries of the distribution
    add up to the samples count, and the samples count of the root is the
    number of rows of the training input. *)
Theorem C5_distribution_sums (fuel : nat) (self : DecisionTree)
    (X_columns : list string) (XY : dataset) (categorical numerical : list string)
    (special_cases : registry) (self1 : DecisionTree) (tree : Node)
    (special_cases1 : registry) :
  fit fuel self X_columns XY categorical numerical special_cases
    = Ok (self1, tree, special_cases1) ->
  Forall (fun n => list_sum (distribution n) = samples n) (nodes tree) /\
  samples tree = List.length XY.
Proof.
  unfold fit. intros H.
  destruct (remove_dependents (map snd special_cases) _) as [available| |];
    simpl in H; try discriminate.
  match type of H with
  | context [_generate_node ?s _ _ _ _ _] => set (self' := s) in *
  end.
  destruct (_generate_node self' fuel XY NoEdge available special_cases)
    as [[node sc']| |] eqn:Hg; simpl in H; try discriminate.
  injection H as _ <- _.
  eapply (generate_node_sums self'); [| |exact Hg].
  - apply sorted_set_NoDup.
  - intros s Hs. apply sorted_set_In. apply in_map. exact Hs.
Qed.

(** ** The registry *)

Lemma mem_app (k : string) (l1 l2 : list string) :
  mem k (l1 ++ l2) = mem k l1 || mem k l2.
Proof. unfold mem. apply existsb_app. Qed.

Lemma mem_In (k : string) (l : list string) : mem k l = true <-> In k l.
Proof.
  unfold mem. rewrite existsb_exists. split.
  - intros [x [Hin Heq]]. apply String.eqb_eq in Heq. subst. exact Hin.
  - intros Hin. exists k. split; [exact Hin | apply String.eqb_refl].
Qed.

Lemma remaining_nil (sc : registry) : remaining [] sc = sc.
Proof.
  unfold remaining. induction sc as [|kv sc IH]; [reflexivity|].
  simpl. f_equal. exact IH.
Qed.

Lemma remaining_app (u1 u2 : list string) (sc : registry) :
  remaining (u1 ++ u2) sc = remaining u2 (remaining u1 sc).
Proof.
  unfold remaining. induction sc as [|kv sc IH]; simpl; [reflexivity|].
  rewrite mem_app. destruct (mem (fst kv) u1); simpl.
  - exact IH.
  - destruct (mem (fst kv) u2); simpl; rewrite IH; reflexivity.
Qed.

Lemma remaining_one (best : string) (sc : registry) :
  remaining [best] sc = dict_pop best sc.
Proof.
  unfold remaining, dict_pop. apply filter_ext. intros kv. simpl.
  rewrite orb_false_r. reflexivity.
Qed.

Lemma dict_pop_absent (k : string) (sc : registry) :
  dict_get k sc = None -> dict_pop k sc = sc.
Proof.
  induction sc as [|[k' v] sc IH]; simpl; [reflexivity|].
  destruct (String.eqb k' k); [discriminate|]. intros H. simpl.
  rewrite IH by exact H. reflexivity.
Qed.

(** The registry after the choice of [best] is the registry without the
    key [best], whether or not it was there. *)
Lemma update_eligibility_registry (self : DecisionTree) (best : string)
    (available available1 : list names) (sc sc1 : registry) :
  update_eligibility self best available sc = Ok (available1, sc1) ->
  sc1 = dict_pop best sc.
Proof.
  unfold update_eligibility. intros H.
  destruct (if mem best (categorical_feature_names self)
            then list_remove (Name best) available else Ok available)
    as [a1| |]; simpl in H; try discriminate.
  destruct sc as [|kv sc]; [injection H as _ <-; reflexivity|].
  destruct (dict_get best (kv :: sc)) as [d|] eqn:Hget; injection H as _ <-.
  - reflexivity.
  - symmetry. apply dict_pop_absent. exact Hget.
Qed.

Lemma consumed_mkNode (sf : option string) (fv : edge) (n : nat) (d : list nat)
    (l : option string) (cs : list Node) :
  consumed (mkNode sf fv n d l cs) =
  (if truthy sf then match sf with Some f => [f] | None => [] end else [])
  ++ flat_map consumed cs.
Proof.
  unfold consumed. simpl. rewrite filter_app. f_equal.
  - destruct sf as [f|]; simpl; [|reflexivity]. destruct (String.eqb f ""); reflexivity.
  - induction cs as [|c cs IH]; simpl; [reflexivity|].
    rewrite filter_app. rewrite IH. reflexivity.
Qed.

Lemma childs_rel_remaining (self : DecisionTree) (parts : list (dataset * edge))
    (available : list names)
    (sc : registry) (childs : list Node) (sc' : registry) :
  childs_rel (fun x fv a s c s' =>
                (exists fuel', _generate_node self fuel' x fv a s = Ok (c, s')) /\
                (True -> s' = remaining (consumed c) s))
    parts available sc childs sc' ->
  sc' = remaining (flat_map consumed childs) sc.
Proof.
  intros H. induction H as [|x fv rest available sc child sc1 childs sc2 HR Hrest IH].
  - simpl. symmetry. apply remaining_nil.
  - simpl. rewrite remaining_app. rewrite <- (proj2 HR I). exact IH.
Qed.

(** The registry a call leaves behind is the one it received without the
    keys that were chosen as splits below it. *)
Lemma generate_node_registry (self : DecisionTree) (fuel : nat) (X : dataset)
    (fv : edge) (available : list names) (sc : registry) (node : Node)
    (sc' : registry) :
  _generate_node self fuel X fv available sc = Ok (node, sc') ->
  sc' = remaining (consumed node) sc.
Proof.
  intros H.
  refine (generate_node_rule self (fun _ _ _ => True)
            (fun _ _ _ sc node sc' => sc' = remaining (consumed node) sc)
            _ _ _ fuel X fv available sc node sc' I H); clear.
  - intros X fv available sc bg bf d l _ _ _ Ht.
    rewrite consumed_mkNode, Ht. simpl. symmetry. apply remaining_nil.
  - intros X fv available sc bg best d l a1 sc1 _ _ _ Ht Hup _.
    rewrite consumed_mkNode, Ht. simpl. rewrite remaining_one.
    eapply update_eligibility_registry. exact Hup.
  - intros X fv available sc bg best d l a1 sc1 parts childs sc2 _ _ _ Ht Hup _ _ Hrel.
    rewrite consumed_mkNode, Ht. rewrite remaining_app, remaining_one.
    rewrite <- (update_eligibility_registry _ _ _ _ _ _ Hup).
    apply (childs_rel_remaining _ _ _ _ _ _ Hrel).
Qed.

(** C2, as the code has it.  [fit] hands the mapping of the caller itself
    to the node builder, which consumes it: when [fit] returns, the mapping
    holds, in their order, exactly the pairs whose key was not chosen as a
    split feature by a node of the tree; the pairs whose key was chosen are
    gone. *)
Theorem C2_registry_consumed (fuel : nat) (self : DecisionTree)
    (X_columns : list string) (XY : dataset) (categorical numerical : list string)
    (special_cases : registry) (self1 : DecisionTree) (tree : Node)
    (special_cases1 : registry) :
  fit fuel self X_columns XY categorical numerical special_cases
    = Ok (self1, tree, special_cases1) ->
  special_cases1 = remaining (consumed tree) special_cases /\
  (forall k v, In (k, v) special_cases1 -> In (k, v) special_cases) /\
  (forall k, In k (consumed tree) -> dict_get k special_cases1 = None).
Proof.
  unfold fit. intros H.
  destruct (remove_dependents (map snd special_cases) _) as [available| |];
    simpl in H; try discriminate.
  match type of H with
  | context [_generate_node ?s _ _ _ _ _] => set (self' := s) in *
  end.
  destruct (_generate_node self' fuel XY NoEdge available special_cases)
    as [[node sc']| |] eqn:Hg; simpl in H; try discriminate.
  injection H as _ <- <-.
  apply generate_node_registry in Hg. subst sc'. split; [reflexivity|]. split.
  - intros k v Hin. unfold remaining in Hin. apply filter_In in Hin. apply Hin.
  - intros k Hk. apply mem_In in Hk. unfold remaining.
    induction special_cases as [|[k' v] sc IH]; simpl; [reflexivity|].
    destruct (mem k' (consumed node)) eqn:Hm; simpl; [exact IH|].
    destruct (String.eqb_spec k' k) as [->|_]; [congruence | exact IH].
Qed.

(** ** The sample data, evaluated *)

Lemma ratio_log2_same (n : nat) : n <> 0 -> ratio_log2 n n = Ok (1%R, 0%R).
Proof.
  intros Hn. rewrite ratio_log2_ok by assumption.
  rewrite INR_ratio_same by assumption. rewrite log2_1. reflexivity.
Qed.

Lemma ratio_log2_1_2 : ratio_log2 1 2 = Ok ((/ 2)%R, (- 1)%R).
Proof.
  rewrite ratio_log2_ok by lia.
  replace (INR 1 / INR 2)%R with (/ 2)%R by (simpl; lra).
  rewrite log2_half. reflexivity.
Qed.

Lemma np_div_eval (m n : nat) (r : R) :
  n <> 0 -> (INR m / INR n)%R = r -> np_div m n = Ok r.
Proof. intros Hn <-. apply np_div_ok. exact Hn. Qed.

Section Samples.

#[local] Arguments ratio_log2 : simpl never.
#[local] Arguments np_div : simpl never.
#[local] Arguments Rltb : simpl never.
#[local] Arguments _information_gain : simpl never.

(** One step on the real-number side of an evaluation: an entropy term, a
    class ratio or a strict comparison of two numerals. *)
Ltac real_step :=
  first
    [ rewrite ratio_log2_1_2
    | rewrite ratio_log2_same by lia
    | match goal with
      | |- context [np_div ?m ?n] =>
          first [ rewrite (np_div_eval m n 0%R) by (try lia; simpl; lra)
                | rewrite (np_div_eval m n 1%R) by (try lia; simpl; lra)
                | rewrite (np_div_eval m n (/ 2)%R) by (try lia; simpl; lra) ]
      | |- context [Rltb ?a ?b] =>
          first [ rewrite (Rltb_true a b) by lra | rewrite (Rltb_false a b) by lra ]
      end ].

Ltac evaluate := cbn; repeat (real_step; cbn).

Ltac gain_eval :=
  unfold _information_gain, _categorical_information_gain,
    _categorical_feature_entropy, _numerical_information_gain, threshold_gain,
    _numerical_feature_entropy;
  evaluate; repeat f_equal; try lra.

Lemma gain_two_rows_a :
  _information_gain abc_tree two_rows (Name "a") = Ok (GFloat 1).
Proof. gain_eval. Qed.

Lemma gain_two_rows_c :
  _information_gain abc_tree two_rows (Name "c") = Ok (GFloat 0).
Proof. gain_eval. Qed.

Lemma gain_row_x (f : string) :
  In f ["b"; "c"]%string ->
  _information_gain abc_tree [row_x] (Name f) = Ok (GFloat 0).
Proof. intros [<-|[<-|[]]]; gain_eval. Qed.

Lemma gain_row_y (f : string) :
  In f ["b"; "c"]%string ->
  _information_gain abc_tree [row_y] (Name f) = Ok (GFloat 0).
Proof. intros [<-|[<-|[]]]; gain_eval. Qed.

Lemma gain3_two_rows_a :
  _information_gain abc_tree3 two_rows (Name "a") = Ok (GFloat 1).
Proof. gain_eval. Qed.

Lemma gain3_two_rows_c :
  _information_gain abc_tree3 two_rows (Name "c") = Ok (GFloat 0).
Proof. gain_eval. Qed.

Lemma gain_with_missing :
  _information_gain a_tree with_missing (Name "a") = Ok (GFloat (/ 2)).
Proof. gain_eval. Qed.

Lemma gain_one_row :
  _numerical_information_gain n_tree one_row "n" = Ok (0%R, None).
Proof.
  unfold _numerical_information_gain.
  assert (Hm : col_max one_row "n" = Some 1%Q) by reflexivity. rewrite Hm.
  assert (Hr : py_range (py_int 1%Q) = [0%Z]) by reflexivity. rewrite Hr.
  unfold threshold_loop, threshold_gain, _numerical_feature_entropy.
  evaluate. reflexivity.
Qed.

Ltac gains :=
  first
    [ rewrite gain_two_rows_a | rewrite gain_two_rows_c
    | rewrite gain_row_x by (simpl; tauto) | rewrite gain_row_y by (simpl; tauto)
    | rewrite gain3_two_rows_a | rewrite gain3_two_rows_c
    | rewrite gain_with_missing
    | match goal with
      | |- context [Rltb ?a ?b] =>
          first [ rewrite (Rltb_true a b) by lra | rewrite (Rltb_false a b) by lra ]
      end ].

Ltac run := cbn; repeat (gains; cbn).

Lemma select_best_two_rows :
  select_best abc_tree two_rows [Name "a"; Name "c"] = Ok (GFloat 1, Some "a"%string).
Proof. unfold select_best. run. reflexivity. Qed.

Lemma select_best3_two_rows :
  select_best abc_tree3 two_rows [Name "a"; Name "c"] = Ok (GFloat 1, Some "a"%string).
Proof. unfold select_best. run. reflexivity. Qed.

Lemma fit_two_rows :
  fit 2 default_tree abc two_rows abc [] b_after_a = Ok (abc_tree, two_rows_tree, []).
Proof. unfold fit. cbn. fold abc_tree. run. reflexivity. Qed.

Lemma fit_two_rows_list :
  fit 2 default_tree abc two_rows abc [] bc_after_a = Raise ValueError.
Proof. unfold fit. cbn. fold abc_tree. run. reflexivity. Qed.

Lemma fit_with_missing :
  fit 2 default_tree ["a"]%string with_missing ["a"]%string [] []
  = Ok (a_tree, with_missing_tree, []).
Proof. unfold fit. cbn. fold a_tree. run. reflexivity. Qed.

End Samples.

(** ** A split that is decided but not carried out *)

Lemma names_eqb_eq (a b : names) : names_eqb a b = true <-> a = b.
Proof.
  destruct a as [x|x], b as [y|y]; simpl.
  - rewrite String.eqb_eq. split; [intros ->; reflexivity | intros H; injection H; auto].
  - split; discriminate.
  - split; discriminate.
  - destruct (list_eq_dec string_dec x y) as [->|Hne].
    + split; reflexivity.
    + split; [discriminate | intros H; injection H; intros; contradiction].
Qed.

Lemma list_remove_In (x : names) (l : list names) :
  In x l -> exists l', list_remove x l = Ok l'.
Proof.
  induction l as [|y l IH]; intros Hin; [contradiction|]. simpl.
  destruct (names_eqb y x) eqn:He; [eexists; reflexivity|].
  destruct Hin as [->|Hin].
  - assert (names_eqb x x = true) by (apply names_eqb_eq; reflexivity). congruence.
  - destruct (IH Hin) as [l' ->]. simpl. eexists; reflexivity.
Qed.

Lemma update_eligibility_In (self : DecisionTree) (best : string)
    (available : list names) (sc : registry) :
  In (Name best) available ->
  exists available1 sc1,
    update_eligibility self best available sc = Ok (available1, sc1).
Proof.
  intros Hin. unfold update_eligibility.
  assert (Hrm : exists a1,
             (if mem best (categorical_feature_names self)
              then list_remove (Name best) available else Ok available) = Ok a1).
  { destruct (mem best (categorical_feature_names self)).
    - apply list_remove_In. exact Hin.
    - eexists; reflexivity. }
  destruct Hrm as [a1 ->]. simpl.
  destruct sc as [|kv sc]; [do 2 eexists; reflexivity|].
  destruct (dict_get best (kv :: sc)); do 2 eexists; reflexivity.
Qed.

Lemma select_best_In (self : DecisionTree) (X : dataset) (available : list names)
    (bg : gain_value) (f : string) :
  select_best self X available = Ok (bg, Some f) -> In (Name f) available.
Proof.
  intros H. destruct (select_best_cases _ _ _ _ _ H)
    as [[Hn _] | (f' & pre & post & s0 & sg & Hf & -> & _)]; [discriminate|].
  injection Hf as <-. apply in_or_app. right. left. reflexivity.
Qed.

(** C8. When a feature clears the gain threshold but the subset has fewer
    rows than [min_samples_split], the call returns a node whose
    [split_feature] is the winning feature and whose list of children is
    empty; nothing is split and no recursive call is made: one unit of
    fuel gives the same node as any larger amount. *)
Theorem C8_split_without_children (self : DecisionTree) (fuel : nat) (X : dataset)
    (fv : edge) (available : list names) (sc : registry) (bg : gain_value)
    (f : string) :
  select_best self X available = Ok (bg, Some f) ->
  (Z.of_nat (shape0 X) < _min_samples_split self)%Z ->
  exists node sc',
    _generate_node self (S fuel) X fv available sc = Ok (node, sc') /\
    _generate_node self 1 X fv available sc = Ok (node, sc') /\
    split_feature node = Some f /\ childs node = [] /\
    feature_value node = fv /\ samples node = shape0 X.
Proof.
  intros Hsel Hsmall.
  destruct (update_eligibility_In self f available sc (select_best_In _ _ _ _ _ Hsel))
    as (a1 & sc1 & Hup).
  assert (Hleb : (_min_samples_split self <=? Z.of_nat (shape0 X))%Z = false)
    by (apply Z.leb_gt; exact Hsmall).
  simpl. rewrite Hsel. simpl.
  destruct (distribution_loop X (class_names self) [] None (-1)%Z) as [d l].
  destruct (String.eqb f "") eqn:He; simpl.
  - do 2 eexists. repeat split; reflexivity.
  - rewrite Hup. simpl. rewrite Hleb. simpl. do 2 eexists. repeat split; reflexivity.
Qed.

(** ** Empty branches *)

(** Without missing values a threshold sends every row to one of its two
    branches. *)
Lemma less_more_total (X : dataset) (F : string) (t : Z) :
  (forall s, In s X -> num s F <> None) ->
  count (is_less F t) X + count (is_more F t) X = shape0 X.
Proof.
  unfold count, shape0. induction X as [|s X IH]; intros Hnum; [reflexivity|].
  assert (Hs : num s F <> None) by (apply Hnum; left; reflexivity).
  assert (IH' : List.length (filter (is_less F t) X)
                + List.length (filter (is_more F t) X) = List.length X).
  { apply IH. intros s0 H0. apply Hnum. right. exact H0. }
  simpl. unfold is_less at 1, is_more at 1.
  destruct (num s F) as [q|]; [|contradiction].
  unfold Qltb. destruct (Qle_bool (inject_Z t) q); simpl; lia.
Qed.

Lemma numerical_entropy_one_sided (X : dataset) (F : string) (t : Z) :
  (forall s, In s X -> num s F <> None) ->
  count (is_less F t) X = 0 \/ count (is_more F t) X = 0 ->
  _numerical_feature_entropy X F t = Ok 0%R.
Proof.
  intros Hnum Hside. pose proof (less_more_total X F t Hnum) as Htot.
  unfold _numerical_feature_entropy.
  destruct (Nat.eqb_spec (count (is_less F t) X) 0) as [Hl|Hl];
    destruct (Nat.eqb_spec (count (is_more F t) X) 0) as [Hm|Hm]; simpl.
  - reflexivity.
  - replace (count (is_more F t) X) with (shape0 X) by lia.
    rewrite ratio_log2_same by lia. simpl. f_equal. ring.
  - replace (count (is_less F t) X) with (shape0 X) by lia.
    rewrite ratio_log2_same by lia. simpl. f_equal. ring.
  - destruct Hside; contradiction.
Qed.

Lemma Rsum_zero (A : Type) (f : A -> R) (l : list A) :
  (forall a, In a l -> f a = 0%R) -> Rsum (map f l) = 0%R.
Proof.
  induction l as [|a l IH]; intros H; simpl; [reflexivity|].
  rewrite H by (left; reflexivity). rewrite IH; [ring|].
  intros b Hb. apply H. right. exact Hb.
Qed.

(** A threshold that would leave a branch empty has gain 0. *)
Lemma threshold_gain_one_sided (self : DecisionTree) (X : dataset) (F : string)
    (t : Z) :
  X <> [] ->
  (forall s, In s X -> num s F <> None) ->
  count (is_less F t) X = 0 \/ count (is_more F t) X = 0 ->
  threshold_gain self X F t = Ok 0%R.
Proof.
  intros HX Hnum Hside. rewrite (threshold_gain_formula self X F t HX).
  unfold spec_gain. rewrite (numerical_entropy_one_sided X F t Hnum Hside). simpl.
  rewrite Rsum_zero; [f_equal; ring|].
  intros c _. rewrite numerical_entropy_one_sided.
  - simpl. ring.
  - intros s Hs. apply filter_In in Hs. apply Hnum. apply Hs.
  - pose proof (count_filter_le (is_less F t) (has_class c) X).
    pose proof (count_filter_le (is_more F t) (has_class c) X).
    destruct Hside; [left | right]; lia.
Qed.

(** The pair a numerical feature wins with carries a threshold whose gain
    is the score of the pair. *)
Lemma numerical_gain_threshold (self : DecisionTree) (X : dataset) (F : string)
    (g : R) (t : Z) :
  _numerical_information_gain self X F = Ok (g, Some t) ->
  X <> [] /\ threshold_gain self X F t = Ok g.
Proof.
  unfold _numerical_information_gain. intros H.
  destruct (col_max X F) as [m|] eqn:Hmax; [|discriminate].
  assert (HX : X <> []) by (eapply col_max_nonempty; eassumption).
  split; [exact HX|].
  destruct (threshold_loop_spec self X F (py_range (py_int m)) 0%R None HX)
    as (g' & th & Hrun & _ & _ & Hcase).
  rewrite Hrun in H. injection H as -> ->.
  destruct Hcase as [[_ Hn] | (pre & t1 & post & _ & Ht & Hv & _)]; [discriminate|].
  injection Ht as <-. rewrite <- Hv. apply threshold_gain_value. exact HX.
Qed.

Lemma value_set_In (X : dataset) (F : string) (v : option string) :
  In v (value_set X F) <-> exists s, In s X /\ cat s F = v.
Proof.
  unfold value_set. rewrite nodup_In, in_map_iff. split.
  - intros [s [Hv Hs]]. exists s. split; assumption.
  - intros [s [Hs Hv]]. exists s. split; assumption.
Qed.

Lemma count_pos_nonempty (p : sample -> bool) (X : dataset) :
  count p X <> 0 -> filter p X <> [].
Proof. unfold count. destruct (filter p X); [simpl; lia | discriminate]. Qed.

(** With complete data and a threshold that is not negative, the
    splitter returns no empty part for the feature that won. *)
Lemma split_parts_nonempty (self : DecisionTree) (X : dataset)
    (available : list names) (bg : gain_value) (best : string)
    (parts : list (dataset * edge)) :
  nonnegative (_min_impurity_decrease self) ->
  complete (categorical_feature_names self) (numerical_feature_names self) X ->
  select_best self X available = Ok (bg, Some best) ->
  _split self X best bg = Ok parts ->
  forall x fv, In (x, fv) parts -> x <> [].
Proof.
  intros Hnn Hc Hsel Hsp x fv Hin.
  destruct (select_best_cases _ _ _ _ _ Hsel)
    as [[Hn _] | (f & pre & post & s0 & sg & Hf & _ & Hgain & Hs0 & Hsg & Hlt & _)];
    [discriminate|].
  injection Hf as <-. unfold _split in Hsp.
  destruct (mem best (categorical_feature_names self)) eqn:Hcat.
  - injection Hsp as <-. unfold _categorical_split in Hin.
    apply in_map_iff in Hin. destruct Hin as [v [Hv Hvin]]. injection Hv as <- _.
    apply value_set_In in Hvin. destruct Hvin as [s [Hs Hcell]].
    apply mem_In in Hcat. destruct (Hc s Hs) as [Hcs _]. specialize (Hcs best Hcat).
    destruct (cat s best) as [a|] eqn:Ha; [|contradiction]. subst v.
    intros Hempty.
    assert (Hin : In s (filter (has_value best (Some a)) X)).
    { apply filter_In. split; [exact Hs|]. unfold has_value. rewrite Ha. simpl.
      apply String.eqb_refl. }
    rewrite Hempty in Hin. contradiction.
  - destruct (mem best (numerical_feature_names self)) eqn:Hnum; [|discriminate].
    destruct bg as [| | |g [t|]|]; try discriminate. injection Hsp as <-.
    simpl in Hsg. injection Hsg as <-.
    unfold nonnegative in Hnn. rewrite Hs0 in Hnn.
    unfold _information_gain in Hgain. rewrite Hcat, Hnum in Hgain.
    destruct (_numerical_information_gain self X best) as [[g' t']| |] eqn:Hng;
      simpl in Hgain; try discriminate.
    injection Hgain as -> ->.
    apply numerical_gain_threshold in Hng. destruct Hng as [HX Htg].
    apply mem_In in Hnum.
    assert (Hcol : forall s, In s X -> num s best <> None).
    { intros s Hs. destruct (Hc s Hs) as [_ Hn]. apply Hn. exact Hnum. }
    assert (Hboth : count (is_less best t) X <> 0 /\ count (is_more best t) X <> 0).
    { split; intros Hz;
        rewrite (threshold_gain_one_sided self X best t HX Hcol) in Htg by auto;
        injection Htg as <-; lra. }
    destruct Hboth as [Hl Hm].
    destruct Hin as [Hv|[Hv|[]]]; injection Hv as <- _;
      apply count_pos_nonempty; assumption.
Qed.

Lemma complete_incl (categorical numerical : list string) (X x : dataset) :
  incl x X -> complete categorical numerical X -> complete categorical numerical x.
Proof. intros Hincl Hc s Hs. apply Hc. apply Hincl. exact Hs. Qed.

Lemma generate_node_nonempty (self : DecisionTree) :
  nonnegative (_min_impurity_decrease self) ->
  forall fuel X fv available sc node sc',
    (X <> [] /\
     complete (categorical_feature_names self) (numerical_feature_names self) X) ->
    _generate_node self fuel X fv available sc = Ok (node, sc') ->
    Forall (fun n => 1 <= samples n) (nodes node).
Proof.
  intros Hnn.
  apply (generate_node_rule self
           (fun X _ _ =>
              X <> [] /\
              complete (categorical_feature_names self)
                (numerical_feature_names self) X)
           (fun _ _ _ _ node _ => Forall (fun n => 1 <= samples n) (nodes node))).
  - intros X fv available sc bg bf d l [HX _] _ _ _.
    apply nodes_mkNode; [|constructor]. simpl. unfold shape0.
    destruct X; [contradiction | simpl; lia].
  - intros X fv available sc bg best d l a1 sc1 [HX _] _ _ _ _ _.
    apply nodes_mkNode; [|constructor]. simpl. unfold shape0.
    destruct X; [contradiction | simpl; lia].
  - intros X fv available sc bg best d l a1 sc1 parts childs sc2 [HX Hc] Hsel _ _ _ _
      Hsp Hrel.
    apply nodes_mkNode.
    + simpl. unfold shape0. destruct X; [contradiction | simpl; lia].
    + eapply childs_rel_Forall; [exact Hrel|].
      intros x fv' s c s' Hin [_ HR]. apply HR. split.
      * eapply split_parts_nonempty; eassumption.
      * eapply complete_incl; [|exact Hc]. eapply split_rows; eassumption.
Qed.

(** C10, as the code has it.  When [min_impurity_decrease] is not
    negative, the training data is not empty and no cell of a categorical
    or numerical feature column is missing, every node of the fitted tree
    has at least one sample: a threshold that would leave its [<] or [>=]
    branch empty has gain exactly 0, so it is never the threshold of a
    winning pair, and a categorical split makes a branch for observed
    values only. *)
Theorem C10_no_empty_node (fuel : nat) (self : DecisionTree)
    (X_columns : list string) (XY : dataset) (categorical numerical : list string)
    (special_cases : registry) (self1 : DecisionTree) (tree : Node)
    (special_cases1 : registry) :
  nonnegative (_min_impurity_decrease self) ->
  XY <> [] ->
  complete categorical numerical XY ->
  fit fuel self X_columns XY categorical numerical special_cases
    = Ok (self1, tree, special_cases1) ->
  Forall (fun n => 1 <= samples n) (nodes tree) /\
  (forall X F t,
     X <> [] -> (forall s, In s X -> num s F <> None) ->
     count (is_less F t) X = 0 \/ count (is_more F t) X = 0 ->
     threshold_gain self1 X F t = Ok 0%R).
Proof.
  intros Hnn HX Hc H. split.
  - unfold fit in H.
    destruct (remove_dependents (map snd special_cases) _) as [available| |];
      simpl in H; try discriminate.
    match type of H with
    | context [_generate_node ?s _ _ _ _ _] => set (self' := s) in *
    end.
    destruct (_generate_node self' fuel XY NoEdge available special_cases)
      as [[node sc']| |] eqn:Hg; simpl in H; try discriminate.
    injection H as _ <- _.
    eapply (generate_node_nonempty self'); [exact Hnn | | exact Hg].
    split; [exact HX | exact Hc].
  - intros X F t. apply threshold_gain_one_sided.
Qed.

(** ** Eligibility *)

Lemma occ_app (l1 l2 : list string) (x : string) :
  occ (l1 ++ l2) x = occ l1 x + occ l2 x.
Proof. apply count_occ_app. Qed.

Lemma occ_NoDup (l : list string) : NoDup l <-> forall x, occ l x <= 1.
Proof. apply NoDup_count_occ. Qed.

Lemma occ_In (l : list string) (x : string) : In x l <-> occ l x <> 0.
Proof. unfold occ. rewrite (count_occ_In string_dec). lia. Qed.

Lemma occ_cons (y : string) (l : list string) (x : string) :
  occ (y :: l) x = (if string_dec y x then 1 else 0) + occ l x.
Proof. unfold occ. simpl. destruct (string_dec y x); reflexivity. Qed.

Lemma names_in_app (l1 l2 : list names) :
  names_in (l1 ++ l2) = names_in l1 ++ names_in l2.
Proof.
  induction l1 as [|[s|l] l1 IH]; simpl; [reflexivity | rewrite IH; reflexivity | exact IH].
Qed.

Lemma names_in_In (s : string) (l : list names) : In (Name s) l <-> In s (names_in l).
Proof.
  induction l as [|[y|y] l IH]; simpl.
  - tauto.
  - rewrite <- IH. split.
    + intros [H|H]; [left; injection H; auto | right; exact H].
    + intros [H|H]; [left; subst; reflexivity | right; exact H].
  - rewrite <- IH. split; [intros [H|H]; [discriminate | exact H] | intros H; right; exact H].
Qed.

Lemma names_in_map_Name (l : list string) : names_in (map Name l) = l.
Proof. induction l as [|s l IH]; simpl; [reflexivity | rewrite IH; reflexivity]. Qed.

(** [l.remove(Name best)] takes one occurrence of [best] out of the names
    of [l]. *)
Lemma list_remove_occ (best : string) (l l' : list names) :
  list_remove (Name best) l = Ok l' ->
  forall x, occ (names_in l') x + (if string_dec best x then 1 else 0)
            = occ (names_in l) x.
Proof.
  revert l'. induction l as [|y l IH]; intros l' H x; simpl in H; [discriminate|].
  destruct (names_eqb y (Name best)) eqn:He.
  - apply names_eqb_eq in He. subst y. injection H as <-. cbn [names_in].
    rewrite occ_cons. lia.
  - destruct (list_remove (Name best) l) as [r| |]; simpl in H; try discriminate.
    injection H as <-. specialize (IH r eq_refl x).
    destruct y as [s|s]; cbn [names_in]; [rewrite !occ_cons|]; lia.
Qed.

Lemma remove_each_occ (l : list string) (a a' : list names) :
  remove_each l a = Ok a' ->
  forall x, occ (names_in a') x + occ l x = occ (names_in a) x.
Proof.
  revert a a'. induction l as [|f l IH]; intros a a' H x; simpl in H.
  - injection H as <-. change (occ [] x) with 0. lia.
  - destruct (list_remove (Name f) a) as [a1| |] eqn:Hr; simpl in H; try discriminate.
    pose proof (list_remove_occ f a a1 Hr x). pose proof (IH a1 a' H x).
    rewrite occ_cons. lia.
Qed.

Lemma remove_dependents_occ (values : list names) (a a' : list names) :
  remove_dependents values a = Ok a' ->
  forall x, occ (names_in a') x + occ (names_in values) x <= occ (names_in a) x.
Proof.
  revert a a'. induction values as [|[v|v] values IH]; intros a a' H x; simpl in H.
  - injection H as <-. change (occ (names_in []) x) with 0. lia.
  - destruct (list_remove (Name v) a) as [a1| |] eqn:Hr; simpl in H; try discriminate.
    pose proof (list_remove_occ v a a1 Hr x). pose proof (IH a1 a' H x).
    cbn [names_in]. rewrite occ_cons. lia.
  - destruct (remove_each v a) as [a1| |] eqn:Hr; simpl in H; try discriminate.
    pose proof (remove_each_occ v a a1 Hr x). pose proof (IH a1 a' H x).
    cbn [names_in]. lia.
Qed.

Lemma dependents_filter_occ (p : string * names -> bool) (sc : registry) (x : string) :
  occ (dependents (filter p sc)) x <= occ (dependents sc) x.
Proof.
  unfold dependents. induction sc as [|[k v] sc IH]; [simpl; lia|].
  cbn [filter]. destruct (p (k, v)); cbn [map snd names_in];
    destruct v as [s|s]; cbn [names_in]; rewrite ?occ_cons; lia.
Qed.

(** Popping the key of a dependent takes the dependent out of the names the
    registry holds back. *)
Lemma dict_pop_occ (best : string) (sc : registry) (d : names) :
  dict_get best sc = Some d ->
  forall x, occ (names_in [d]) x + occ (dependents (dict_pop best sc)) x
            <= occ (dependents sc) x.
Proof.
  unfold dependents. induction sc as [|[k v] sc IH]; intros H x; simpl in H;
    [discriminate|].
  unfold dict_pop in *. cbn [filter fst map snd].
  destruct (String.eqb k best) eqn:He; cbn [negb map snd].
  - injection H as <-.
    pose proof (dependents_filter_occ
                  (fun kv => negb (String.eqb (fst kv) best)) sc x) as Hf.
    unfold dependents in Hf.
    destruct v as [s|s]; cbn [names_in]; rewrite ?occ_cons;
      change (occ [] x) with 0; lia.
  - specialize (IH H x). set (od := occ (names_in [d]) x) in *.
    destruct v as [s|s]; cbn [names_in]; rewrite ?occ_cons; lia.
Qed.

(** What [update_eligibility] hands to the children stays within reach of
    the call, and a categorical [best] leaves it. *)
Lemma update_eligibility_occ (self : DecisionTree) (best : string)
    (available available1 : list names) (sc sc1 : registry) :
  update_eligibility self best available sc = Ok (available1, sc1) ->
  forall x,
    occ (within_reach available1 sc1) x
    + (if mem best (categorical_feature_names self)
       then if string_dec best x then 1 else 0 else 0)
    <= occ (within_reach available sc) x.
Proof.
  unfold update_eligibility, within_reach. intros H x. rewrite !occ_app.
  destruct (mem best (categorical_feature_names self)) eqn:Hcat.
  - destruct (list_remove (Name best) available) as [a1| |] eqn:Hr; cbn [bind] in H;
      try discriminate.
    pose proof (list_remove_occ best available a1 Hr x) as Hocc.
    destruct sc as [|kv sc]; [injection H as <- <-; lia|].
    destruct (dict_get best (kv :: sc)) as [d|] eqn:Hget; injection H as <- <-.
    + pose proof (dict_pop_occ best (kv :: sc) d Hget x) as Hpop.
      change (if negb (String.eqb (fst kv) best)
              then kv :: dict_pop best sc else dict_pop best sc)
        with (dict_pop best (kv :: sc)).
      rewrite names_in_app, occ_app. lia.
    + lia.
  - cbn [bind] in H. destruct sc as [|kv sc]; [injection H as <- <-; lia|].
    destruct (dict_get best (kv :: sc)) as [d|] eqn:Hget; injection H as <- <-.
    + pose proof (dict_pop_occ best (kv :: sc) d Hget x) as Hpop.
      change (if negb (String.eqb (fst kv) best)
              then kv :: dict_pop best sc else dict_pop best sc)
        with (dict_pop best (kv :: sc)).
      rewrite names_in_app, occ_app. lia.
    + lia.
Qed.

Lemma remaining_occ (used : list string) (available : list names) (sc : registry)
    (x : string) :
  occ (within_reach available (remaining used sc)) x
  <= occ (within_reach available sc) x.
Proof.
  unfold within_reach, remaining. rewrite !occ_app.
  pose proof (dependents_filter_occ (fun kv => negb (mem (fst kv) used)) sc x). lia.
Qed.

Lemma handed_down_occ (self : DecisionTree) (a : list names) (sc : registry)
    (a' : list names) (sc' : registry) :
  handed_down self a sc a' sc' ->
  forall x, occ (within_reach a' sc') x <= occ (within_reach a sc) x.
Proof.
  intros H. induction H as [a sc | a sc a' sc' used _ IH
                           | a sc a' sc' best a'' sc'' _ IH Hin Hup]; intros x.
  - lia.
  - pose proof (remaining_occ used a' sc' x). specialize (IH x). lia.
  - pose proof (update_eligibility_occ self best a' a'' sc' sc'' Hup x).
    specialize (IH x). lia.
Qed.

(** [fit] starts the build with names that are pairwise distinct. *)
Lemma initial_reach (X_columns : list string) (sc : registry)
    (available : list names) :
  NoDup X_columns ->
  remove_dependents (map snd sc) (map Name X_columns) = Ok available ->
  NoDup (within_reach available sc).
Proof.
  intros Hnd H. apply occ_NoDup. intros x.
  pose proof (remove_dependents_occ _ _ _ H x) as Hocc.
  rewrite names_in_map_Name in Hocc.
  unfold within_reach, dependents. rewrite occ_app.
  pose proof (proj1 (occ_NoDup X_columns) Hnd x). lia.
Qed.

(** ** Paths *)

Lemma paths_incl_splits (node : Node) :
  forall p, In p (paths node) -> incl p (splits node).
Proof.
  induction node as [sf fv n d l cs IH] using Node_induction.
  intros p Hp. simpl in Hp. simpl splits.
  destruct cs as [|c cs].
  - destruct Hp as [<-|[]]. simpl. rewrite app_nil_r. apply incl_refl.
  - apply in_map_iff in Hp. destruct Hp as [p' [<- Hp']].
    apply in_flat_map in Hp'. destruct Hp' as [c' [Hc' Hp']].
    apply incl_app; [apply incl_appl; apply incl_refl|].
    apply incl_appr. intros x Hx. apply in_flat_map. exists c'. split; [exact Hc'|].
    rewrite Forall_forall in IH. apply (IH c' Hc' p' Hp'). exact Hx.
Qed.

Lemma occ_le_incl (l u : list string) :
  (forall x, occ l x <= occ u x) -> incl l u.
Proof.
  intros H x Hx. apply occ_In. apply occ_In in Hx. specialize (H x). lia.
Qed.

Lemma childs_rel_paths (self : DecisionTree) (categorical : list string)
    (reach : list string) (parts : list (dataset * edge)) (available : list names)
    (sc : registry) (childs : list Node) (sc' : registry) :
  childs_rel (fun x fv a s c s' =>
                (exists fuel', _generate_node self fuel' x fv a s = Ok (c, s')) /\
                (NoDup (within_reach a s) ->
                 incl (splits c) (within_reach a s) /\ once_per_path categorical c))
    parts available sc childs sc' ->
  NoDup (within_reach available sc) ->
  (forall x, occ (within_reach available sc) x <= occ reach x) ->
  Forall (fun c => incl (splits c) reach /\ once_per_path categorical c) childs.
Proof.
  intros H.
  induction H as [|x fv rest available sc child sc1 childs sc2 [[fuel' Hgen] HR] _ IH];
    intros Hnd Hle.
  - constructor.
  - destruct (HR Hnd) as [Hincl Hpaths].
    apply generate_node_registry in Hgen. subst sc1.
    constructor.
    + split; [|exact Hpaths]. intros y Hy. apply (occ_le_incl _ _ Hle).
      apply Hincl. exact Hy.
    + apply IH.
      * apply occ_NoDup. intros y.
        pose proof (remaining_occ (consumed child) available sc y).
        pose proof (proj1 (occ_NoDup _) Hnd y). lia.
      * intros y. pose proof (remaining_occ (consumed child) available sc y).
        specialize (Hle y). lia.
Qed.

Lemma once_per_path_single (categorical : list string) (sf : option string)
    (fv : edge) (n : nat) (d : list nat) (l : option string) :
  once_per_path categorical (mkNode sf fv n d l []).
Proof.
  intros p [<-|[]] f _. destruct sf as [g|]; simpl; [|lia].
  destruct (string_dec g f); lia.
Qed.

(** A call whose reachable names are pairwise distinct builds a tree that
    splits on reachable names only and on no categorical feature twice
    along a path. *)
Lemma generate_node_paths (self : DecisionTree) :
  forall fuel X fv available sc node sc',
    NoDup (within_reach available sc) ->
    _generate_node self fuel X fv available sc = Ok (node, sc') ->
    incl (splits node) (within_reach available sc) /\
    once_per_path (categorical_feature_names self) node.
Proof.
  apply (generate_node_rule self
           (fun _ a s => NoDup (within_reach a s))
           (fun _ _ a s node _ =>
              incl (splits node) (within_reach a s) /\
              once_per_path (categorical_feature_names self) node)).
  - intros X fv available sc bg bf d l _ Hsel _ _. split.
    + simpl. rewrite app_nil_r. destruct bf as [f|]; [|intros x []].
      intros x [<-|[]]. apply in_or_app. left. apply names_in_In.
      eapply select_best_In. exact Hsel.
    + apply once_per_path_single.
  - intros X fv available sc bg best d l a1 sc1 _ Hsel _ _ _ _. split.
    + simpl. intros x [<-|[]]. apply in_or_app. left. apply names_in_In.
      eapply select_best_In. exact Hsel.
    + apply once_per_path_single.
  - intros X fv available sc bg best d l a1 sc1 parts childs sc2 Hnd Hsel _ _ Hup _ _
      Hrel.
    pose proof (update_eligibility_occ self best available a1 sc sc1 Hup) as Hocc.
    assert (Hnd1 : NoDup (within_reach a1 sc1)).
    { apply occ_NoDup. intros y. specialize (Hocc y).
      pose proof (proj1 (occ_NoDup _) Hnd y). lia. }
    pose proof (childs_rel_paths self (categorical_feature_names self)
                  (within_reach a1 sc1) parts a1 sc1 childs sc2 Hrel Hnd1
                  (fun y => le_n _)) as Hch.
    rewrite Forall_forall in Hch. split.
    + simpl. intros x [<-|Hx].
      * apply in_or_app. left. apply names_in_In. eapply select_best_In. exact Hsel.
      * apply in_flat_map in Hx. destruct Hx as [c [Hc Hx]].
        apply (occ_le_incl (within_reach a1 sc1)).
        -- intros y. specialize (Hocc y). lia.
        -- apply (proj1 (Hch c Hc)). exact Hx.
    + intros p Hp f Hf. simpl in Hp. destruct childs as [|c0 childs].
      * destruct Hp as [<-|[]]. simpl. destruct (string_dec best f); lia.
      * apply in_map_iff in Hp. destruct Hp as [p' [<- Hp']].
        apply in_flat_map in Hp'. destruct Hp' as [c [Hc Hp']].
        destruct (Hch c Hc) as [Hincl Hpaths]. specialize (Hpaths p' Hp' f Hf).
        simpl. destruct (string_dec best f) as [->|_]; [|exact Hpaths].
        assert (Hout : ~ In f p').
        { intros Hin. apply (paths_incl_splits c p' Hp') in Hin. apply Hincl in Hin.
          apply occ_In in Hin. specialize (Hocc f).
          apply mem_In in Hf. rewrite Hf in Hocc.
          destruct (string_dec f f); [|contradiction].
          pose proof (proj1 (occ_NoDup _) Hnd f). lia. }
        apply (count_occ_not_In string_dec) in Hout. rewrite Hout. lia.
Qed.

(** C7. When the columns of the frame have distinct names, no categorical
    feature is the split feature of two nodes of one root-to-leaf path of
    the fitted tree; and once a call has chosen a categorical feature, no
    call below it receives an eligible list with this feature. *)
Theorem C7_categorical_once_per_path (fuel : nat) (self : DecisionTree)
    (X_columns : list string) (XY : dataset) (categorical numerical : list string)
    (special_cases : registry) (self1 : DecisionTree) (tree : Node)
    (special_cases1 : registry) :
  NoDup X_columns ->
  fit fuel self X_columns XY categorical numerical special_cases
    = Ok (self1, tree, special_cases1) ->
  once_per_path categorical tree /\
  (forall available0,
     remove_dependents (map snd special_cases) (map Name X_columns) = Ok available0 ->
     forall a sc best a1 sc1 a' sc',
       handed_down self1 available0 special_cases a sc ->
       In (Name best) a -> In best categorical ->
       update_eligibility self1 best a sc = Ok (a1, sc1) ->
       handed_down self1 a1 sc1 a' sc' ->
       ~ In (Name best) a').
Proof.
  intros Hnd H. unfold fit in H. cbn [feature_names] in H.
  destruct (remove_dependents (map snd special_cases) (map Name X_columns))
    as [available| |] eqn:Hrm; simpl in H; try discriminate.
  pose proof (initial_reach X_columns special_cases available Hnd Hrm) as Hreach.
  match type of H with
  | context [_generate_node ?s _ _ _ _ _] => set (self' := s) in *
  end.
  destruct (_generate_node self' fuel XY NoEdge available special_cases)
    as [[node sc']| |] eqn:Hg; simpl in H; try discriminate.
  injection H as <- <- _. split.
  - apply (generate_node_paths self' fuel XY NoEdge available special_cases node sc'
             Hreach Hg).
  - intros available0 H0 a sc best a1 sc1 a' sc'0 Hdown Hin Hcat Hup Hdown' Hin'.
    injection H0 as <-.
    pose proof (handed_down_occ _ _ _ _ _ Hdown best) as H1.
    pose proof (update_eligibility_occ self' best a a1 sc sc1 Hup best) as H2.
    pose proof (handed_down_occ _ _ _ _ _ Hdown' best) as H3.
    pose proof (proj1 (occ_NoDup _) Hreach best) as H4.
    apply mem_In in Hcat. change (categorical_feature_names self') with categorical in H2.
    rewrite Hcat in H2. destruct (string_dec best best); [|contradiction].
    apply names_in_In in Hin'.
    assert (Hin2 : In best (within_reach a' sc'0))
      by (apply in_or_app; left; exact Hin').
    apply occ_In in Hin2. lia.
Qed.

(** ** The claims on the sample data *)

(** C1, on the code.  With the registry [{a: [b, c]}], choosing [a] pops
    the key but appends the list [[b, c]] as one element of the eligible
    list: neither [b] nor [c] becomes an eligible name, and the first child
    that reads the list fails with a ValueError, so [fit] returns no tree.
    With the registry [{a: b}] the name [b] is appended. *)
Theorem C1_list_of_dependents_kept_whole :
  update_eligibility abc_tree "a" [Name "a"] bc_after_a
    = Ok ([NameList ["b"; "c"]%string], []) /\
  ~ In (Name "b") [NameList ["b"; "c"]%string] /\
  ~ In (Name "c") [NameList ["b"; "c"]%string] /\
  _information_gain abc_tree [row_x] (NameList ["b"; "c"]%string) = Raise ValueError /\
  fit 2 default_tree abc two_rows abc [] bc_after_a = Raise ValueError /\
  update_eligibility abc_tree "a" [Name "a"] b_after_a = Ok ([Name "b"], []).
Proof.
  split; [reflexivity|]. split; [intros [H|[]]; discriminate|].
  split; [intros [H|[]]; discriminate|]. split; [reflexivity|].
  split; [exact fit_two_rows_list | reflexivity].
Qed.

(** C2 fails as stated: the build on [two_rows] chooses the key [a] and
    leaves the mapping of the caller empty. *)
Lemma C2_counterexample :
  ~ registry_untouched 2 default_tree abc two_rows abc [] b_after_a.
Proof.
  intros H. specialize (H _ _ _ fit_two_rows). discriminate.
Qed.

Lemma C2_witness :
  [] = remaining (consumed two_rows_tree) b_after_a /\
  (forall k v, In (k, v) [] -> In (k, v) b_after_a) /\
  (forall k, In k (consumed two_rows_tree) -> dict_get k [] = None).
Proof.
  exact (C2_registry_consumed 2 default_tree abc two_rows abc [] b_after_a
           abc_tree two_rows_tree [] fit_two_rows).
Defined.

Lemma C3_witness :
  two_rows <> [] /\
  exists H : dataset -> R,
    (forall x, _categorical_feature_entropy x "a" = Ok (H x)) /\
    _categorical_information_gain abc_tree two_rows "a"
      = Ok (spec_gain H (class_names abc_tree) two_rows).
Proof.
  assert (Hne : two_rows <> []) by discriminate.
  split; [exact Hne|].
  exact (C3_categorical_gain_formula abc_tree two_rows "a" Hne).
Defined.

(** C4 fails as stated: on [one_row] the only threshold, 0, has gain 0 and
    the scan returns the pair [(0, None)], which holds no threshold. *)
Lemma C4_counterexample : ~ scan_attains_maximum n_tree one_row "n".
Proof.
  intros H. destruct H as (g & t & Hg & _); [discriminate|].
  rewrite gain_one_row in Hg. discriminate.
Qed.

Lemma C4_witness :
  col_max one_row "n" = Some 1%Q /\
  exists g th,
    _numerical_information_gain n_tree one_row "n" = Ok (g, th) /\
    (forall t, spec_threshold 1%Q t ->
       exists gt, threshold_gain n_tree one_row "n" t = Ok gt /\ (gt <= g)%R) /\
    match th with
    | Some t =>
        spec_threshold 1%Q t /\ threshold_gain n_tree one_row "n" t = Ok g /\
        (0 < g)%R /\
        (forall t', (0 <= t' < t)%Z ->
           exists gt, threshold_gain n_tree one_row "n" t' = Ok gt /\ (gt < g)%R)
    | None => g = 0%R
    end.
Proof.
  assert (Hmax : col_max one_row "n" = Some 1%Q) by reflexivity.
  split; [exact Hmax|].
  exact (C4_numerical_gain_scan n_tree one_row "n" 1%Q Hmax).
Defined.

Lemma C5_witness :
  Forall (fun n => list_sum (distribution n) = samples n) (nodes two_rows_tree) /\
  samples two_rows_tree = List.length two_rows.
Proof.
  exact (C5_distribution_sums 2 default_tree abc two_rows abc [] b_after_a
           abc_tree two_rows_tree [] fit_two_rows).
Defined.

Lemma C6_witness :
  exists pre post s0 sg,
    [Name "a"; Name "c"] = pre ++ Name "a" :: post /\
    _information_gain abc_tree two_rows (Name "a") = Ok (GFloat 1) /\
    score (_min_impurity_decrease abc_tree) = Some s0 /\
    score (GFloat 1) = Some sg /\ (s0 < sg)%R /\
    (forall it gi si, In it pre -> _information_gain abc_tree two_rows it = Ok gi ->
                      score gi = Some si -> (si < sg)%R) /\
    (forall it gi si, In it post -> _information_gain abc_tree two_rows it = Ok gi ->
                      score gi = Some si -> (si <= sg)%R).
Proof.
  exact (proj2 (proj2 (proj2
           (C6_best_feature_selection abc_tree two_rows [Name "a"; Name "c"]
              (GFloat 1) (Some "a"%string))))
           select_best_two_rows).
Defined.

Lemma abc_NoDup : NoDup abc.
Proof.
  unfold abc. repeat constructor; simpl; intros H;
    repeat (destruct H as [H|H]; [discriminate|]); exact H.
Qed.

Lemma C7_witness :
  once_per_path abc two_rows_tree /\
  (forall available0,
     remove_dependents (map snd b_after_a) (map Name abc) = Ok available0 ->
     forall a sc best a1 sc1 a' sc',
       handed_down abc_tree available0 b_after_a a sc ->
       In (Name best) a -> In best abc ->
       update_eligibility abc_tree best a sc = Ok (a1, sc1) ->
       handed_down abc_tree a1 sc1 a' sc' ->
       ~ In (Name best) a').
Proof.
  exact (C7_categorical_once_per_path 2 default_tree abc two_rows abc [] b_after_a
           abc_tree two_rows_tree [] abc_NoDup fit_two_rows).
Defined.

Lemma C8_witness :
  exists node sc',
    _generate_node abc_tree3 (S 5) two_rows NoEdge [Name "a"; Name "c"] b_after_a
      = Ok (node, sc') /\
    _generate_node abc_tree3 1 two_rows NoEdge [Name "a"; Name "c"] b_after_a
      = Ok (node, sc') /\
    split_feature node = Some "a"%string /\ childs node = [] /\
    feature_value node = NoEdge /\ samples node = shape0 two_rows.
Proof.
  apply (C8_split_without_children abc_tree3 5 two_rows NoEdge
           [Name "a"; Name "c"] b_after_a (GFloat 1) "a" select_best3_two_rows).
  reflexivity.
Defined.

(** C10 fails as stated: the missing value of [with_missing] is a branch
    of the split on [a], and no row has it. *)
Lemma C10_counterexample :
  ~ no_empty_node 2 default_tree ["a"]%string with_missing ["a"]%string [] [].
Proof.
  intros H.
  assert (Hnn : nonnegative (_min_impurity_decrease default_tree))
    by (unfold nonnegative; simpl; lra).
  assert (Hne : with_missing <> []) by discriminate.
  specialize (H Hnn Hne _ _ _ fit_with_missing).
  rewrite Forall_forall in H.
  specialize (H (mkNode None (ByValue None) 0 [0; 0] (Some "p"%string) [])).
  simpl in H. assert (Hle : 1 <= 0) by (apply H; right; right; left; reflexivity).
  lia.
Qed.

Lemma two_rows_complete : complete abc [] two_rows.
Proof.
  intros s [<-|[<-|[]]]; (split; [|intros f []]);
    intros f [<-|[<-|[<-|[]]]]; discriminate.
Qed.

Lemma C10_witness :
  Forall (fun n => 1 <= samples n) (nodes two_rows_tree) /\
  (forall X F t,
     X <> [] -> (forall s, In s X -> num s F <> None) ->
     count (is_less F t) X = 0 \/ count (is_more F t) X = 0 ->
     threshold_gain abc_tree X F t = Ok 0%R).
Proof.
  assert (Hnn : nonnegative (_min_impurity_decrease default_tree))
    by (unfold nonnegative; simpl; lra).
  assert (Hne : two_rows <> []) by discriminate.
  exact (C10_no_empty_node 2 default_tree abc two_rows abc [] b_after_a
           abc_tree two_rows_tree [] Hnn Hne two_rows_complete fit_two_rows).
Defined.

(** * Further properties of the code *)

(** ** Fuel *)

Lemma childs_loop_more_fuel
    (build build' : dataset -> edge -> list names -> registry -> res (Node * registry))
    (parts : list (dataset * edge)) (available : list names) :
  (forall x fv a s, build x fv a s <> OutOfFuel -> build' x fv a s = build x fv a s) ->
  forall sc,
    childs_loop build parts available sc <> OutOfFuel ->
    childs_loop build' parts available sc = childs_loop build parts available sc.
Proof.
  intros Hb. induction parts as [|[x fv] rest IH]; intros sc H; [reflexivity|].
  simpl in *.
  destruct (build x fv available sc) as [[child sc1]|e|] eqn:Hx.
  - rewrite (Hb x fv available sc) by (rewrite Hx; discriminate). rewrite Hx.
    simpl in *.
    destruct (childs_loop build rest available sc1) as [[cs sc2]|e|] eqn:Hr.
    + rewrite IH by (rewrite Hr; discriminate). rewrite Hr. reflexivity.
    + rewrite IH by (rewrite Hr; discriminate). rewrite Hr. reflexivity.
    + simpl in H. contradiction.
  - rewrite (Hb x fv available sc) by (rewrite Hx; discriminate). rewrite Hx.
    reflexivity.
  - simpl in H. contradiction.
Qed.

Lemma generate_node_unfold (self : DecisionTree) (fuel : nat) (X : dataset)
    (fv : edge) (available : list names) (sc : registry) :
  _generate_node self (S fuel) X fv available sc =
  ('(best_gain, best_feature) <- select_best self X available ;;
   let '(distribution, label) :=
     distribution_loop X (class_names self) [] None (-1)%Z in
   '(childs, sc') <-
      match best_feature with
      | Some best =>
          if truthy best_feature then
            '(available1, sc1) <- update_eligibility self best available sc ;;
            if (_min_samples_split self <=? Z.of_nat (shape0 X))%Z then
              parts <- _split self X best best_gain ;;
              childs_loop (_generate_node self fuel) parts available1 sc1
            else Ok ([], sc1)
          else Ok ([], sc)
      | None => Ok ([], sc)
      end ;;
   Ok (mkNode best_feature fv (shape0 X) distribution label childs, sc')).
Proof. reflexivity. Qed.

Lemma generate_node_one_more (self : DecisionTree) (fuel : nat) :
  forall X fv available sc,
    _generate_node self fuel X fv available sc <> OutOfFuel ->
    _generate_node self (S fuel) X fv available sc
    = _generate_node self fuel X fv available sc.
Proof.
  induction fuel as [|fuel IH]; intros X fv available sc H;
    [simpl in H; contradiction|].
  rewrite generate_node_unfold in H. rewrite !generate_node_unfold.
  destruct (select_best self X available) as [[bg bf]|e|]; cbn [bind] in *;
    try reflexivity.
  destruct (distribution_loop X (class_names self) [] None (-1)%Z) as [d l].
  destruct bf as [best|]; [|reflexivity].
  destruct (truthy (Some best)); [|reflexivity].
  destruct (update_eligibility self best available sc) as [[a1 sc1]|e|];
    cbn [bind] in *; try reflexivity.
  destruct (_min_samples_split self <=? Z.of_nat (shape0 X))%Z; [|reflexivity].
  destruct (_split self X best bg) as [parts|e|]; cbn [bind] in *; try reflexivity.
  rewrite (childs_loop_more_fuel (_generate_node self fuel)
             (_generate_node self (S fuel)) parts a1 IH sc1); [reflexivity|].
  intros Hout. rewrite Hout in H. cbn [bind] in H. contradiction.
Qed.

(** Once a call has enough fuel to finish, with a node or with an
    exception, more fuel gives the same result. *)
Lemma generate_node_fuel_independent (self : DecisionTree) (fuel fuel' : nat)
    (X : dataset) (fv : edge) (available : list names) (sc : registry) :
  fuel <= fuel' ->
  _generate_node self fuel X fv available sc <> OutOfFuel ->
  _generate_node self fuel' X fv available sc
  = _generate_node self fuel X fv available sc.
Proof.
  intros Hle H. induction Hle as [|m Hle IH]; [reflexivity|].
  rewrite generate_node_one_more; [exact IH|]. rewrite IH. exact H.
Qed.

(** ** Termination *)

Lemma class_loop_finishes (H : dataset -> res R) (X : dataset)
    (classes : list string) (b : R) :
  (forall x, H x <> OutOfFuel) -> class_loop H X classes b <> OutOfFuel.
Proof.
  intros HH. revert b. induction classes as [|c classes IH]; intros b; simpl;
    [discriminate|].
  destruct (np_div (count (has_class c) X) (shape0 X)) as [r|e|] eqn:Hd; simpl;
    try discriminate.
  - destruct (H (filter (has_class c) X)) as [h|e|] eqn:Hh; simpl;
      try discriminate; [apply IH|]. exfalso. exact (HH _ Hh).
  - unfold np_div in Hd. destruct (shape0 X =? 0); discriminate.
Qed.

Lemma categorical_gain_finishes (self : DecisionTree) (X : dataset) (F : string) :
  _categorical_information_gain self X F <> OutOfFuel.
Proof.
  unfold _categorical_information_gain.
  rewrite (categorical_entropy_value X F). simpl.
  pose proof (class_loop_finishes (fun x => _categorical_feature_entropy x F) X
                (class_names self) 0%R) as Hc.
  destruct (class_loop _ X (class_names self) 0%R) as [b|e|]; simpl;
    try discriminate.
  exfalso. apply Hc; [|reflexivity]. intros x. rewrite categorical_entropy_value.
  discriminate.
Qed.

Lemma threshold_gain_finishes (self : DecisionTree) (X : dataset) (F : string) (t : Z) :
  threshold_gain self X F t <> OutOfFuel.
Proof.
  unfold threshold_gain. rewrite (numerical_entropy_value X F t). simpl.
  pose proof (class_loop_finishes (fun x => _numerical_feature_entropy x F t) X
                (class_names self) 0%R) as Hc.
  destruct (class_loop _ X (class_names self) 0%R) as [b|e|]; simpl;
    try discriminate.
  exfalso. apply Hc; [|reflexivity]. intros x. rewrite numerical_entropy_value.
  discriminate.
Qed.

Lemma threshold_loop_finishes (self : DecisionTree) (X : dataset) (F : string)
    (ts : list Z) (g : R) (th : option Z) :
  threshold_loop self X F ts g th <> OutOfFuel.
Proof.
  revert g th. induction ts as [|t ts IH]; intros g th; simpl; [discriminate|].
  pose proof (threshold_gain_finishes self X F t) as Ht.
  destruct (threshold_gain self X F t) as [gt|e|]; simpl; try discriminate;
    [|contradiction].
  destruct (Rltb g gt); apply IH.
Qed.

Lemma information_gain_finishes (self : DecisionTree) (X : dataset) (it : names) :
  _information_gain self X it <> OutOfFuel.
Proof.
  unfold _information_gain. destruct it as [f|l]; [|discriminate].
  destruct (mem f (categorical_feature_names self)).
  - pose proof (categorical_gain_finishes self X f) as Hc.
    destruct (_categorical_information_gain self X f) as [g|e|];
      [discriminate | destruct e; discriminate | contradiction].
  - destruct (mem f (numerical_feature_names self)); [|discriminate].
    unfold _numerical_information_gain.
    destruct (col_max X f) as [m|]; simpl; [|discriminate].
    pose proof (threshold_loop_finishes self X f (py_range (py_int m)) 0%R None) as Ht.
    destruct (threshold_loop self X f (py_range (py_int m)) 0%R None) as [[g t]|e|];
      simpl; try discriminate. contradiction.
Qed.

Lemma best_feature_loop_finishes (self : DecisionTree) (X : dataset)
    (available : list names) (bg : gain_value) (bf : option string) :
  best_feature_loop self X available bg bf <> OutOfFuel.
Proof.
  revert bg bf. induction available as [|it rest IH]; intros bg bf; simpl;
    [discriminate|].
  pose proof (information_gain_finishes self X it) as Hi.
  destruct (_information_gain self X it) as [g|e|]; simpl; try discriminate;
    [|contradiction].
  destruct (better bg g); apply IH.
Qed.

Lemma list_remove_length (x : names) (l l' : list names) :
  list_remove x l = Ok l' -> S (List.length l') = List.length l.
Proof.
  revert l'. induction l as [|y l IH]; intros l' H; simpl in H; [discriminate|].
  destruct (names_eqb y x).
  - injection H as <-. reflexivity.
  - destruct (list_remove x l) as [r|e|]; simpl in H; try discriminate.
    injection H as <-. simpl. rewrite (IH r eq_refl). reflexivity.
Qed.

Lemma list_remove_finishes (x : names) (l : list names) :
  list_remove x l <> OutOfFuel.
Proof.
  induction l as [|y l IH]; simpl; [discriminate|].
  destruct (names_eqb y x); [discriminate|].
  destruct (list_remove x l); simpl; try discriminate. contradiction.
Qed.

Lemma dict_pop_length (k : string) (sc : registry) :
  List.length (dict_pop k sc) <= List.length sc.
Proof. unfold dict_pop. apply filter_length_le. Qed.

Lemma dict_pop_shorter (k : string) (sc : registry) (d : names) :
  dict_get k sc = Some d -> List.length (dict_pop k sc) < List.length sc.
Proof.
  induction sc as [|[k' v] sc IH]; simpl; [discriminate|].
  destruct (String.eqb k' k); simpl.
  - intros _. pose proof (dict_pop_length k sc). unfold dict_pop in *. lia.
  - intros H. specialize (IH H). unfold dict_pop in *. lia.
Qed.

(** The choice of a feature never makes the work below heavier, and a
    categorical choice makes it lighter. *)
Lemma update_eligibility_weight (self : DecisionTree) (best : string)
    (available available1 : list names) (sc sc1 : registry) :
  update_eligibility self best available sc = Ok (available1, sc1) ->
  call_weight available1 sc1
  + (if mem best (categorical_feature_names self) then 1 else 0)
  <= call_weight available sc.
Proof.
  unfold update_eligibility, call_weight. intros H.
  assert (Hrm : exists a1,
             (if mem best (categorical_feature_names self)
              then list_remove (Name best) available else Ok available) = Ok a1 /\
             List.length a1
             + (if mem best (categorical_feature_names self) then 1 else 0)
             = List.length available).
  { destruct (mem best (categorical_feature_names self)).
    - destruct (list_remove (Name best) available) as [a1|e|] eqn:Hr;
        cbn [bind] in H; try discriminate.
      exists a1. split; [reflexivity|]. apply list_remove_length in Hr. lia.
    - exists available. split; [reflexivity | lia]. }
  destruct Hrm as (a1 & Hrm & Hlen). rewrite Hrm in H. cbn [bind] in H.
  destruct sc as [|kv sc]; [injection H as <- <-; simpl; lia|].
  destruct (dict_get best (kv :: sc)) as [d|] eqn:Hget; injection H as <- <-.
  - pose proof (dict_pop_shorter best (kv :: sc) d Hget) as Hs.
    rewrite length_app. simpl List.length in *. lia.
  - lia.
Qed.

Lemma update_eligibility_finishes (self : DecisionTree) (best : string)
    (available : list names) (sc : registry) :
  update_eligibility self best available sc <> OutOfFuel.
Proof.
  unfold update_eligibility.
  destruct (mem best (categorical_feature_names self)).
  - pose proof (list_remove_finishes (Name best) available) as Hr.
    destruct (list_remove (Name best) available) as [a1|e|]; simpl;
      try discriminate; [|contradiction].
    destruct sc; [discriminate|]. destruct (dict_get best _); discriminate.
  - simpl. destruct sc; [discriminate|]. destruct (dict_get best _); discriminate.
Qed.

Lemma split_finishes (self : DecisionTree) (X : dataset) (best : string)
    (bg : gain_value) :
  _split self X best bg <> OutOfFuel.
Proof.
  unfold _split. destruct (mem best (categorical_feature_names self)); [discriminate|].
  destruct (mem best (numerical_feature_names self)); [|discriminate].
  destruct bg as [| | |g [t|]|]; discriminate.
Qed.

(** *** A threshold that gains something leaves rows on both sides *)

Lemma less_more_le (X : dataset) (F : string) (t : Z) :
  count (is_less F t) X + count (is_more F t) X <= shape0 X.
Proof.
  unfold count, shape0. induction X as [|s X IH]; [simpl; lia|].
  simpl. unfold is_less at 1, is_more at 1. destruct (num s F) as [q|]; [|simpl; lia].
  unfold Qltb. destruct (Qle_bool (inject_Z t) q); simpl; lia.
Qed.

Lemma count_all (p : sample -> bool) (X : dataset) :
  count p X = shape0 X <-> forall s, In s X -> p s = true.
Proof.
  unfold count, shape0. induction X as [|s X IH]; simpl.
  - split; [intros _ s [] | reflexivity].
  - pose proof (filter_length_le p X) as Hle. destruct (p s) eqn:Hp; simpl.
    + split.
      * intros H s0 [<-|H0]; [exact Hp|]. apply IH; [lia | exact H0].
      * intros H. f_equal. apply IH. intros s0 H0. apply H. right. exact H0.
    + split; [lia|]. intros H. specialize (H s (or_introl eq_refl)). congruence.
Qed.

Lemma count_all_filter (p q : sample -> bool) (X : dataset) :
  count p X = shape0 X -> count p (filter q X) = shape0 (filter q X).
Proof.
  intros H. apply count_all. intros s Hs. apply filter_In in Hs.
  apply (proj1 (count_all p X) H). apply Hs.
Qed.

Lemma numerical_entropy_all_one_side (X : dataset) (F : string) (t : Z) :
  count (is_less F t) X = shape0 X \/ count (is_more F t) X = shape0 X ->
  _numerical_feature_entropy X F t = Ok 0%R.
Proof.
  intros Hside. pose proof (less_more_le X F t) as Hle.
  unfold _numerical_feature_entropy.
  destruct (Nat.eqb_spec (count (is_less F t) X) 0) as [Hl|Hl];
    destruct (Nat.eqb_spec (count (is_more F t) X) 0) as [Hm|Hm]; simpl.
  - reflexivity.
  - replace (count (is_more F t) X) with (shape0 X) by lia.
    rewrite ratio_log2_same by lia. simpl. f_equal. ring.
  - replace (count (is_less F t) X) with (shape0 X) by lia.
    rewrite ratio_log2_same by lia. simpl. f_equal. ring.
  - exfalso. lia.
Qed.

Lemma threshold_gain_all_one_side (self : DecisionTree) (X : dataset) (F : string)
    (t : Z) :
  X <> [] ->
  count (is_less F t) X = shape0 X \/ count (is_more F t) X = shape0 X ->
  threshold_gain self X F t = Ok 0%R.
Proof.
  intros HX Hside. rewrite (threshold_gain_formula self X F t HX).
  unfold spec_gain. rewrite (numerical_entropy_all_one_side X F t Hside). simpl.
  rewrite Rsum_zero; [f_equal; ring|].
  intros c _. rewrite numerical_entropy_all_one_side.
  - simpl. ring.
  - destruct Hside as [H|H]; [left | right]; apply count_all_filter; exact H.
Qed.

Lemma numerical_gain_positive (self : DecisionTree) (X : dataset) (F : string)
    (g : R) (t : Z) :
  _numerical_information_gain self X F = Ok (g, Some t) -> (0 < g)%R.
Proof.
  unfold _numerical_information_gain. intros H.
  destruct (col_max X F) as [m|] eqn:Hmax; [|discriminate].
  assert (HX : X <> []) by (eapply col_max_nonempty; eassumption).
  destruct (threshold_loop_spec self X F (py_range (py_int m)) 0%R None HX)
    as (g' & th & Hrun & _ & _ & Hcase).
  rewrite Hrun in H. injection H as -> ->.
  destruct Hcase as [[_ Hn] | (pre & t1 & post & _ & _ & _ & Hgt & _)];
    [discriminate | exact Hgt].
Qed.

(** Every part of a split has at most the rows of the subset, and each
    part of a numerical split has fewer. *)
Lemma split_parts_smaller (self : DecisionTree) (X : dataset)
    (available : list names) (bg : gain_value) (best : string)
    (parts : list (dataset * edge)) :
  select_best self X available = Ok (bg, Some best) ->
  _split self X best bg = Ok parts ->
  forall x fv, In (x, fv) parts ->
    List.length x <= List.length X /\
    (mem best (categorical_feature_names self) = false ->
     List.length x < List.length X).
Proof.
  intros Hsel Hsp x fv Hin.
  destruct (select_best_cases _ _ _ _ _ Hsel)
    as [[Hn _] | (f & pre & post & s0 & sg & Hf & _ & Hgain & _)]; [discriminate|].
  injection Hf as <-. unfold _split in Hsp.
  destruct (mem best (categorical_feature_names self)) eqn:Hcat.
  - injection Hsp as <-. split; [|discriminate].
    unfold _categorical_split in Hin. apply in_map_iff in Hin.
    destruct Hin as [v [Hv _]]. injection Hv as <- _. apply filter_length_le.
  - destruct (mem best (numerical_feature_names self)) eqn:Hnum; [|discriminate].
    destruct bg as [| | |g [t|]|]; try discriminate. injection Hsp as <-.
    unfold _information_gain in Hgain. rewrite Hcat, Hnum in Hgain.
    destruct (_numerical_information_gain self X best) as [[g' t']| |] eqn:Hng;
      simpl in Hgain; try discriminate.
    injection Hgain as -> ->.
    pose proof (numerical_gain_positive self X best g t Hng) as Hpos.
    apply numerical_gain_threshold in Hng. destruct Hng as [HX Htg].
    assert (Hboth : count (is_less best t) X <> shape0 X /\
                    count (is_more best t) X <> shape0 X).
    { split; intros Hz;
        rewrite (threshold_gain_all_one_side self X best t HX) in Htg by auto;
        injection Htg as <-; lra. }
    pose proof (count_le (is_less best t) X).
    pose proof (count_le (is_more best t) X).
    unfold count, shape0 in *.
    destruct Hin as [Hv|[Hv|[]]]; injection Hv as <- _; split; intros; lia.
Qed.

Lemma remaining_length (used : list string) (sc : registry) :
  List.length (remaining used sc) <= List.length sc.
Proof. unfold remaining. apply filter_length_le. Qed.

Lemma childs_loop_finishes
    (build : dataset -> edge -> list names -> registry -> res (Node * registry))
    (parts : list (dataset * edge)) (available : list names) (bound : nat) :
  (forall x fv s, In (x, fv) parts -> List.length s <= bound ->
                  build x fv available s <> OutOfFuel) ->
  (forall x fv s c s', build x fv available s = Ok (c, s') ->
                       List.length s' <= List.length s) ->
  forall sc, List.length sc <= bound ->
             childs_loop build parts available sc <> OutOfFuel.
Proof.
  intros Hfin Hlen. induction parts as [|[x fv] rest IH]; intros sc Hsc; simpl;
    [discriminate|].
  pose proof (Hfin x fv sc (or_introl eq_refl) Hsc) as Hx.
  destruct (build x fv available sc) as [[child sc1]|e|] eqn:Hb; simpl;
    try discriminate; [|contradiction].
  assert (Hsc1 : List.length sc1 <= bound).
  { pose proof (Hlen _ _ _ _ _ Hb). lia. }
  assert (Hrest : childs_loop build rest available sc1 <> OutOfFuel).
  { apply IH; [|exact Hsc1]. intros x' fv' s Hin. apply Hfin. right. exact Hin. }
  destruct (childs_loop build rest available sc1) as [[cs sc2]|e|]; simpl;
    try discriminate. contradiction.
Qed.

(** A call with more fuel than its measure finishes. *)
Lemma generate_node_finishes (self : DecisionTree) (N : nat) :
  forall fuel X fv available sc,
    List.length X <= N ->
    call_measure N X available sc < fuel ->
    _generate_node self fuel X fv available sc <> OutOfFuel.
Proof.
  induction fuel as [|fuel IH]; intros X fv available sc HN Hm; [lia|].
  rewrite generate_node_unfold.
  pose proof (best_feature_loop_finishes self X available
                (_min_impurity_decrease self) None) as Hsel0.
  fold (select_best self X available) in Hsel0.
  destruct (select_best self X available) as [[bg bf]|e|] eqn:Hsel; cbn [bind];
    try discriminate; [|contradiction].
  destruct (distribution_loop X (class_names self) [] None (-1)%Z) as [d l].
  destruct bf as [best|]; [|discriminate].
  destruct (truthy (Some best)); [|discriminate].
  pose proof (update_eligibility_finishes self best available sc) as Hup0.
  destruct (update_eligibility self best available sc) as [[a1 sc1]|e|] eqn:Hup;
    cbn [bind]; try discriminate; [|contradiction].
  destruct (_min_samples_split self <=? Z.of_nat (shape0 X))%Z; [|discriminate].
  pose proof (split_finishes self X best bg) as Hsp0.
  destruct (_split self X best bg) as [parts|e|] eqn:Hsp; cbn [bind];
    try discriminate; [|contradiction].
  pose proof (update_eligibility_weight self best available a1 sc sc1 Hup) as Hw.
  assert (Hch : childs_loop (_generate_node self fuel) parts a1 sc1 <> OutOfFuel).
  { apply (childs_loop_finishes _ parts a1 (List.length sc1)); [| |lia].
    - intros x fv' s Hin Hs. apply IH.
      + destruct (split_parts_smaller self X available bg best parts Hsel Hsp x fv' Hin)
          as [Hle _]. lia.
      + destruct (split_parts_smaller self X available bg best parts Hsel Hsp x fv' Hin)
          as [Hle Hlt].
        unfold call_measure, call_weight in *.
        destruct (mem best (categorical_feature_names self)).
        * assert (Hmul : (List.length a1 + 2 * List.length s) * S N + S N
                         <= (List.length available + 2 * List.length sc) * S N).
          { replace ((List.length a1 + 2 * List.length s) * S N + S N)
              with ((List.length a1 + 2 * List.length s + 1) * S N) by ring.
            apply Nat.mul_le_mono_r. lia. }
          lia.
        * specialize (Hlt eq_refl).
          assert (Hmul : (List.length a1 + 2 * List.length s) * S N
                         <= (List.length available + 2 * List.length sc) * S N).
          { apply Nat.mul_le_mono_r. lia. }
          lia.
    - intros x fv' s c s' Hg. apply generate_node_registry in Hg. subst s'.
      apply remaining_length. }
  destruct (childs_loop (_generate_node self fuel) parts a1 sc1) as [[cs sc2]|e|];
    cbn [bind]; try discriminate. contradiction.
Qed.

Lemma remove_each_length (l : list string) (a a' : list names) :
  remove_each l a = Ok a' -> List.length a' <= List.length a.
Proof.
  revert a. induction l as [|f l IH]; intros a H; simpl in H.
  - injection H as <-. lia.
  - destruct (list_remove (Name f) a) as [a1|e|] eqn:Hr; simpl in H; try discriminate.
    apply list_remove_length in Hr. apply IH in H. lia.
Qed.

Lemma remove_dependents_length (values : list names) (a a' : list names) :
  remove_dependents values a = Ok a' -> List.length a' <= List.length a.
Proof.
  revert a. induction values as [|[v|v] values IH]; intros a H; simpl in H.
  - injection H as <-. lia.
  - destruct (list_remove (Name v) a) as [a1|e|] eqn:Hr; simpl in H; try discriminate.
    apply list_remove_length in Hr. apply IH in H. lia.
  - destruct (remove_each v a) as [a1|e|] eqn:Hr; simpl in H; try discriminate.
    apply remove_each_length in Hr. apply IH in H. lia.
Qed.

Lemma remove_each_finishes (l : list string) (a : list names) :
  remove_each l a <> OutOfFuel.
Proof.
  revert a. induction l as [|f l IH]; intros a; simpl; [discriminate|].
  pose proof (list_remove_finishes (Name f) a) as Hr.
  destruct (list_remove (Name f) a); simpl; try discriminate; [apply IH | contradiction].
Qed.

Lemma remove_dependents_finishes (values : list names) (a : list names) :
  remove_dependents values a <> OutOfFuel.
Proof.
  revert a. induction values as [|[v|v] values IH]; intros a; simpl; [discriminate| |].
  - pose proof (list_remove_finishes (Name v) a) as Hr.
    destruct (list_remove (Name v) a); simpl; try discriminate;
      [apply IH | contradiction].
  - pose proof (remove_each_finishes v a) as Hr.
    destruct (remove_each v a); simpl; try discriminate; [apply IH | contradiction].
Qed.

Lemma fit_unfold (fuel : nat) (self : DecisionTree) (X_columns : list string)
    (XY : dataset) (categorical numerical : list string) (special_cases : registry) :
  fit fuel self X_columns XY categorical numerical special_cases =
  (let self1 :=
     mkDecisionTree (_min_samples_split self) (_min_samples_leaf self)
       (_min_impurity_decrease self)
       X_columns (sorted_set (map target XY)) categorical numerical in
   available <- remove_dependents (map snd special_cases) (map Name X_columns) ;;
   '(tree, special_cases1) <-
      _generate_node self1 fuel XY NoEdge available special_cases ;;
   Ok (self1, tree, special_cases1)).
Proof. reflexivity. Qed.

(** [fit] always finishes.  With the fuel [fit_fuel], computed from the
    numbers of columns, registry entries and rows, the recursion of the
    node builder reaches its end: [fit] returns a tree or raises an
    exception, and more fuel does not change what it returns. *)
Lemma fit_fuel_enough (fuel : nat) (self : DecisionTree)
    (X_columns : list string) (XY : dataset) (categorical numerical : list string)
    (special_cases : registry) :
  fit_fuel X_columns XY special_cases <= fuel ->
  fit fuel self X_columns XY categorical numerical special_cases <> OutOfFuel /\
  fit fuel self X_columns XY categorical numerical special_cases
  = fit (fit_fuel X_columns XY special_cases) self X_columns XY categorical
      numerical special_cases.
Proof.
  intros Hfuel. rewrite !fit_unfold. cbv zeta.
  pose proof (remove_dependents_finishes (map snd special_cases)
                (map Name X_columns)) as Hr0.
  destruct (remove_dependents (map snd special_cases) (map Name X_columns))
    as [available|e|] eqn:Hr; cbn [bind]; [|split; [discriminate | reflexivity]
                                            |contradiction].
  set (self1 := mkDecisionTree _ _ _ _ _ _ _).
  assert (Hfin : _generate_node self1 (fit_fuel X_columns XY special_cases) XY NoEdge
                   available special_cases <> OutOfFuel).
  { apply (generate_node_finishes self1 (List.length XY)); [lia|].
    unfold fit_fuel, call_measure, call_weight.
    apply remove_dependents_length in Hr. rewrite length_map in *.
    assert ((List.length available + 2 * List.length special_cases)
            * S (List.length XY)
            <= (List.length X_columns + 2 * List.length special_cases)
               * S (List.length XY)) by (apply Nat.mul_le_mono_r; lia).
    lia. }
  rewrite (generate_node_fuel_independent self1 _ fuel XY NoEdge available
             special_cases Hfuel Hfin).
  split; [|reflexivity].
  destruct (_generate_node self1 (fit_fuel X_columns XY special_cases) XY NoEdge
              available special_cases) as [[tree sc1]|e|]; cbn [bind];
    try discriminate. contradiction.
Qed.

(** ** When [fit] returns a tree *)







Lemma list_remove_incl (x : names) (l l' : list names) :
  list_remove x l = Ok l' -> incl l' l.
Proof.
  revert l'. induction l as [|y l IH]; intros l' H; simpl in H; [discriminate|].
  destruct (names_eqb y x).
  - injection H as <-. apply incl_tl, incl_refl.
  - destruct (list_remove x l) as [r|e|]; simpl in H; try discriminate.
    injection H as <-. intros z [<-|Hz]; [left; reflexivity|].
    right. apply (IH r eq_refl). exact Hz.
Qed.

Lemma dict_get_In (k : string) (sc : registry) (d : names) :
  dict_get k sc = Some d -> In (k, d) sc.
Proof.
  induction sc as [|[k' v] sc IH]; simpl; [discriminate|].
  destruct (String.eqb_spec k' k) as [->|_].
  - intros H. injection H as <-. left. reflexivity.
  - intros H. right. apply IH. exact H.
Qed.








(** ** The splitter *)

Lemma Qltb_lt (q : Q) (t : Z) : Qltb q (inject_Z t) = true <-> (q < inject_Z t)%Q.
Proof.
  unfold Qltb. rewrite negb_true_iff. split.
  - intros H. apply Qnot_le_lt. intros Hle. apply Qle_bool_iff in Hle. congruence.
  - intros H. destruct (Qle_bool (inject_Z t) q) eqn:Hb; [|reflexivity].
    apply Qle_bool_iff in Hb. exfalso. exact (Qlt_not_le _ _ H Hb).
Qed.

Lemma numerical_split_rows (X : dataset) (F : string) (t : Z) :
  exists less more,
    _numerical_split X F t = [(less, Less t); (more, AtLeast t)] /\
    (forall s, In s less <->
               In s X /\ exists q, num s F = Some q /\ (q < inject_Z t)%Q) /\
    (forall s, In s more <->
               In s X /\ exists q, num s F = Some q /\ (inject_Z t <= q)%Q) /\
    (forall s, In s less -> ~ In s more) /\
    (forall s, num s F = None -> ~ In s less /\ ~ In s more) /\
    List.length less + List.length more <= List.length X /\
    ((forall s, In s X -> num s F <> None) ->
     List.length less + List.length more = List.length X).
Proof.
  exists (filter (is_less F t) X), (filter (is_more F t) X).
  assert (Hl : forall s, In s (filter (is_less F t) X) <->
                         In s X /\ exists q, num s F = Some q /\ (q < inject_Z t)%Q).
  { intros s. rewrite filter_In. unfold is_less. split.
    - intros [Hs Hb]. split; [exact Hs|]. destruct (num s F) as [q|]; [|discriminate].
      exists q. split; [reflexivity|]. apply Qltb_lt. exact Hb.
    - intros [Hs [q [Hq Hlt]]]. split; [exact Hs|]. rewrite Hq. apply Qltb_lt.
      exact Hlt. }
  assert (Hm : forall s, In s (filter (is_more F t) X) <->
                         In s X /\ exists q, num s F = Some q /\ (inject_Z t <= q)%Q).
  { intros s. rewrite filter_In. unfold is_more. split.
    - intros [Hs Hb]. split; [exact Hs|]. destruct (num s F) as [q|]; [|discriminate].
      exists q. split; [reflexivity|]. apply Qle_bool_iff. exact Hb.
    - intros [Hs [q [Hq Hle]]]. split; [exact Hs|]. rewrite Hq. apply Qle_bool_iff.
      exact Hle. }
  split; [reflexivity|]. split; [exact Hl|]. split; [exact Hm|]. split; [|split; [|split]].
  - intros s H1 H2. apply Hl in H1. apply Hm in H2.
    destruct H1 as [_ [q [Hq Hlt]]]. destruct H2 as [_ [q' [Hq' Hle]]].
    rewrite Hq in Hq'. injection Hq' as <-. exact (Qlt_not_le _ _ Hlt Hle).
  - intros s Hnone. split; intros H; [apply Hl in H | apply Hm in H];
      destruct H as [_ [q [Hq _]]]; congruence.
  - apply less_more_le.
  - intros Hnum. apply less_more_total. exact Hnum.
Qed.

Lemma cell_eqb_eq (c : option string) (a : string) :
  cell_eqb c (Some a) = true <-> c = Some a.
Proof.
  destruct c as [b|]; simpl; [|split; discriminate].
  rewrite String.eqb_eq. split; [intros ->; reflexivity | intros H; injection H; auto].
Qed.

Lemma value_set_NoDup (X : dataset) (F : string) : NoDup (value_set X F).
Proof. apply NoDup_nodup. Qed.

Lemma value_indicator_sum (c : option string) (values : list (option string)) :
  NoDup values -> In c values ->
  list_sum (map (fun v => if cell_eqb c v then 1 else 0) values)
  = match c with Some _ => 1 | None => 0 end.
Proof.
  intros Hnd. induction Hnd as [|v values Hnotin Hnd IH]; intros Hin; [contradiction|].
  simpl.
  assert (Hz : ~ In c values ->
               list_sum (map (fun v0 => if cell_eqb c v0 then 1 else 0) values) = 0).
  { clear. intros Hc. induction values as [|w values IHv]; [reflexivity|]. simpl.
    destruct (cell_eqb c w) eqn:He.
    - exfalso. apply Hc. left. destruct w as [a|]; [|destruct c; discriminate].
      apply cell_eqb_eq in He. symmetry. exact He.
    - apply IHv. intros H. apply Hc. right. exact H. }
  destruct Hin as [->|Hin].
  - rewrite Hz by exact Hnotin. destruct c as [a|]; simpl;
      [rewrite String.eqb_refl|]; reflexivity.
  - rewrite IH by exact Hin. destruct (cell_eqb c v) eqn:He; [|reflexivity].
    exfalso. destruct v as [a|]; [|destruct c; discriminate].
    apply cell_eqb_eq in He. subst c. contradiction.
Qed.

Lemma value_counts_total (X : dataset) (F : string) (values : list (option string)) :
  NoDup values ->
  (forall s, In s X -> In (cat s F) values) ->
  list_sum (map (fun v => count (has_value F v) X) values) = count (has_cell F) X.
Proof.
  intros Hnd. induction X as [|s X IH]; intros Hcov.
  - clear. induction values as [|v values IHv]; [reflexivity | exact IHv].
  - assert (Hs : In (cat s F) values) by (apply Hcov; left; reflexivity).
    assert (HX : forall s0, In s0 X -> In (cat s0 F) values)
      by (intros s0 H0; apply Hcov; right; exact H0).
    specialize (IH HX).
    pose proof (value_indicator_sum (cat s F) values Hnd Hs) as Hone.
    assert (Hadd : list_sum (map (fun v => count (has_value F v) (s :: X)) values) =
                   list_sum (map (fun v => if cell_eqb (cat s F) v then 1 else 0)
                               values)
                   + list_sum (map (fun v => count (has_value F v) X) values)).
    { clear. induction values as [|v values IHv]; [reflexivity|].
      simpl map. simpl list_sum. rewrite IHv. unfold count at 1. simpl.
      unfold has_value at 1. destruct (cell_eqb (cat s F) v); simpl;
        fold (count (has_value F v) X); lia. }
    rewrite Hadd, Hone, IH. unfold count. simpl. unfold has_cell at 2.
    destruct (cat s F); simpl; lia.
Qed.

Lemma categorical_split_rows (X : dataset) (F : string) :
  map snd (_categorical_split X F) = map ByValue (value_set X F) /\
  NoDup (map snd (_categorical_split X F)) /\
  (forall x a s, In (x, ByValue (Some a)) (_categorical_split X F) ->
                 (In s x <-> In s X /\ cat s F = Some a)) /\
  (forall x, In (x, ByValue None) (_categorical_split X F) -> x = []) /\
  (forall s a, In s X -> cat s F = Some a ->
               exists x, In (x, ByValue (Some a)) (_categorical_split X F) /\ In s x) /\
  parts_size (_categorical_split X F) = count (has_cell F) X.
Proof.
  unfold _categorical_split. split; [|split; [|split; [|split; [|split]]]].
  - rewrite map_map. reflexivity.
  - rewrite map_map. simpl. apply Finite.Injective_map_NoDup.
    + intros a b H. injection H; auto.
    + apply value_set_NoDup.
  - intros x a s Hin. apply in_map_iff in Hin. destruct Hin as [v [Hv _]].
    injection Hv as <- ->. rewrite filter_In. unfold has_value.
    rewrite cell_eqb_eq. reflexivity.
  - intros x Hin. apply in_map_iff in Hin. destruct Hin as [v [Hv _]].
    injection Hv as <- ->. clear. induction X as [|s X IH]; [reflexivity|].
    simpl. unfold has_value at 1. destruct (cat s F); simpl; exact IH.
  - intros s a Hs Ha. exists (filter (has_value F (Some a)) X). split.
    + apply in_map_iff. exists (Some a). split; [reflexivity|].
      apply value_set_In. exists s. split; assumption.
    + apply filter_In. split; [exact Hs|]. unfold has_value. apply cell_eqb_eq.
      exact Ha.
  - unfold parts_size. rewrite map_map. simpl.
    apply (value_counts_total X F (value_set X F) (value_set_NoDup X F)).
    intros s Hs. apply value_set_In. exists s. split; [exact Hs | reflexivity].
Qed.

(** ** The shape of the tree *)

Lemma generate_node_root (self : DecisionTree) (fuel : nat) (X : dataset) (fv : edge)
    (available : list names) (sc : registry) (node : Node) (sc' : registry) :
  _generate_node self fuel X fv available sc = Ok (node, sc') ->
  samples node = shape0 X /\ feature_value node = fv.
Proof.
  destruct fuel as [|fuel]; [discriminate|]. rewrite generate_node_unfold.
  destruct (select_best self X available) as [[bg bf]|e|]; cbn [bind];
    try discriminate.
  destruct (distribution_loop X (class_names self) [] None (-1)%Z) as [d l].
  match goal with
  | |- bind ?m _ = _ -> _ => destruct m as [[cs s]|e|]; cbn [bind]; try discriminate
  end.
  intros H. injection H as <- _. split; reflexivity.
Qed.

Lemma childs_rel_edges (self : DecisionTree)
    (Q : dataset -> edge -> list names -> registry -> Node -> registry -> Prop)
    (parts : list (dataset * edge)) (available : list names) (sc : registry)
    (childs : list Node) (sc' : registry) :
  childs_rel (fun x fv a s c s' =>
                (exists fuel', _generate_node self fuel' x fv a s = Ok (c, s')) /\
                Q x fv a s c s')
    parts available sc childs sc' ->
  map samples childs = map (fun p => List.length (fst p)) parts /\
  map feature_value childs = map snd parts.
Proof.
  intros H.
  induction H as [|x fv rest available sc child sc1 childs sc2 [[fuel' Hg] _] _ IH].
  - split; reflexivity.
  - apply generate_node_root in Hg. destruct Hg as [Hs Hf]. destruct IH as [IH1 IH2].
    simpl. rewrite Hs, Hf, IH1, IH2. split; reflexivity.
Qed.

Lemma numerical_gain_threshold_range (self : DecisionTree) (X : dataset) (F : string)
    (g : R) (t : Z) :
  _numerical_information_gain self X F = Ok (g, Some t) -> (0 <= t)%Z.
Proof.
  unfold _numerical_information_gain. intros H.
  destruct (col_max X F) as [m|] eqn:Hmax; [|discriminate].
  assert (HX : X <> []) by (eapply col_max_nonempty; eassumption).
  destruct (threshold_loop_spec self X F (py_range (py_int m)) 0%R None HX)
    as (g' & th & Hrun & _ & _ & Hcase).
  rewrite Hrun in H. injection H as -> ->.
  destruct Hcase as [[_ Hn] | (pre & t1 & post & Hsplit & Ht & _)]; [discriminate|].
  injection Ht as <-.
  assert (Hin : In t (py_range (py_int m)))
    by (rewrite Hsplit; apply in_or_app; right; left; reflexivity).
  apply py_range_In in Hin. lia.
Qed.

Lemma count_has_cell_le (F : string) (X : dataset) : count (has_cell F) X <= shape0 X.
Proof. apply count_le. Qed.

Lemma truthy_nonempty (f : string) : truthy (Some f) = true -> f <> ""%string.
Proof.
  simpl. intros H ->. simpl in H. discriminate.
Qed.

Lemma generate_node_shape (self : DecisionTree) :
  forall fuel X fv available sc node sc',
    True ->
    _generate_node self fuel X fv available sc = Ok (node, sc') ->
    Forall (well_shaped self) (nodes node).
Proof.
  apply (generate_node_rule self (fun _ _ _ => True)
           (fun _ _ _ _ node _ => Forall (well_shaped self) (nodes node))).
  - intros X fv available sc bg bf d l _ _ _ _.
    apply nodes_mkNode; [|constructor]. split; [simpl; lia | left; reflexivity].
  - intros X fv available sc bg best d l a1 sc1 _ _ _ _ _ _.
    apply nodes_mkNode; [|constructor]. split; [simpl; lia | left; reflexivity].
  - intros X fv available sc bg best d l a1 sc1 parts childs sc2 _ Hsel _ Ht _ _ Hsp
      Hrel.
    apply nodes_mkNode.
    + destruct (childs_rel_edges self _ parts a1 sc1 childs sc2 Hrel) as [Hsam Hedge].
      destruct (select_best_cases _ _ _ _ _ Hsel)
        as [[Hn _] | (f & pre & post & s0 & sg & Hf & _ & Hgain & _)]; [discriminate|].
      injection Hf as <-. unfold _split in Hsp. unfold well_shaped. simpl.
      rewrite Hsam, Hedge.
      destruct (mem best (categorical_feature_names self)) eqn:Hcat.
      * injection Hsp as <-.
        destruct (categorical_split_rows X best) as (He & Hnd & _ & _ & _ & Hsize).
        split.
        -- unfold parts_size in Hsize. rewrite Hsize. apply count_has_cell_le.
        -- right. exists best. split; [reflexivity|].
           split; [apply truthy_nonempty; exact Ht|]. left.
           split; [apply mem_In; exact Hcat|].
           exists (value_set X best). split; [apply value_set_NoDup | exact He].
      * destruct (mem best (numerical_feature_names self)) eqn:Hnum; [|discriminate].
        destruct bg as [| | |g [t|]|]; try discriminate. injection Hsp as <-.
        unfold _information_gain in Hgain. rewrite Hcat, Hnum in Hgain.
        destruct (_numerical_information_gain self X best) as [[g' t']| |] eqn:Hng;
          simpl in Hgain; try discriminate.
        injection Hgain as -> ->. split.
        -- simpl. pose proof (less_more_le X best t). unfold count, shape0 in *. lia.
        -- right. exists best. split; [reflexivity|].
           split; [apply truthy_nonempty; exact Ht|]. right.
           split; [intros Hin; apply mem_In in Hin; congruence|].
           split; [apply mem_In; exact Hnum|].
           exists t. split; [|reflexivity].
           eapply numerical_gain_threshold_range. exact Hng.
    + eapply childs_rel_Forall; [exact Hrel|].
      intros x fv' s c s' _ [_ HR]. apply HR. exact I.
Qed.

Lemma fit_inv (fuel : nat) (self : DecisionTree) (X_columns : list string)
    (XY : dataset) (categorical numerical : list string) (special_cases : registry)
    (self1 : DecisionTree) (tree : Node) (special_cases1 : registry) :
  fit fuel self X_columns XY categorical numerical special_cases
    = Ok (self1, tree, special_cases1) ->
  self1 = mkDecisionTree (_min_samples_split self) (_min_samples_leaf self)
            (_min_impurity_decrease self)
            X_columns (sorted_set (map target XY)) categorical numerical /\
  exists available,
    remove_dependents (map snd special_cases) (map Name X_columns) = Ok available /\
    _generate_node self1 fuel XY NoEdge available special_cases
    = Ok (tree, special_cases1).
Proof.
  rewrite fit_unfold. cbv zeta. intros H.
  destruct (remove_dependents (map snd special_cases) (map Name X_columns))
    as [available|e|]; cbn [bind] in H; try discriminate.
  destruct (_generate_node _ fuel XY NoEdge available special_cases)
    as [[node sc']|e|] eqn:Hg; cbn [bind] in H; try discriminate.
  injection H as <- <- <-. split; [reflexivity|].
  exists available. split; [reflexivity | exact Hg].
Qed.

(** ** The label of a node *)

Lemma distribution_loop_label (X : dataset) (classes : list string)
    (acc : list nat) (lab : option string) (mx : Z) :
  (snd (distribution_loop X classes acc lab mx) = lab /\
   forall c, In c classes -> (Z.of_nat (count (has_class c) X) <= mx)%Z) \/
  (exists pre c post,
     classes = pre ++ c :: post /\
     snd (distribution_loop X classes acc lab mx) = Some c /\
     (mx < Z.of_nat (count (has_class c) X))%Z /\
     (forall c', In c' pre -> count (has_class c') X < count (has_class c) X) /\
     (forall c', In c' post -> count (has_class c') X <= count (has_class c) X)).
Proof.
  revert acc lab mx. induction classes as [|c0 rest IH]; intros acc lab mx.
  - left. split; [reflexivity | intros c []].
  - simpl. destruct (Z.ltb_spec mx (Z.of_nat (count (has_class c0) X))) as [Hlt|Hge].
    + right.
      destruct (IH (acc ++ [count (has_class c0) X]) (Some c0)
                  (Z.of_nat (count (has_class c0) X)))
        as [[Hl Hall] | (pre & c & post & -> & Hl & Hgt & Hpre & Hpost)].
      * exists [], c0, rest. split; [reflexivity|]. split; [exact Hl|].
        split; [exact Hlt|]. split; [intros c' []|].
        intros c' Hc'. specialize (Hall c' Hc'). lia.
      * exists (c0 :: pre), c, post. split; [reflexivity|]. split; [exact Hl|].
        split; [lia|]. split; [|exact Hpost].
        intros c' [<-|Hc']; [lia | apply Hpre; exact Hc'].
    + destruct (IH (acc ++ [count (has_class c0) X]) lab mx)
        as [[Hl Hall] | (pre & c & post & -> & Hl & Hgt & Hpre & Hpost)].
      * left. split; [exact Hl|]. intros c [<-|Hc]; [exact Hge | apply Hall; exact Hc].
      * right. exists (c0 :: pre), c, post. split; [reflexivity|]. split; [exact Hl|].
        split; [exact Hgt|]. split; [|exact Hpost].
        intros c' [<-|Hc']; [lia | apply Hpre; exact Hc'].
Qed.

Lemma node_majority (X : dataset) (classes : list string) (d : list nat)
    (l : option string) (sf : option string) (fv : edge) (n : nat) (cs : list Node) :
  distribution_loop X classes [] None (-1)%Z = (d, l) ->
  majority_label classes (mkNode sf fv n d l cs).
Proof.
  intros H. pose proof (distribution_loop_fst X classes [] None (-1)%Z) as Hd.
  pose proof (distribution_loop_label X classes [] None (-1)%Z) as Hl.
  rewrite H in Hd, Hl. simpl in Hd, Hl. subst d. unfold majority_label. simpl.
  split; [apply length_map|].
  destruct Hl as [[-> Hall] | (pre & c & post & -> & -> & _ & Hpre & Hpost)].
  - destruct classes as [|c classes]; [reflexivity|].
    specialize (Hall c (or_introl eq_refl)). lia.
  - exists (List.length pre).
    assert (Hnth : nth (List.length pre)
                     (map (fun c0 => count (has_class c0) X) (pre ++ c :: post)) 0
                   = count (has_class c) X).
    { rewrite map_app. rewrite app_nth2 by (rewrite length_map; lia).
      rewrite length_map, Nat.sub_diag. reflexivity. }
    rewrite Hnth. split; [|split].
    + rewrite nth_error_app2 by lia. rewrite Nat.sub_diag. reflexivity.
    + intros j m Hj. apply nth_error_In in Hj. apply in_map_iff in Hj.
      destruct Hj as [c' [<- Hc']]. apply in_app_or in Hc'.
      destruct Hc' as [Hc'|[<-|Hc']];
        [specialize (Hpre c' Hc'); lia | lia | apply Hpost; exact Hc'].
    + intros j m Hlt Hj. rewrite map_app in Hj.
      rewrite nth_error_app1 in Hj by (rewrite length_map; exact Hlt).
      apply nth_error_In in Hj. apply in_map_iff in Hj.
      destruct Hj as [c' [<- Hc']]. apply Hpre. exact Hc'.
Qed.

Lemma generate_node_labels (self : DecisionTree) :
  forall fuel X fv available sc node sc',
    True ->
    _generate_node self fuel X fv available sc = Ok (node, sc') ->
    Forall (majority_label (class_names self)) (nodes node).
Proof.
  apply (generate_node_rule self (fun _ _ _ => True)
           (fun _ _ _ _ node _ =>
              Forall (majority_label (class_names self)) (nodes node))).
  - intros X fv available sc bg bf d l _ _ Hd _.
    apply nodes_mkNode; [|constructor]. eapply node_majority. exact Hd.
  - intros X fv available sc bg best d l a1 sc1 _ _ Hd _ _ _.
    apply nodes_mkNode; [|constructor]. eapply node_majority. exact Hd.
  - intros X fv available sc bg best d l a1 sc1 parts childs sc2 _ _ Hd _ _ _ _ Hrel.
    apply nodes_mkNode; [eapply node_majority; exact Hd|].
    eapply childs_rel_Forall; [exact Hrel|].
    intros x fv' s c s' _ [_ HR]. apply HR. exact I.
Qed.

(** ** Dependents that cannot be held back *)

Lemma list_remove_raises (x : names) (l : list names) (e : exn) :
  list_remove x l = Raise e -> e = ValueError.
Proof.
  induction l as [|y l IH]; simpl; [intros H; injection H; auto|].
  destruct (names_eqb y x); [discriminate|].
  destruct (list_remove x l) as [r|e'|]; simpl; try discriminate.
  intros H. injection H as <-. apply IH. reflexivity.
Qed.

Lemma remove_each_raises (l : list string) (a : list names) (e : exn) :
  remove_each l a = Raise e -> e = ValueError.
Proof.
  revert a. induction l as [|f l IH]; intros a; simpl; [discriminate|].
  destruct (list_remove (Name f) a) as [a1|e'|] eqn:Hr; simpl; try discriminate.
  - apply IH.
  - intros H. injection H as <-. eapply list_remove_raises. exact Hr.
Qed.

Lemma remove_dependents_raises (values : list names) (a : list names) (e : exn) :
  remove_dependents values a = Raise e -> e = ValueError.
Proof.
  revert a. induction values as [|[v|v] values IH]; intros a; simpl; [discriminate| |].
  - destruct (list_remove (Name v) a) as [a1|e'|] eqn:Hr; simpl; try discriminate.
    + apply IH.
    + intros H. injection H as <-. eapply list_remove_raises. exact Hr.
  - destruct (remove_each v a) as [a1|e'|] eqn:Hr; simpl; try discriminate.
    + apply IH.
    + intros H. injection H as <-. eapply remove_each_raises. exact Hr.
Qed.

Lemma remove_dependents_lists (values : list names) (a a' : list names) :
  remove_dependents values a = Ok a' ->
  forall l x, In (NameList l) values -> occ l x <= occ (names_in a) x.
Proof.
  revert a. induction values as [|[v|v] values IH]; intros a H l x Hin; simpl in H;
    [contradiction| |].
  - destruct (list_remove (Name v) a) as [a1|e|] eqn:Hr; simpl in H; try discriminate.
    destruct Hin as [Hin|Hin]; [discriminate|].
    pose proof (list_remove_occ v a a1 Hr x). pose proof (IH a1 H l x Hin). lia.
  - destruct (remove_each v a) as [a1|e|] eqn:Hr; simpl in H; try discriminate.
    pose proof (remove_each_occ v a a1 Hr x) as Hocc.
    destruct Hin as [Hin|Hin].
    + injection Hin as <-. lia.
    + pose proof (IH a1 H l x Hin). lia.
Qed.

Lemma fit_remove_fails (fuel : nat) (self : DecisionTree) (X_columns : list string)
    (XY : dataset) (categorical numerical : list string) (special_cases : registry) :
  (forall available,
     remove_dependents (map snd special_cases) (map Name X_columns) <> Ok available) ->
  fit fuel self X_columns XY categorical numerical special_cases = Raise ValueError.
Proof.
  intros Hno. rewrite fit_unfold. cbv zeta.
  pose proof (remove_dependents_finishes (map snd special_cases)
                (map Name X_columns)) as Hfin.
  destruct (remove_dependents (map snd special_cases) (map Name X_columns))
    as [available|e|] eqn:Hr; cbn [bind].
  - exfalso. exact (Hno available eq_refl).
  - apply remove_dependents_raises in Hr. subst e. reflexivity.
  - contradiction.
Qed.

(** ** Where a split feature comes from *)

Lemma select_best_catalogued (self : DecisionTree) (X : dataset)
    (available : list names) (bg : gain_value) (f : string) :
  select_best self X available = Ok (bg, Some f) ->
  In f (categorical_feature_names self) \/ In f (numerical_feature_names self).
Proof.
  intros Hsel.
  destruct (select_best_cases _ _ _ _ _ Hsel)
    as [[Hn _] | (f' & pre & post & s0 & sg & Hf & _ & Hgain & _ & Hsg & _)];
    [discriminate|].
  injection Hf as <-. unfold _information_gain in Hgain.
  destruct (mem f (categorical_feature_names self)) eqn:Hcat;
    [left; apply mem_In; exact Hcat|].
  destruct (mem f (numerical_feature_names self)) eqn:Hnum;
    [right; apply mem_In; exact Hnum|].
  injection Hgain as <-. discriminate.
Qed.

Lemma childs_rel_reach (self : DecisionTree) (P : string -> Prop)
    (reach : list string) (parts : list (dataset * edge)) (available : list names)
    (sc : registry) (childs : list Node) (sc' : registry) :
  childs_rel (fun x fv a s c s' =>
                (exists fuel', _generate_node self fuel' x fv a s = Ok (c, s')) /\
                (True -> forall f, In f (splits c) ->
                                   In f (within_reach a s) /\ P f))
    parts available sc childs sc' ->
  (forall x, occ (within_reach available sc) x <= occ reach x) ->
  forall c f, In c childs -> In f (splits c) -> In f reach /\ P f.
Proof.
  intros H.
  induction H as [|x fv rest available sc child sc1 childs sc2 [[fuel' Hgen] HR] _ IH];
    intros Hle c f Hc Hf; [contradiction|].
  destruct Hc as [<-|Hc].
  - destruct (HR I f Hf) as [Hin HP]. split; [|exact HP].
    apply (occ_le_incl _ _ Hle). exact Hin.
  - apply generate_node_registry in Hgen. subst sc1.
    eapply IH; [|exact Hc | exact Hf].
    intros y. pose proof (remaining_occ (consumed child) available sc y).
    specialize (Hle y). lia.
Qed.

Lemma generate_node_splits (self : DecisionTree) :
  forall fuel X fv available sc node sc',
    True ->
    _generate_node self fuel X fv available sc = Ok (node, sc') ->
    forall f, In f (splits node) ->
      In f (within_reach available sc) /\
      (In f (categorical_feature_names self) \/ In f (numerical_feature_names self)).
Proof.
  apply (generate_node_rule self (fun _ _ _ => True)
           (fun _ _ a s node _ =>
              forall f, In f (splits node) ->
                In f (within_reach a s) /\
                (In f (categorical_feature_names self) \/
                 In f (numerical_feature_names self)))).
  - intros X fv available sc bg bf d l _ Hsel _ _ f Hf. simpl in Hf.
    rewrite app_nil_r in Hf. destruct bf as [g|]; [|contradiction].
    destruct Hf as [<-|[]]. split.
    + apply in_or_app. left. apply names_in_In. eapply select_best_In. exact Hsel.
    + eapply select_best_catalogued. exact Hsel.
  - intros X fv available sc bg best d l a1 sc1 _ Hsel _ _ _ _ f Hf. simpl in Hf.
    destruct Hf as [<-|[]]. split.
    + apply in_or_app. left. apply names_in_In. eapply select_best_In. exact Hsel.
    + eapply select_best_catalogued. exact Hsel.
  - intros X fv available sc bg best d l a1 sc1 parts childs sc2 _ Hsel _ _ Hup _ _
      Hrel f Hf.
    simpl in Hf. destruct Hf as [<-|Hf].
    + split.
      * apply in_or_app. left. apply names_in_In. eapply select_best_In. exact Hsel.
      * eapply select_best_catalogued. exact Hsel.
    + apply in_flat_map in Hf. destruct Hf as [c [Hc Hf]].
      pose proof (update_eligibility_occ self best available a1 sc sc1 Hup) as Hocc.
      eapply (childs_rel_reach self _ (within_reach available sc) parts a1 sc1 childs
                sc2 Hrel); [|exact Hc | exact Hf].
      intros y. specialize (Hocc y). lia.
Qed.

(** ** Prerequisites *)

Lemma update_eligibility_new_names (self : DecisionTree) (best : string)
    (available available1 : list names) (sc sc1 : registry) :
  update_eligibility self best available sc = Ok (available1, sc1) ->
  forall x, In x (names_in available1) ->
    In x (names_in available) \/ In (best, Name x) sc.
Proof.
  unfold update_eligibility. intros H x Hx.
  assert (Hrm : exists a1,
             (if mem best (categorical_feature_names self)
              then list_remove (Name best) available else Ok available) = Ok a1 /\
             incl a1 available).
  { destruct (mem best (categorical_feature_names self)).
    - destruct (list_remove (Name best) available) as [a1|e|] eqn:Hr;
        cbn [bind] in H; try discriminate.
      exists a1. split; [reflexivity|]. eapply list_remove_incl. exact Hr.
    - exists available. split; [reflexivity | apply incl_refl]. }
  destruct Hrm as (a1 & Hrm & Hincl). rewrite Hrm in H. cbn [bind] in H.
  assert (Hold : In x (names_in a1) -> In x (names_in available)).
  { intros Hin. apply names_in_In. apply Hincl. apply names_in_In. exact Hin. }
  destruct sc as [|kv sc]; [injection H as <- _; left; apply Hold; exact Hx|].
  destruct (dict_get best (kv :: sc)) as [d|] eqn:Hget; injection H as <- _;
    [|left; apply Hold; exact Hx].
  rewrite names_in_app in Hx. apply in_app_or in Hx. destruct Hx as [Hx|Hx].
  - left. apply Hold. exact Hx.
  - right. apply dict_get_In in Hget. destruct d as [s|s]; simpl in Hx;
      [|contradiction]. destruct Hx as [<-|[]]. exact Hget.
Qed.

Lemma locked_by_remaining (k v : string) (available : list names) (sc : registry)
    (used : list string) :
  locked_by k v available sc -> locked_by k v available (remaining used sc).
Proof.
  intros [Hout Hkey]. split; [exact Hout|]. intros k' Hin.
  unfold remaining in Hin. apply filter_In in Hin. apply Hkey. apply Hin.
Qed.

Lemma locked_by_update (self : DecisionTree) (k v best : string)
    (available available1 : list names) (sc sc1 : registry) :
  locked_by k v available sc ->
  update_eligibility self best available sc = Ok (available1, sc1) ->
  best <> k ->
  locked_by k v available1 sc1.
Proof.
  intros [Hout Hkey] Hup Hne. split.
  - intros Hin.
    destruct (update_eligibility_new_names self best available available1 sc sc1
                Hup v Hin) as [Hold|Hnew]; [exact (Hout Hold)|].
    apply Hne. apply Hkey. exact Hnew.
  - rewrite (update_eligibility_registry _ _ _ _ _ _ Hup). intros k' Hin.
    unfold dict_pop in Hin. apply filter_In in Hin. apply Hkey. apply Hin.
Qed.

Lemma childs_rel_prerequisite (self : DecisionTree) (k v : string)
    (parts : list (dataset * edge)) (available : list names) (sc : registry)
    (childs : list Node) (sc' : registry) :
  childs_rel (fun x fv a s c s' =>
                (exists fuel', _generate_node self fuel' x fv a s = Ok (c, s')) /\
                (locked_by k v a s -> prerequisite_first k v c))
    parts available sc childs sc' ->
  locked_by k v available sc ->
  Forall (prerequisite_first k v) childs.
Proof.
  intros H.
  induction H as [|x fv rest available sc child sc1 childs sc2 [[fuel' Hgen] HR] _ IH];
    intros Hlock; constructor.
  - apply HR. exact Hlock.
  - apply IH. apply generate_node_registry in Hgen. subst sc1.
    apply locked_by_remaining. exact Hlock.
Qed.

Lemma prerequisite_first_single (k v : string) (sf : option string) (fv : edge)
    (n : nat) (d : list nat) (l : option string) :
  (forall f, sf = Some f -> f <> v) ->
  prerequisite_first k v (mkNode sf fv n d l []).
Proof.
  intros Hne p [<-|[]] pre post Heq. exfalso.
  destruct sf as [f|]; [|destruct pre; discriminate].
  destruct pre as [|a pre]; [|destruct pre; discriminate].
  simpl in Heq. injection Heq as Hf _. exact (Hne f eq_refl Hf).
Qed.

(** While [v] is locked by [k], a call builds a tree in which [k] comes
    before [v] on every path. *)
Lemma generate_node_prerequisite (self : DecisionTree) (k v : string) :
  forall fuel X fv available sc node sc',
    locked_by k v available sc ->
    _generate_node self fuel X fv available sc = Ok (node, sc') ->
    prerequisite_first k v node.
Proof.
  apply (generate_node_rule self
           (fun _ a s => locked_by k v a s)
           (fun _ _ _ _ node _ => prerequisite_first k v node)).
  - intros X fv available sc bg bf d l [Hout _] Hsel _ _.
    apply prerequisite_first_single. intros f -> ->. apply Hout.
    apply names_in_In. eapply select_best_In. exact Hsel.
  - intros X fv available sc bg best d l a1 sc1 [Hout _] Hsel _ _ _ _.
    apply prerequisite_first_single. intros f Hf ->. injection Hf as ->.
    apply Hout. apply names_in_In. eapply select_best_In. exact Hsel.
  - intros X fv available sc bg best d l a1 sc1 parts childs sc2 Hlock Hsel _ _ Hup _ _
      Hrel.
    assert (Hbv : best <> v).
    { intros ->. destruct Hlock as [Hout _]. apply Hout. apply names_in_In.
      eapply select_best_In. exact Hsel. }
    intros p Hp pre post Heq. simpl in Hp.
    destruct childs as [|c0 childs].
    + destruct Hp as [<-|[]]. exfalso.
      destruct pre as [|a pre]; [|destruct pre; discriminate].
      simpl in Heq. injection Heq as Hf _. exact (Hbv Hf).
    + apply in_map_iff in Hp. destruct Hp as [p' [<- Hp']].
      destruct pre as [|a pre]; simpl in Heq.
      * injection Heq as Hf _. exfalso. exact (Hbv Hf).
      * injection Heq as <- Hp'eq. destruct (string_dec best k) as [->|Hne];
          [left; reflexivity|]. right.
        pose proof (locked_by_update self k v best available a1 sc sc1 Hlock Hup Hne)
          as Hlock1.
        pose proof (childs_rel_prerequisite self k v parts a1 sc1 _ sc2 Hrel Hlock1)
          as Hall.
        rewrite Forall_forall in Hall.
        apply in_flat_map in Hp'. destruct Hp' as [c [Hc Hpc]].
        apply (Hall c Hc p' Hpc pre post). exact Hp'eq.
Qed.

Lemma dependents_In (k v : string) (sc : registry) :
  In (k, Name v) sc -> In v (dependents sc).
Proof.
  unfold dependents. intros H. apply names_in_In. apply in_map_iff.
  exists (k, Name v). split; [reflexivity | exact H].
Qed.

Lemma dependents_two_keys (k k' v : string) (sc : registry) :
  In (k, Name v) sc -> In (k', Name v) sc -> k <> k' ->
  2 <= occ (dependents sc) v.
Proof.
  induction sc as [|[k0 v0] sc IH]; intros H1 H2 Hne; [contradiction|].
  unfold dependents in *. cbn [map snd].
  destruct H1 as [H1|H1]; destruct H2 as [H2|H2].
  - congruence.
  - injection H1 as -> ->. cbn [names_in]. rewrite occ_cons.
    apply dependents_In in H2. apply occ_In in H2. unfold dependents in H2.
    destruct (string_dec v v); [lia | contradiction].
  - injection H2 as -> ->. cbn [names_in]. rewrite occ_cons.
    apply dependents_In in H1. apply occ_In in H1. unfold dependents in H1.
    destruct (string_dec v v); [lia | contradiction].
  - specialize (IH H1 H2 Hne). destruct v0 as [s|s]; cbn [names_in];
      rewrite ?occ_cons; lia.
Qed.

Lemma initial_locked (X_columns : list string) (sc : registry)
    (available : list names) (k v : string) :
  NoDup X_columns ->
  remove_dependents (map snd sc) (map Name X_columns) = Ok available ->
  In (k, Name v) sc ->
  locked_by k v available sc.
Proof.
  intros Hnd Hrm Hin.
  pose proof (remove_dependents_occ _ _ _ Hrm v) as Hocc.
  rewrite names_in_map_Name in Hocc.
  pose proof (proj1 (occ_NoDup X_columns) Hnd v) as Hone.
  fold (dependents sc) in Hocc. split.
  - intros Hv. apply occ_In in Hv. pose proof (dependents_In k v sc Hin) as Hd.
    apply occ_In in Hd. lia.
  - intros k' Hin'. destruct (string_dec k' k) as [->|Hne]; [reflexivity|].
    pose proof (dependents_two_keys k' k v sc Hin' Hin Hne). lia.
Qed.

(** ** Entropy *)

Lemma categorical_entropy_loop_sum (X : dataset) (F : string)
    (values : list (option string)) (acc : R) :
  categorical_entropy_loop X F (shape0 X) values acc =
  Ok (acc - Rsum (map (fun v => entropy_term (count (has_value F v) X) (shape0 X))
                    (filter (fun v => negb (Nat.eqb (count (has_value F v) X) 0))
                       values)))%R.
Proof.
  revert acc. induction values as [|v values IH]; intros acc; simpl.
  - f_equal. ring.
  - destruct (Nat.eqb_spec (count (has_value F v) X) 0) as [Hz|Hnz]; simpl.
    + apply IH.
    + pose proof (count_le (has_value F v) X) as Hle.
      rewrite ratio_log2_ok by lia. simpl. rewrite IH. f_equal.
      unfold entropy_term. ring.
Qed.

Lemma log2_nonpos (p : R) : (0 < p <= 1)%R -> (log2 p <= 0)%R.
Proof.
  intros [Hpos Hle]. unfold log2. pose proof ln2_pos as H2.
  assert (Hln : (ln p <= 0)%R).
  { rewrite <- ln_1. destruct Hle as [Hlt | ->]; [|lra].
    left. apply ln_increasing; assumption. }
  assert (Hinv : (0 < / ln 2)%R) by (apply Rinv_0_lt_compat; exact H2).
  unfold Rdiv. nra.
Qed.

Lemma entropy_term_nonpos (m n : nat) :
  m <> 0 -> m <= n -> (entropy_term m n <= 0)%R.
Proof.
  intros Hm Hle. unfold entropy_term.
  assert (Hp : (0 < INR m / INR n <= 1)%R).
  { split; [apply INR_ratio_pos; lia|].
    assert (Hn : (0 < INR n)%R) by (apply lt_0_INR; lia).
    assert (Hmn : (INR m <= INR n)%R) by (apply le_INR; exact Hle).
    assert (Hinv : (0 < / INR n)%R) by (apply Rinv_0_lt_compat; exact Hn).
    assert (Hone : (INR n * / INR n = 1)%R) by (apply Rinv_r; lra).
    unfold Rdiv. nra. }
  pose proof (log2_nonpos _ Hp). nra.
Qed.

Lemma Rsum_nonpos (A : Type) (f : A -> R) (l : list A) :
  (forall a, In a l -> (f a <= 0)%R) -> (Rsum (map f l) <= 0)%R.
Proof.
  induction l as [|a l IH]; intros H; simpl; [lra|].
  pose proof (H a (or_introl eq_refl)).
  assert (Rsum (map f l) <= 0)%R by (apply IH; intros b Hb; apply H; right; exact Hb).
  lra.
Qed.

Lemma categorical_entropy_formula (X : dataset) (F : string) :
  _categorical_feature_entropy X F = Ok (spec_categorical_entropy X F) /\
  (0 <= spec_categorical_entropy X F)%R.
Proof.
  split.
  - unfold _categorical_feature_entropy, spec_categorical_entropy.
    cbv zeta. rewrite categorical_entropy_loop_sum. f_equal. ring.
  - unfold spec_categorical_entropy.
    assert (H : (Rsum (map (fun v => entropy_term (count (has_value F v) X) (shape0 X))
                          (filter (fun v => negb (Nat.eqb (count (has_value F v) X) 0))
                             (value_set X F))) <= 0)%R).
    { apply Rsum_nonpos. intros v Hv. apply filter_In in Hv. destruct Hv as [_ Hnz].
      apply negb_true_iff in Hnz. apply Nat.eqb_neq in Hnz.
      apply entropy_term_nonpos; [exact Hnz | apply count_le]. }
    lra.
Qed.

Lemma numerical_entropy_nonneg (X : dataset) (F : string) (t : Z) :
  exists h, _numerical_feature_entropy X F t = Ok h /\ (0 <= h)%R.
Proof.
  unfold _numerical_feature_entropy.
  pose proof (count_le (is_less F t) X) as Hl.
  pose proof (count_le (is_more F t) X) as Hm.
  destruct (Nat.eqb_spec (count (is_less F t) X) 0) as [Hl0|Hl0];
    destruct (Nat.eqb_spec (count (is_more F t) X) 0) as [Hm0|Hm0]; simpl.
  - exists 0%R. split; [reflexivity | lra].
  - rewrite ratio_log2_ok by lia. simpl. eexists. split; [reflexivity|].
    pose proof (entropy_term_nonpos _ _ Hm0 Hm) as H. unfold entropy_term in H. lra.
  - rewrite ratio_log2_ok by lia. simpl. eexists. split; [reflexivity|].
    pose proof (entropy_term_nonpos _ _ Hl0 Hl) as H. unfold entropy_term in H. lra.
  - rewrite !ratio_log2_ok by lia. simpl. eexists. split; [reflexivity|].
    pose proof (entropy_term_nonpos _ _ Hl0 Hl) as H1.
    pose proof (entropy_term_nonpos _ _ Hm0 Hm) as H2.
    unfold entropy_term in *. lra.
Qed.

(** ** Columns that tell nothing *)

Lemma nodup_constant (v : option string) (l : list (option string)) :
  (forall x, In x l -> x = v) -> l <> [] -> nodup cell_dec l = [v].
Proof.
  induction l as [|x l IH]; intros Hall Hne; [contradiction|].
  assert (Hx : x = v) by (apply Hall; left; reflexivity). subst x.
  simpl. destruct l as [|y l].
  - reflexivity.
  - destruct (in_dec cell_dec v (y :: l)) as [_|Hnotin].
    + apply IH; [intros z Hz; apply Hall; right; exact Hz | discriminate].
    + exfalso. apply Hnotin. left. apply Hall. right. left. reflexivity.
Qed.

Lemma categorical_entropy_constant (X : dataset) (F : string) (v : option string) :
  (forall s, In s X -> cat s F = v) ->
  value_of (_categorical_feature_entropy X F) = 0%R.
Proof.
  intros Hall. destruct X as [|s0 X0] eqn:HX; [reflexivity|]. rewrite <- HX in *.
  assert (Hne : X <> []) by (rewrite HX; discriminate).
  unfold _categorical_feature_entropy, value_set. cbv zeta.
  rewrite (nodup_constant v).
  - simpl. destruct v as [a|].
    + assert (Hc : count (has_value F (Some a)) X = shape0 X).
      { apply count_all. intros s Hs. unfold has_value. apply cell_eqb_eq.
        apply Hall. exact Hs. }
      rewrite Hc.
      assert (Hn : shape0 X <> 0) by (rewrite HX; discriminate).
      destruct (Nat.eqb_spec (shape0 X) 0) as [|_]; [contradiction|]. simpl.
      rewrite ratio_log2_same by exact Hn. simpl. ring.
    + assert (Hc : count (has_value F None) X = 0).
      { unfold count. clear. induction X as [|s X IH]; [reflexivity|]. simpl.
        unfold has_value at 1. destruct (cat s F); simpl; exact IH. }
      rewrite Hc. reflexivity.
  - intros x Hx. apply in_map_iff in Hx. destruct Hx as [s [<- Hs]].
    apply Hall. exact Hs.
  - rewrite HX. discriminate.
Qed.

Lemma categorical_gain_formula (self : DecisionTree) (X : dataset) (F : string) :
  X <> [] ->
  _categorical_information_gain self X F =
  Ok (spec_gain (fun x => value_of (_categorical_feature_entropy x F))
        (class_names self) X).
Proof.
  intros HX. unfold _categorical_information_gain, spec_gain.
  rewrite (categorical_entropy_value X F) at 1. simpl.
  rewrite (class_loop_sum _ (fun x => value_of (_categorical_feature_entropy x F)))
    by (try assumption; intros x; apply categorical_entropy_value).
  simpl. f_equal. ring.
Qed.

Lemma categorical_gain_constant (self : DecisionTree) (X : dataset) (F : string)
    (v : option string) :
  X <> [] ->
  (forall s, In s X -> cat s F = v) ->
  _categorical_information_gain self X F = Ok 0%R.
Proof.
  intros HX Hall. rewrite (categorical_gain_formula self X F HX). unfold spec_gain.
  rewrite (categorical_entropy_constant X F v Hall).
  rewrite Rsum_zero; [f_equal; ring|].
  intros c _. rewrite (categorical_entropy_constant _ F v); [ring|].
  intros s Hs. apply filter_In in Hs. apply Hall. apply Hs.
Qed.

Lemma numerical_gain_constant (self : DecisionTree) (X : dataset) (F : string) (q : Q) :
  (forall s, In s X -> exists q', num s F = Some q' /\ (q' == q)%Q) ->
  forall g th, _numerical_information_gain self X F = Ok (g, th) ->
               g = 0%R /\ th = None.
Proof.
  intros Hall g th H. unfold _numerical_information_gain in H.
  destruct (col_max X F) as [m|] eqn:Hmax; [|discriminate].
  assert (HX : X <> []) by (eapply col_max_nonempty; eassumption).
  destruct (threshold_loop_spec self X F (py_range (py_int m)) 0%R None HX)
    as (g' & th' & Hrun & _ & _ & Hcase).
  rewrite Hrun in H. injection H as -> ->.
  destruct Hcase as [[-> ->] | (pre & t & post & _ & _ & Hv & Hgt & _)];
    [split; reflexivity|].
  exfalso.
  assert (Hside : count (is_less F t) X = shape0 X \/
                  count (is_more F t) X = shape0 X).
  { destruct (Qle_bool (inject_Z t) q) eqn:Hb.
    - right. apply count_all. intros s Hs. destruct (Hall s Hs) as [q' [Hq' Heq]].
      unfold is_more. rewrite Hq'. apply Qle_bool_iff. rewrite Heq.
      apply Qle_bool_iff. exact Hb.
    - left. apply count_all. intros s Hs. destruct (Hall s Hs) as [q' [Hq' Heq]].
      unfold is_less. rewrite Hq'. unfold Qltb. apply negb_true_iff.
      destruct (Qle_bool (inject_Z t) q') eqn:Hb'; [|reflexivity].
      apply Qle_bool_iff in Hb'. rewrite Heq in Hb'. apply Qle_bool_iff in Hb'.
      congruence. }
  rewrite (threshold_gain_all_one_side self X F t HX Hside) in Hv. simpl in Hv. lra.
Qed.

Lemma select_best_not_constant (self : DecisionTree) (X : dataset)
    (available : list names) (bg : gain_value) (f : string) :
  nonnegative (_min_impurity_decrease self) ->
  select_best self X available = Ok (bg, Some f) ->
  ~ constant_column self X f.
Proof.
  intros Hnn Hsel Hconst.
  destruct (select_best_cases _ _ _ _ _ Hsel)
    as [[Hn _] | (f' & pre & post & s0 & sg & Hf & _ & Hgain & Hs0 & Hsg & Hlt & _)];
    [discriminate|].
  injection Hf as <-. unfold nonnegative in Hnn. rewrite Hs0 in Hnn.
  unfold _information_gain in Hgain.
  destruct Hconst as [[Hcat [v Hall]] | [Hncat [q Hall]]].
  - apply mem_In in Hcat. rewrite Hcat in Hgain.
    destruct X as [|s0' X0] eqn:HX.
    + unfold _categorical_information_gain in Hgain. simpl in Hgain.
      destruct (class_names self) as [|c cs] eqn:Hcl; simpl in Hgain.
      * unfold gain_is_int in Hgain. rewrite Hcl in Hgain. simpl in Hgain.
        injection Hgain as <-. discriminate.
      * injection Hgain as <-. discriminate.
    + rewrite <- HX in *.
      rewrite (categorical_gain_constant self X f v) in Hgain
        by (try exact Hall; rewrite HX; discriminate).
      destruct (gain_is_int self X f); injection Hgain as <-; [discriminate|].
      simpl in Hsg. injection Hsg as <-. lra.
  - destruct (mem f (categorical_feature_names self)) eqn:Hcat;
      [apply mem_In in Hcat; contradiction|].
    destruct (mem f (numerical_feature_names self)); [|injection Hgain as <-; discriminate].
    destruct (_numerical_information_gain self X f) as [[g th]| |] eqn:Hng;
      simpl in Hgain; try discriminate.
    injection Hgain as <-. simpl in Hsg. injection Hsg as <-.
    destruct (numerical_gain_constant self X f q Hall g th Hng) as [-> _]. lra.
Qed.

(** ** What [min_samples_leaf] changes *)

Lemma generate_node_ignores_min_samples_leaf (m : Z) (self : DecisionTree)
    (fuel : nat) (X : dataset) (fv : edge) (available : list names) (sc : registry) :
  _generate_node (with_min_samples_leaf m self) fuel X fv available sc
  = _generate_node self fuel X fv available sc.
Proof.
  destruct self as [mss msl mid fn cn cats nums]. reflexivity.
Qed.

(** ** The class list *)

Lemma insert_sorted_Sorted (c : string) (l : list string) :
  Sorted (fun a b => String.leb a b = true) l ->
  Sorted (fun a b => String.leb a b = true) (insert_sorted c l).
Proof.
  intros H. induction H as [|d l Hs IH Hhd]; simpl.
  - constructor; constructor.
  - destruct (String.leb c d) eqn:Hcd.
    + constructor; [constructor; assumption | constructor; exact Hcd].
    + assert (Hdc : String.leb d c = true).
      { destruct (String.leb_total c d) as [H|H]; [congruence | exact H]. }
      constructor; [exact IH|].
      destruct l as [|e l]; simpl.
      * constructor. exact Hdc.
      * inversion Hhd as [|? ? Hde]; subst.
        destruct (String.leb c e); constructor; assumption.
Qed.

Lemma sorted_Sorted (l : list string) :
  Sorted (fun a b => String.leb a b = true) (sorted l).
Proof.
  induction l as [|c l IH]; simpl; [constructor|].
  apply insert_sorted_Sorted. exact IH.
Qed.

Lemma sorted_set_iff (l : list string) (c : string) : In c (sorted_set l) <-> In c l.
Proof.
  unfold sorted_set. split; intros H.
  - apply (nodup_In string_dec). eapply Permutation_in; [apply sorted_perm | exact H].
  - apply sorted_set_In. exact H.
Qed.

(** ** Rendering *)

Lemma to_uint_nonnil (n : nat) : Nat.to_uint n <> Decimal.Nil.
Proof.
  rewrite <- (DecimalNat.Unsigned.of_to n) at 1.
  rewrite DecimalNat.Unsigned.to_of. apply DecimalFacts.unorm_nonnil.
Qed.

Lemma decimal_inj (m n : nat) : decimal m = decimal n -> m = n.
Proof.
  unfold decimal. intros H. apply DecimalNat.Unsigned.to_uint_inj.
  assert (Hs : Some (Nat.to_uint m) = Some (Nat.to_uint n)).
  { rewrite <- (DecimalString.NilZero.usu _ (to_uint_nonnil m)).
    rewrite <- (DecimalString.NilZero.usu _ (to_uint_nonnil n)).
    rewrite H. reflexivity. }
  injection Hs; auto.
Qed.

Lemma node_name_inj (m n : nat) : node_name m = node_name n -> m = n.
Proof.
  unfold node_name. simpl. intros H. injection H as H. apply decimal_inj. exact H.
Qed.

Lemma node_name_truthy (n : nat) : truthy (Some (node_name n)) = true.
Proof. reflexivity. Qed.

Lemma node_names_app (l1 l2 : list statement) :
  node_names (l1 ++ l2) = node_names l1 ++ node_names l2.
Proof. apply flat_map_app. Qed.

Lemma node_texts_app (l1 l2 : list statement) :
  node_texts (l1 ++ l2) = node_texts l1 ++ node_texts l2.
Proof. apply flat_map_app. Qed.

Lemma edge_heads_app (l1 l2 : list statement) :
  edge_heads (l1 ++ l2) = edge_heads l1 ++ edge_heads l2.
Proof. apply flat_map_app. Qed.

Lemma edge_texts_app (l1 l2 : list statement) :
  edge_texts (l1 ++ l2) = edge_texts l1 ++ edge_texts l2.
Proof. apply flat_map_app. Qed.

Lemma statements_length (stmts : list statement) :
  List.length stmts = List.length (node_names stmts) + List.length (edge_heads stmts).
Proof.
  induction stmts as [|[n t|t h e] stmts IH]; simpl; [reflexivity | |]; lia.
Qed.

Lemma nodes_length_pos (node : Node) : 1 <= List.length (nodes node).
Proof. destruct node. simpl. lia. Qed.

Lemma nodes_head (node : Node) : exists rest, nodes node = node :: rest.
Proof. destruct node. simpl. eexists. reflexivity. Qed.

Section AddNode.

Variable repr_int64 : nat -> string.
Variable d : display.

Lemma adds_childs (pname : string) (pn : nat) (cs : list Node) :
  Forall (adds repr_int64 d) cs ->
  pname = node_name pn ->
  forall c stmts0, pn <= c ->
  exists stmts,
    fold_left (fun st' child => _add_node repr_int64 d child (Some pname) st')
      cs (c, stmts0)
    = (c + List.length (flat_map nodes cs), stmts0 ++ stmts) /\
    node_names stmts = map node_name (seq (S c) (List.length (flat_map nodes cs))) /\
    node_texts stmts = map (node_content repr_int64 d) (flat_map nodes cs) /\
    edge_heads stmts = map node_name (seq (S c) (List.length (flat_map nodes cs))) /\
    edge_texts stmts = map feature_value (flat_map nodes cs) /\
    (forall t h e, In (EdgeStmt t h e) stmts ->
       exists i j, t = node_name i /\ h = node_name j /\ pn <= i /\ i < j).
Proof.
  intros Hall ->. induction Hall as [|child cs Hchild _ IH]; intros c stmts0 Hc.
  - exists []. simpl. rewrite Nat.add_0_r, app_nil_r.
    repeat split; try reflexivity. intros t h e [].
  - destruct (Hchild (Some (node_name pn)) c stmts0)
      as (s1 & Hrun & Hn1 & Ht1 & Hh1 & He1 & Hd1).
    set (n1 := List.length (nodes child)) in *.
    assert (Hn1pos : 1 <= n1) by apply nodes_length_pos.
    destruct (IH (c + n1) (stmts0 ++ s1)) as (s2 & Hrun2 & Hn2 & Ht2 & Hh2 & He2 & Hd2);
      [lia|].
    exists (s1 ++ s2). cbn [fold_left flat_map]. rewrite Hrun, Hrun2.
    rewrite length_app. fold n1.
    set (n2 := List.length (flat_map nodes cs)) in *.
    split; [f_equal; [lia | symmetry; apply app_assoc]|].
    rewrite node_names_app, node_texts_app, edge_heads_app, edge_texts_app.
    rewrite Hn1, Hn2, Ht1, Ht2, Hh1, Hh2, He1, He2.
    rewrite !node_name_truthy.
    split; [|split; [|split; [|split]]].
    + rewrite seq_app, map_app. reflexivity.
    + rewrite map_app. reflexivity.
    + rewrite seq_app, map_app. replace (S c + n1) with (S (c + n1)) by lia.
      f_equal. destruct n1 as [|n1']; [lia|]. simpl. rewrite Nat.sub_0_r. reflexivity.
    + rewrite map_app. f_equal. destruct (nodes_head child) as [rest ->]. simpl.
      destruct child; reflexivity.
    + intros t h e Hin. apply in_app_or in Hin. destruct Hin as [Hin|Hin].
      * destruct (Hd1 t h e Hin) as [[Ht Hh] | (i & j & -> & -> & Hi)].
        -- injection Ht as ->. exists pn, (S c).
           split; [reflexivity|]. split; [exact Hh|]. lia.
        -- exists i, j. split; [reflexivity|]. split; [reflexivity|]. lia.
      * destruct (Hd2 t h e Hin) as (i & j & -> & -> & Hi & Hj).
        exists i, j. split; [reflexivity|]. split; [reflexivity|]. lia.
Qed.

Lemma add_node_adds (node : Node) : adds repr_int64 d node.
Proof.
  induction node as [sf fv n dist lab cs IH] using Node_induction.
  intros parent c stmts0. cbn [_add_node fst snd].
  set (node := mkNode sf fv n dist lab cs) in *.
  set (first := match parent with
                | Some p =>
                    if truthy parent
                    then [NodeStmt (node_name (S c)) (node_content repr_int64 d node);
                          EdgeStmt p (node_name (S c)) fv]
                    else [NodeStmt (node_name (S c)) (node_content repr_int64 d node)]
                | None => [NodeStmt (node_name (S c)) (node_content repr_int64 d node)]
                end).
  assert (Hbody : match parent with
                  | Some p =>
                      if truthy parent
                      then (stmts0 ++ [NodeStmt (node_name (S c))
                                         (node_content repr_int64 d node)])
                           ++ [EdgeStmt p (node_name (S c)) fv]
                      else stmts0 ++ [NodeStmt (node_name (S c))
                                        (node_content repr_int64 d node)]
                  | None => stmts0 ++ [NodeStmt (node_name (S c))
                                         (node_content repr_int64 d node)]
                  end = stmts0 ++ first).
  { unfold first. destruct parent as [p|]; [|reflexivity].
    destruct (truthy (Some p)); [rewrite <- app_assoc|]; reflexivity. }
  rewrite Hbody.
  destruct (adds_childs (node_name (S c)) (S c) cs IH eq_refl (S c) (stmts0 ++ first)
              (le_n _)) as (s2 & Hrun & Hn2 & Ht2 & Hh2 & He2 & Hd2).
  exists (first ++ s2). rewrite Hrun.
  assert (Hnodes : nodes node = node :: flat_map nodes cs) by reflexivity.
  rewrite Hnodes. cbn [List.length tl]. change (feature_value node) with fv.
  set (m := List.length (flat_map nodes cs)) in *.
  split; [f_equal; [lia | symmetry; apply app_assoc]|].
  rewrite node_names_app, node_texts_app, edge_heads_app, edge_texts_app.
  rewrite Hn2, Ht2, Hh2, He2.
  replace (S m - 1) with m by lia.
  assert (Hfirst : node_names first = [node_name (S c)] /\
                   node_texts first = [node_content repr_int64 d node] /\
                   edge_heads first = (if truthy parent then [node_name (S c)] else []) /\
                   edge_texts first = (if truthy parent then [fv] else [])).
  { unfold first. destruct parent as [p|]; [|repeat split; reflexivity].
    destruct (truthy (Some p)); repeat split; reflexivity. }
  destruct Hfirst as (-> & -> & -> & ->).
  split; [reflexivity|]. split; [reflexivity|]. split; [reflexivity|].
  split; [reflexivity|].
  intros t h e Hin. apply in_app_or in Hin. destruct Hin as [Hin|Hin].
  - left. unfold first in Hin. destruct parent as [p|].
    + destruct (truthy (Some p)).
      * destruct Hin as [Hin|[Hin|[]]]; [discriminate|]. injection Hin as -> -> _.
        split; reflexivity.
      * destruct Hin as [Hin|[]]. discriminate.
    + destruct Hin as [Hin|[]]. discriminate.
  - right. destruct (Hd2 t h e Hin) as (i & j & -> & -> & Hi & Hj).
    exists i, j. split; [reflexivity|]. split; [reflexivity|]. lia.
Qed.

End AddNode.

(** * Further properties, stated *)

(** X1. [fit] terminates: with the fuel [fit_fuel], computed from the
    numbers of columns, registry entries and rows, the recursion of the
    node builder reaches its end, with a tree or with an exception, and
    any larger amount of fuel gives the same result. *)
Theorem X1_fit_terminates (fuel : nat) (self : DecisionTree)
    (X_columns : list string) (XY : dataset) (categorical numerical : list string)
    (special_cases : registry) :
  fit_fuel X_columns XY special_cases <= fuel ->
  fit fuel self X_columns XY categorical numerical special_cases <> OutOfFuel /\
  fit fuel self X_columns XY categorical numerical special_cases
  = fit (fit_fuel X_columns XY special_cases) self X_columns XY categorical
      numerical special_cases.
Proof. apply fit_fuel_enough. Qed.

Lemma X1_witness :
  fit 18 default_tree abc two_rows abc [] b_after_a <> OutOfFuel /\
  fit 18 default_tree abc two_rows abc [] b_after_a
  = fit (fit_fuel abc two_rows b_after_a) default_tree abc two_rows abc [] b_after_a.
Proof.
  apply (X1_fit_terminates 18 default_tree abc two_rows abc [] b_after_a).
  vm_compute. lia.
Defined.





(** X3. A numerical split returns the two parts [< t] and [>= t] in this
    order: a row goes to the first exactly when its value is strictly
    below the threshold and to the second exactly when it is at least the
    threshold, so no row is in both; a row whose value is missing is in
    neither, and the parts cover the subset when no value is missing. *)
Theorem X3_numerical_split_partition (X : dataset) (F : string) (t : Z) :
  exists less more,
    _numerical_split X F t = [(less, Less t); (more, AtLeast t)] /\
    (forall s, In s less <->
               In s X /\ exists q, num s F = Some q /\ (q < inject_Z t)%Q) /\
    (forall s, In s more <->
               In s X /\ exists q, num s F = Some q /\ (inject_Z t <= q)%Q) /\
    (forall s, In s less -> ~ In s more) /\
    (forall s, num s F = None -> ~ In s less /\ ~ In s more) /\
    List.length less + List.length more <= List.length X /\
    ((forall s, In s X -> num s F <> None) ->
     List.length less + List.length more = List.length X).
Proof. apply numerical_split_rows. Qed.

(** X4. A categorical split returns one part per distinct cell of the
    column, no cell twice; the part of a value holds exactly the rows
    with this value, the part of the missing value is empty, and the
    parts together hold as many rows as have a cell. *)
Theorem X4_categorical_split_partition (X : dataset) (F : string) :
  map snd (_categorical_split X F) = map ByValue (value_set X F) /\
  NoDup (map snd (_categorical_split X F)) /\
  (forall x a s, In (x, ByValue (Some a)) (_categorical_split X F) ->
                 (In s x <-> In s X /\ cat s F = Some a)) /\
  (forall x, In (x, ByValue None) (_categorical_split X F) -> x = []) /\
  (forall s a, In s X -> cat s F = Some a ->
               exists x, In (x, ByValue (Some a)) (_categorical_split X F) /\ In s x) /\
  parts_size (_categorical_split X F) = count (has_cell F) X.
Proof. apply categorical_split_rows. Qed.

(** X5. Every node of a fitted tree is well shaped: the samples of its
    children add up to at most its own; when it has children its split
    feature has a non-empty name and is either categorical, with one
    child per value and no value twice, or numerical and not categorical,
    with exactly the two children [< t] and [>= t] of one threshold
    [t >= 0]. *)
Theorem X5_tree_shape (fuel : nat) (self : DecisionTree)
    (X_columns : list string) (XY : dataset) (categorical numerical : list string)
    (special_cases : registry) (self1 : DecisionTree) (tree : Node)
    (special_cases1 : registry) :
  fit fuel self X_columns XY categorical numerical special_cases
    = Ok (self1, tree, special_cases1) ->
  Forall (well_shaped self1) (nodes tree).
Proof.
  intros H. destruct (fit_inv _ _ _ _ _ _ _ _ _ _ H) as (_ & available & _ & Hg).
  eapply generate_node_shape; [exact I | exact Hg].
Qed.

Lemma X5_witness : Forall (well_shaped abc_tree) (nodes two_rows_tree).
Proof.
  exact (X5_tree_shape 2 default_tree abc two_rows abc [] b_after_a
           abc_tree two_rows_tree [] fit_two_rows).
Defined.

(** X6. In every node of a fitted tree the distribution has one entry
    per class and the label is the class at the first position of its
    largest entry; there is no label only when there is no class. *)
Theorem X6_majority_label (fuel : nat) (self : DecisionTree)
    (X_columns : list string) (XY : dataset) (categorical numerical : list string)
    (special_cases : registry) (self1 : DecisionTree) (tree : Node)
    (special_cases1 : registry) :
  fit fuel self X_columns XY categorical numerical special_cases
    = Ok (self1, tree, special_cases1) ->
  Forall (majority_label (class_names self1)) (nodes tree).
Proof.
  intros H. destruct (fit_inv _ _ _ _ _ _ _ _ _ _ H) as (_ & available & _ & Hg).
  eapply generate_node_labels; [exact I | exact Hg].
Qed.

Lemma X6_witness :
  Forall (majority_label (class_names abc_tree)) (nodes two_rows_tree).
Proof.
  exact (X6_majority_label 2 default_tree abc two_rows abc [] b_after_a
           abc_tree two_rows_tree [] fit_two_rows).
Defined.

(** X7. [fit] raises ValueError, before any node is built, when a
    dependent cannot be taken out of the column names: a name that
    [special_cases] gives as a value more often than the frame has it as
    a column (not a column at all, or given twice), or a member of a list
    value that is not a column. *)
Theorem X7_fit_rejects_unknown_dependent (fuel : nat) (self : DecisionTree)
    (X_columns : list string) (XY : dataset) (categorical numerical : list string)
    (special_cases : registry) :
  (exists v, occ X_columns v < occ (dependents special_cases) v) \/
  (exists k l v, In (k, NameList l) special_cases /\ In v l /\ ~ In v X_columns) ->
  fit fuel self X_columns XY categorical numerical special_cases = Raise ValueError.
Proof.
  intros H. apply fit_remove_fails. intros available Hrm.
  destruct H as [[v Hv] | (k & l & v & Hin & Hvl & Hnot)].
  - pose proof (remove_dependents_occ _ _ _ Hrm v) as Hocc.
    rewrite names_in_map_Name in Hocc. unfold dependents in Hv. lia.
  - assert (Hl : In (NameList l) (map snd special_cases)).
    { apply in_map_iff. exists (k, NameList l). split; [reflexivity | exact Hin]. }
    pose proof (remove_dependents_lists _ _ _ Hrm l v Hl) as Hocc.
    rewrite names_in_map_Name in Hocc. apply occ_In in Hvl.
    apply Hnot. apply occ_In. lia.
Qed.

Lemma X7_witness :
  fit 5 default_tree abc two_rows abc [] [("a", Name "z")]%string = Raise ValueError.
Proof.
  apply (X7_fit_rejects_unknown_dependent 5 default_tree abc two_rows abc []
           [("a", Name "z")]%string).
  left. exists "z"%string. vm_compute. lia.
Defined.

(** X8. Every split feature of a fitted tree is a column of the frame and
    is listed as categorical or as numerical: a column in neither list is
    never chosen. *)
Theorem X8_splits_are_catalogued_columns (fuel : nat) (self : DecisionTree)
    (X_columns : list string) (XY : dataset) (categorical numerical : list string)
    (special_cases : registry) (self1 : DecisionTree) (tree : Node)
    (special_cases1 : registry) :
  fit fuel self X_columns XY categorical numerical special_cases
    = Ok (self1, tree, special_cases1) ->
  forall f, In f (splits tree) ->
    In f X_columns /\ (In f categorical \/ In f numerical).
Proof.
  intros H f Hf. destruct (fit_inv _ _ _ _ _ _ _ _ _ _ H) as (-> & available & Hrm & Hg).
  destruct (generate_node_splits _ _ _ _ _ _ _ _ I Hg f Hf) as [Hreach Hcat].
  split; [|exact Hcat].
  apply occ_In. apply occ_In in Hreach. unfold within_reach in Hreach.
  rewrite occ_app in Hreach.
  pose proof (remove_dependents_occ _ _ _ Hrm f) as Hocc.
  rewrite names_in_map_Name in Hocc. unfold dependents in Hreach. lia.
Qed.

Lemma X8_witness :
  In "a"%string abc /\ (In "a"%string abc \/ In "a"%string []).
Proof.
  apply (X8_splits_are_catalogued_columns 2 default_tree abc two_rows abc []
           b_after_a abc_tree two_rows_tree [] fit_two_rows "a"%string).
  simpl. left. reflexivity.
Defined.

(** X9. When the columns have distinct names and [special_cases] maps the
    key [k] to the single name [v], every root-to-leaf path of the fitted
    tree meets [k] before any node that splits on [v]: a dependent is
    never a split above or beside its prerequisite. *)
Theorem X9_dependent_below_prerequisite (fuel : nat) (self : DecisionTree)
    (X_columns : list string) (XY : dataset) (categorical numerical : list string)
    (special_cases : registry) (self1 : DecisionTree) (tree : Node)
    (special_cases1 : registry) (k v : string) :
  NoDup X_columns ->
  In (k, Name v) special_cases ->
  fit fuel self X_columns XY categorical numerical special_cases
    = Ok (self1, tree, special_cases1) ->
  prerequisite_first k v tree.
Proof.
  intros Hnd Hin H.
  destruct (fit_inv _ _ _ _ _ _ _ _ _ _ H) as (_ & available & Hrm & Hg).
  eapply generate_node_prerequisite; [|exact Hg].
  eapply initial_locked; eassumption.
Qed.

Lemma X9_witness : prerequisite_first "a" "b" two_rows_tree.
Proof.
  apply (X9_dependent_below_prerequisite 2 default_tree abc two_rows abc []
           b_after_a abc_tree two_rows_tree [] "a" "b" abc_NoDup).
  - left. reflexivity.
  - exact fit_two_rows.
Defined.

(** X10. The categorical entropy never fails and is the formula of its
    docstring: minus the sum, over the values of the column that have a
    row, of [(m_i/n) * log2 (m_i/n)]; it is not negative. *)
Theorem X10_categorical_entropy_formula (X : dataset) (F : string) :
  _categorical_feature_entropy X F = Ok (spec_categorical_entropy X F) /\
  (0 <= spec_categorical_entropy X F)%R.
Proof. apply categorical_entropy_formula. Qed.

(** X11. The numerical entropy of a threshold never fails and is not
    negative; it is 0 when all rows of the subset are on one side of the
    threshold. *)
Theorem X11_numerical_entropy_range (X : dataset) (F : string) (t : Z) :
  exists h,
    _numerical_feature_entropy X F t = Ok h /\ (0 <= h)%R /\
    (count (is_less F t) X = shape0 X \/ count (is_more F t) X = shape0 X ->
     h = 0%R).
Proof.
  destruct (numerical_entropy_nonneg X F t) as (h & Hh & Hpos).
  exists h. split; [exact Hh|]. split; [exact Hpos|].
  intros Hside. rewrite (numerical_entropy_all_one_side X F t Hside) in Hh.
  injection Hh as <-. reflexivity.
Qed.

Lemma X11_witness :
  exists h,
    _numerical_feature_entropy one_row "n" 0 = Ok h /\ (0 <= h)%R /\ h = 0%R.
Proof.
  destruct (X11_numerical_entropy_range one_row "n" 0) as (h & Hh & Hpos & Hzero).
  exists h. split; [exact Hh|]. split; [exact Hpos|].
  apply Hzero. right. reflexivity.
Defined.

(** X12. With a non-negative [min_impurity_decrease], the feature search
    of a node never selects a column in which all rows of the subset
    agree: its gain is 0, which is not above the threshold. *)
Theorem X12_constant_column_not_selected (self : DecisionTree) (X : dataset)
    (available : list names) (bg : gain_value) (f : string) :
  nonnegative (_min_impurity_decrease self) ->
  select_best self X available = Ok (bg, Some f) ->
  ~ constant_column self X f.
Proof. apply select_best_not_constant. Qed.

Lemma abc_tree_nonnegative : nonnegative (_min_impurity_decrease abc_tree).
Proof. unfold nonnegative. simpl. lra. Qed.

Lemma X12_witness : ~ constant_column abc_tree two_rows "a".
Proof.
  exact (X12_constant_column_not_selected abc_tree two_rows [Name "a"; Name "c"]
           (GFloat 1) "a" abc_tree_nonnegative select_best_two_rows).
Defined.

Lemma col_max_none (X : dataset) (F : string) :
  col_max X F = None <-> forall s, In s X -> num s F = None.
Proof.
  induction X as [|s X IH]; simpl.
  - split; [intros _ s []| reflexivity].
  - destruct (num s F) as [q|] eqn:Hq.
    + split.
      * destruct (col_max X F); discriminate.
      * intros H. specialize (H s (or_introl eq_refl)). congruence.
    + rewrite IH. split.
      * intros H s' [<-|Hin]; [exact Hq | apply H; exact Hin].
      * intros H s' Hin. apply H. right. exact Hin.
Qed.

Lemma small_subset_constant (self : DecisionTree) (X : dataset)
    (available : list names) (bg : gain_value) (f : string) :
  List.length X <= 1 ->
  select_best self X available = Ok (bg, Some f) ->
  constant_column self X f.
Proof.
  intros Hlen Hsel.
  destruct (select_best_cases _ _ _ _ _ Hsel)
    as [[Hn _] | (f' & pre & post & s0 & sg & Hf & _ & Hgain & _ & Hsg & _)];
    [discriminate|].
  injection Hf as <-. unfold _information_gain in Hgain.
  destruct (mem f (categorical_feature_names self)) eqn:Hcat.
  - left. split; [apply mem_In; exact Hcat|].
    destruct X as [|s [|s' X]]; simpl in Hlen; try lia.
    + exists None. intros s [].
    + exists (cat s f). intros s' [<-|[]]. reflexivity.
  - right. split.
    { intros Hin. apply mem_In in Hin. congruence. }
    destruct X as [|s [|s' X]]; simpl in Hlen; try lia.
    + exists 0%Q. intros s [].
    + destruct (mem f (numerical_feature_names self));
        [|injection Hgain as <-; discriminate].
      destruct (num s f) as [q|] eqn:Hq.
      * exists q. intros s' [<-|[]]. exists q. split; [exact Hq | reflexivity].
      * unfold _numerical_information_gain in Hgain.
        assert (Hm : col_max [s] f = None).
        { apply col_max_none. intros s' [<-|[]]. exact Hq. }
        rewrite Hm in Hgain. discriminate.
Qed.

Lemma small_subset_leaf (self : DecisionTree) (fuel : nat) (X : dataset)
    (fv : edge) (available : list names) (sc : registry) (node : Node)
    (sc' : registry) :
  nonnegative (_min_impurity_decrease self) ->
  List.length X <= 1 ->
  _generate_node self fuel X fv available sc = Ok (node, sc') ->
  is_leaf node /\ feature_value node = fv /\ samples node = List.length X /\
  sc' = sc.
Proof.
  intros Hnn Hlen H. destruct fuel as [|fuel]; [discriminate|].
  rewrite generate_node_unfold in H.
  destruct (select_best self X available) as [[bg bf]| |] eqn:Hsel;
    try discriminate.
  destruct bf as [f|].
  - exfalso. apply (select_best_not_constant self X available bg f Hnn Hsel).
    apply (small_subset_constant self X available bg f Hlen Hsel).
  - cbn [bind] in H.
    destruct (distribution_loop X (class_names self) [] None (-1)%Z) as [dist lab].
    cbn [bind] in H. injection H as <- <-.
    unfold is_leaf. simpl. repeat split; reflexivity.
Qed.

Section Leaves.

#[local] Arguments Rltb : simpl never.
#[local] Arguments _information_gain : simpl never.

(** The child of the value [x] of [a] in [two_rows]: neither [b] nor [c]
    has a gain above the threshold. *)
Lemma generate_node_row_x :
  _generate_node abc_tree 1 [row_x] (ByValue (Some "x"%string))
    [Name "b"; Name "c"] []
  = Ok (mkNode None (ByValue (Some "x"%string)) 1 [1; 0] (Some "p"%string) [], []).
Proof.
  rewrite generate_node_unfold. unfold select_best. cbn.
  rewrite gain_row_x by (simpl; tauto). cbn.
  rewrite (Rltb_false (5 / 100) 0) by lra.
  rewrite gain_row_x by (simpl; tauto). cbn.
  rewrite (Rltb_false (5 / 100) 0) by lra.
  reflexivity.
Qed.

End Leaves.

(** X13. With a non-negative [min_impurity_decrease], a call of the node
    builder on a subset of at most one row that returns, returns a leaf:
    no split feature and no child, whatever [min_samples_split] is; the
    leaf keeps the edge value and the number of rows, and the registry is
    left as it was. *)
Theorem X13_single_row_is_leaf (self : DecisionTree) (fuel : nat) (X : dataset)
    (fv : edge) (available : list names) (sc : registry) (node : Node)
    (sc' : registry) :
  nonnegative (_min_impurity_decrease self) ->
  List.length X <= 1 ->
  _generate_node self fuel X fv available sc = Ok (node, sc') ->
  is_leaf node /\ feature_value node = fv /\ samples node = List.length X /\
  sc' = sc.
Proof. apply small_subset_leaf. Qed.

Lemma X13_witness :
  is_leaf (mkNode None (ByValue (Some "x"%string)) 1 [1; 0] (Some "p"%string) []) /\
  feature_value (mkNode None (ByValue (Some "x"%string)) 1 [1; 0] (Some "p"%string) [])
  = ByValue (Some "x"%string) /\
  samples (mkNode None (ByValue (Some "x"%string)) 1 [1; 0] (Some "p"%string) [])
  = List.length [row_x] /\
  @nil (string * names) = [].
Proof.
  apply (X13_single_row_is_leaf abc_tree 1 [row_x] (ByValue (Some "x"%string))
           [Name "b"; Name "c"] [] _ [] abc_tree_nonnegative).
  - simpl. lia.
  - exact generate_node_row_x.
Defined.

(** X14. [min_samples_leaf] has no effect: [fit] on an object that
    differs only in this parameter fails in the same way or returns the
    same tree and the same registry. *)
Theorem X14_min_samples_leaf_unused (m : Z) (fuel : nat) (self : DecisionTree)
    (X_columns : list string) (XY : dataset) (categorical numerical : list string)
    (special_cases : registry) :
  fit fuel (with_min_samples_leaf m self) X_columns XY categorical numerical
    special_cases
  = match fit fuel self X_columns XY categorical numerical special_cases with
    | Ok (self1, tree, special_cases1) =>
        Ok (with_min_samples_leaf m self1, tree, special_cases1)
    | Raise e => Raise e
    | OutOfFuel => OutOfFuel
    end.
Proof.
  rewrite !fit_unfold. cbn zeta.
  destruct (remove_dependents (map snd special_cases) (map Name X_columns))
    as [available| |]; cbn [bind]; try reflexivity.
  set (self1 := mkDecisionTree (_min_samples_split self) (_min_samples_leaf self)
                  (_min_impurity_decrease self) X_columns
                  (sorted_set (map target XY)) categorical numerical).
  change (mkDecisionTree (_min_samples_split (with_min_samples_leaf m self))
            (_min_samples_leaf (with_min_samples_leaf m self))
            (_min_impurity_decrease (with_min_samples_leaf m self)) X_columns
            (sorted_set (map target XY)) categorical numerical)
    with (with_min_samples_leaf m self1).
  rewrite generate_node_ignores_min_samples_leaf.
  destruct (_generate_node self1 fuel XY NoEdge available special_cases)
    as [[tree sc1]| |]; reflexivity.
Qed.

(** X15. After [fit], [class_names] is sorted, has no class twice and
    holds exactly the labels of the training rows; the feature lists are
    the arguments of the call and the three parameters of the constructor
    are unchanged. *)
Theorem X15_fit_sets_attributes (fuel : nat) (self : DecisionTree)
    (X_columns : list string) (XY : dataset) (categorical numerical : list string)
    (special_cases : registry) (self1 : DecisionTree) (tree : Node)
    (special_cases1 : registry) :
  fit fuel self X_columns XY categorical numerical special_cases
    = Ok (self1, tree, special_cases1) ->
  Sorted (fun a b => String.leb a b = true) (class_names self1) /\
  NoDup (class_names self1) /\
  (forall c, In c (class_names self1) <-> exists s, In s XY /\ target s = c) /\
  feature_names self1 = X_columns /\
  categorical_feature_names self1 = categorical /\
  numerical_feature_names self1 = numerical /\
  _min_samples_split self1 = _min_samples_split self /\
  _min_impurity_decrease self1 = _min_impurity_decrease self.
Proof.
  intros H. destruct (fit_inv _ _ _ _ _ _ _ _ _ _ H) as (-> & _). simpl.
  split; [apply sorted_Sorted|]. split; [apply sorted_set_NoDup|].
  split; [|repeat split; reflexivity].
  intros c. rewrite sorted_set_iff, in_map_iff.
  split; intros (s & H1 & H2); exists s; split; assumption.
Qed.

Lemma X15_witness :
  Sorted (fun a b => String.leb a b = true) (class_names abc_tree) /\
  NoDup (class_names abc_tree) /\
  (forall c, In c (class_names abc_tree) <-> exists s, In s two_rows /\ target s = c) /\
  feature_names abc_tree = abc /\
  categorical_feature_names abc_tree = abc /\
  numerical_feature_names abc_tree = [] /\
  _min_samples_split abc_tree = _min_samples_split default_tree /\
  _min_impurity_decrease abc_tree = _min_impurity_decrease default_tree.
Proof.
  exact (X15_fit_sets_attributes 2 default_tree abc two_rows abc [] b_after_a
           abc_tree two_rows_tree [] fit_two_rows).
Defined.

(** ** Rendering an object *)

Lemma render_fitted (r : nat -> string) (d : display) (t : Node) (c : nat) :
  exists g,
    render r d (fitted t) c
    = (mkInstance (Some t) (Some g), c + List.length (nodes t), Graph g) /\
    node_attr g = (if rounded d
                   then [("shape", "box"); ("style", "rounded")]
                   else [("shape", "box")])%string /\
    node_names (body g) = map node_name (seq (S c) (List.length (nodes t))) /\
    node_texts (body g) = map (node_content r d) (nodes t) /\
    edge_heads (body g)
    = map node_name (seq (S (S c)) (List.length (nodes t) - 1)) /\
    edge_texts (body g) = map feature_value (tl (nodes t)) /\
    Forall (edge_goes_down c) (body g).
Proof.
  destruct (add_node_adds r d t None c [])
    as (stmts & Hrun & Hn & Ht & Hh & He & Hd).
  unfold render, fitted, _create_graph. cbn [self_graph self_tree].
  rewrite Hrun. cbn [app].
  eexists. split; [reflexivity|]. cbn [node_attr body].
  split; [reflexivity|]. split; [exact Hn|]. split; [exact Ht|].
  split; [exact Hh|]. split; [exact He|].
  apply Forall_forall. intros [n txt | tl hd e] Hin; simpl; [exact I|].
  destruct (Hd tl hd e Hin) as [[Hp _] | Hdown]; [discriminate | exact Hdown].
Qed.

Lemma node_names_NoDup (c n : nat) : NoDup (map node_name (seq c n)).
Proof.
  apply Finite.Injective_map_NoDup.
  - intros a b. apply node_name_inj.
  - apply seq_NoDup.
Qed.

(** X16. The first [render] of a fitted object draws every node of the
    tree once, in depth-first order: the counter advances by the number
    of nodes, the nodes are named [node(c+1)], [node(c+2)], ... with no
    name twice, their texts are the contents of the nodes in this order,
    every node but the root is the head of exactly one edge, labelled
    with its [feature_value], every edge goes from a lower to a higher
    number, and the body has [2N - 1] statements. *)
Theorem X16_render_draws_the_tree (r : nat -> string) (d : display) (t : Node)
    (c : nat) :
  exists g,
    render r d (fitted t) c
    = (mkInstance (Some t) (Some g), c + List.length (nodes t), Graph g) /\
    node_attr g = (if rounded d
                   then [("shape", "box"); ("style", "rounded")]
                   else [("shape", "box")])%string /\
    node_names (body g) = map node_name (seq (S c) (List.length (nodes t))) /\
    NoDup (node_names (body g)) /\
    node_texts (body g) = map (node_content r d) (nodes t) /\
    edge_heads (body g)
    = map node_name (seq (S (S c)) (List.length (nodes t) - 1)) /\
    edge_texts (body g) = map feature_value (tl (nodes t)) /\
    Forall (edge_goes_down c) (body g) /\
    List.length (body g) = 2 * List.length (nodes t) - 1.
Proof.
  destruct (render_fitted r d t c) as (g & Hrun & Ha & Hn & Ht & Hh & He & Hd).
  exists g. split; [exact Hrun|]. split; [exact Ha|]. split; [exact Hn|].
  split; [rewrite Hn; apply node_names_NoDup|]. split; [exact Ht|].
  split; [exact Hh|]. split; [exact He|]. split; [exact Hd|].
  rewrite statements_length, Hn, Hh, !length_map, !length_seq.
  pose proof (nodes_length_pos t). lia.
Qed.

Lemma render_stores_graph (r : nat -> string) (d : display) (self : Instance)
    (c : nat) (self1 : Instance) (c1 : nat) (g : Digraph) :
  render r d self c = (self1, c1, Graph g) -> self_graph self1 = Some g.
Proof.
  unfold render, _create_graph. intros H.
  destruct (self_graph self) as [g0|] eqn:Hg.
  - injection H as <- _ <-. exact Hg.
  - destruct (self_tree self) as [t|]; [|discriminate].
    destruct (_add_node r d t None (c, [])) as [c' stmts].
    injection H as <- _ <-. reflexivity.
Qed.

(** X17. Once [render] has returned a graph, every later [render] of the
    object returns this same graph and leaves the counter alone, whatever
    display options it is given, and also after a new [fit] has replaced
    the tree: the drawing is never refreshed. *)
Theorem X17_render_is_cached (r : nat -> string) (d : display) (self : Instance)
    (c : nat) (self1 : Instance) (c1 : nat) (g : Digraph) :
  render r d self c = (self1, c1, Graph g) ->
  forall (r2 : nat -> string) (d2 : display) (c2 : nat) (t2 : Node),
    render r2 d2 self1 c2 = (self1, c2, Graph g) /\
    render r2 d2 (set_tree t2 self1) c2 = (set_tree t2 self1, c2, Graph g).
Proof.
  intros H r2 d2 c2 t2. apply render_stores_graph in H.
  unfold render, set_tree. cbn [self_graph]. rewrite H. split; reflexivity.
Qed.

Lemma X17_witness :
  exists self1 c1 g,
    render decimal default_display (fitted two_rows_tree) 0 = (self1, c1, Graph g) /\
    forall (r2 : nat -> string) (d2 : display) (c2 : nat) (t2 : Node),
      render r2 d2 self1 c2 = (self1, c2, Graph g) /\
      render r2 d2 (set_tree t2 self1) c2 = (set_tree t2 self1, c2, Graph g).
Proof.
  eexists _, _, _. split; [reflexivity|].
  exact (X17_render_is_cached decimal default_display (fitted two_rows_tree) 0
           _ _ _ eq_refl).
Defined.

(** X18. [render] before [fit] fails with AttributeError without
    touching the counter, but the empty graph it has made stays on the
    object: after a later [fit], [render] returns this graph, with the
    node attributes of the failed call and no statement, and the tree is
    not drawn. *)
Theorem X18_render_before_fit (r : nat -> string) (d : display) (c : nat) :
  exists self1 g,
    render r d unfitted c = (self1, c, AttributeError) /\
    self_graph self1 = Some g /\ body g = [] /\
    forall (t : Node) (r2 : nat -> string) (d2 : display) (c2 : nat),
      render r2 d2 (set_tree t self1) c2 = (set_tree t self1, c2, Graph g).
Proof.
  unfold render, unfitted, _create_graph. cbn [self_graph self_tree].
  eexists _, _. split; [reflexivity|]. cbn [self_graph].
  split; [reflexivity|]. split; [reflexivity|].
  intros t r2 d2 c2. reflexivity.
Qed.

(** X19. The counter of [_add_node] is one for all objects and is never
    reset: when two fitted objects are rendered one after the other, the
    node names of the second graph start after the last name of the
    first, and no name is in both graphs. *)
Theorem X19_render_names_continue (r1 r2 : nat -> string) (d1 d2 : display)
    (t1 t2 : Node) (c : nat) (self1 self2 : Instance) (c1 c2 : nat)
    (g1 g2 : Digraph) :
  render r1 d1 (fitted t1) c = (self1, c1, Graph g1) ->
  render r2 d2 (fitted t2) c1 = (self2, c2, Graph g2) ->
  c1 = c + List.length (nodes t1) /\
  c2 = c + List.length (nodes t1) + List.length (nodes t2) /\
  node_names (body g2)
  = map node_name (seq (S (c + List.length (nodes t1))) (List.length (nodes t2))) /\
  forall n, In n (node_names (body g1)) -> ~ In n (node_names (body g2)).
Proof.
  intros H1 H2.
  destruct (render_fitted r1 d1 t1 c) as (g1' & Hrun1 & _ & Hn1 & _).
  rewrite Hrun1 in H1. injection H1 as <- <- <-.
  destruct (render_fitted r2 d2 t2 (c + List.length (nodes t1)))
    as (g2' & Hrun2 & _ & Hn2 & _).
  rewrite Hrun2 in H2. injection H2 as <- <- <-.
  split; [reflexivity|]. split; [reflexivity|]. split; [exact Hn2|].
  intros n Hin1 Hin2. rewrite Hn1 in Hin1. rewrite Hn2 in Hin2.
  apply in_map_iff in Hin1. destruct Hin1 as (i & <- & Hi).
  apply in_map_iff in Hin2. destruct Hin2 as (j & Hj & Hjin).
  apply node_name_inj in Hj. subst j.
  apply in_seq in Hi. apply in_seq in Hjin. lia.
Qed.

Lemma X19_witness :
  exists self1 self2 c1 c2 g1 g2,
    render decimal default_display (fitted two_rows_tree) 0 = (self1, c1, Graph g1) /\
    render decimal default_display (fitted with_missing_tree) c1
    = (self2, c2, Graph g2) /\
    c1 = 0 + List.length (nodes two_rows_tree) /\
    c2 = 0 + List.length (nodes two_rows_tree) + List.length (nodes with_missing_tree) /\
    node_names (body g2)
    = map node_name (seq (S (0 + List.length (nodes two_rows_tree)))
                       (List.length (nodes with_missing_tree))) /\
    forall n, In n (node_names (body g1)) -> ~ In n (node_names (body g2)).
Proof.
  eexists _, _, _, _, _, _. split; [reflexivity|]. split; [reflexivity|].
  exact (X19_render_names_continue decimal decimal default_display default_display
           two_rows_tree with_missing_tree 0 _ _ _ _ _ _ eq_refl eq_refl).
Defined.

(** X20. The numerical gain raises ValueError exactly when no row of the
    subset has a value in the column, which includes the empty subset:
    the maximum of the column is then nan, and [int(nan)] fails. *)
Theorem X20_numerical_gain_needs_a_value (self : DecisionTree) (X : dataset)
    (F : string) :
  _numerical_information_gain self X F = Raise ValueError <->
  (forall s, In s X -> num s F = None).
Proof.
  unfold _numerical_information_gain. rewrite <- col_max_none.
  destruct (col_max X F) as [m|] eqn:Hm.
  - pose proof (col_max_nonempty X F m Hm) as HX.
    destruct (threshold_loop_spec self X F (py_range (py_int m)) 0%R None HX)
      as (g & th & -> & _).
    split; discriminate.
  - split; reflexivity.
Qed.

Lemma X20_witness :
  _numerical_information_gain n_tree with_missing "n" = Raise ValueError.
Proof.
  apply (proj2 (X20_numerical_gain_needs_a_value n_tree with_missing "n")).
  intros s [<-|[<-|[]]]; reflexivity.
Defined.
